(** * A shallow embedding of [generate.py] (class [CrosswordCreator])

    The crossword generator is a constraint-satisfaction solver: node
    consistency, AC-3 arc consistency and heuristic backtracking search.

    Conventions of the embedding.
    - A Python [str] is a [string]; [s[k]] is [str_index s k] and raises
      [IndexError] out of range.
    - A Python [set] is a list without repetitions whose order is the
      iteration order of the set; [remove] filters the element out and keeps
      the order of the others.
    - A Python [dict] whose iteration order is observed ([overlaps],
      the assignment) is an association list in insertion order; the domain
      store [self.domains], only ever read and written by key, is a [gmap].
    - Exceptions and the exhaustion of the fuel of a loop are the two
      non-[Ok] outcomes of the result type [res]. *)

From Stdlib Require Import String Ascii List Arith Lia Bool Sorted Permutation.
From stdpp Require Import base option list gmap strings.

Local Open Scope string_scope.
Local Open Scope list_scope.

(** ** Outcomes: normal return, exception, out of fuel *)

Inductive exn : Type := KeyError | IndexError | TypeError | AttributeError.

Inductive res (A : Type) : Type :=
  | Ok (a : A)
  | Raise (e : exn)
  | OutOfFuel.

Arguments Ok {A} a.
Arguments Raise {A} e.
Arguments OutOfFuel {A}.

Definition bind {A B : Type} (m : res A) (f : A -> res B) : res B :=
  match m with
  | Ok a => f a
  | Raise e => Raise e
  | OutOfFuel => OutOfFuel
  end.

Notation "'let*' x ':=' m 'in' k" := (bind m (fun x => k))
  (at level 10, x pattern, m at level 200, k at level 200).

(** [d[k]] on a mapping: [KeyError] when the key is absent. *)
Definition get_or_raise {A} (o : option A) : res A :=
  match o with
  | Some a => Ok a
  | None => Raise KeyError
  end.

(** ** Variables (crossword slots) *)

(** Modelled from the spec: the two orientations [Variable.ACROSS] and
    [Variable.DOWN] of [crossword.py]. *)
Inductive Direction : Type := ACROSS | DOWN.

(** Modelled from the spec: the class [Variable] of [crossword.py], an
    immutable value with the fields row [i], column [j], [direction] and
    [length], compared and hashed by these four fields. *)
Record Var : Type := mkVar {
  var_i : nat;
  var_j : nat;
  var_direction : Direction;
  var_length : nat
}.

#[global] Instance Direction_eq_dec : EqDecision Direction.
Proof. solve_decision. Defined.

#[global] Instance Var_eq_dec : EqDecision Var.
Proof. solve_decision. Defined.

Definition Var_to_tuple (v : Var) : nat * nat * bool * nat :=
  (var_i v, var_j v,
   match var_direction v with ACROSS => true | DOWN => false end,
   var_length v).

Definition Var_of_tuple (t : nat * nat * bool * nat) : Var :=
  let '(r, c, d, n) := t in
  mkVar r c (if d then ACROSS else DOWN) n.

#[global] Instance Var_countable : Countable Var.
Proof.
  apply (inj_countable' Var_to_tuple Var_of_tuple).
  intros [r c [] n]; reflexivity.
Defined.

(** ** Strings *)

(** [s[k]] for a non-negative index. *)
Definition str_index (s : string) (k : nat) : res ascii :=
  match String.get k s with
  | Some c => Ok c
  | None => Raise IndexError
  end.

Definition ascii_eqb (a b : ascii) : bool := Ascii.eqb a b.

(** ** Insertion-ordered dictionaries *)

Section Dict.
Context {K V : Type} `{EqDecision K}.

Definition dict : Type := list (K * V).

Fixpoint dict_get (d : dict) (k : K) : option V :=
  match d with
  | [] => None
  | (k', v) :: d' => if decide (k' = k) then Some v else dict_get d' k
  end.

Definition dict_mem (k : K) (d : dict) : bool :=
  match dict_get d k with Some _ => true | None => false end.

Definition dict_keys (d : dict) : list K := map fst d.

(** [d[k] = v]: an existing key keeps its position, a new key goes last. *)
Fixpoint dict_set (d : dict) (k : K) (v : V) : dict :=
  match d with
  | [] => [(k, v)]
  | (k', v') :: d' =>
      if decide (k' = k) then (k', v) :: d' else (k', v') :: dict_set d' k v
  end.

Fixpoint dict_remove (d : dict) (k : K) : dict :=
  match d with
  | [] => []
  | (k', v') :: d' =>
      if decide (k' = k) then d' else (k', v') :: dict_remove d' k
  end.

(** [d.pop(k)] with the popped value dropped. *)
Definition dict_pop (d : dict) (k : K) : res dict :=
  if dict_mem k d then Ok (dict_remove d k) else Raise KeyError.
End Dict.

Arguments dict K V : clear implicits.

(** ** The crossword *)

(** An arc is an ordered pair of variables, a key of [overlaps]. *)
Definition Arc : Type := Var * Var.

(** Modelled from the spec: the fields of the class [Crossword] of
    [crossword.py] that the creator reads.  [variables] is the set of
    variables, [overlaps] the dictionary from ordered pairs of distinct
    variables to [None] or to the pair of indices at which their words meet,
    [words] the vocabulary. *)
Record Crossword : Type := mkCrossword {
  variables : list Var;
  overlaps : dict Arc (option (nat * nat));
  words : list string
}.

(** [self.crossword.overlaps[(x, y)]] *)
Definition overlaps_get (cw : Crossword) (x y : Var) : res (option (nat * nat)) :=
  get_or_raise (dict_get (overlaps cw) (x, y)).

Definition has_overlap (cw : Crossword) (x y : Var) : bool :=
  match dict_get (overlaps cw) (x, y) with
  | Some (Some _) => true
  | _ => false
  end.

(** Modelled from the spec: [Crossword.neighbors] of [crossword.py], the set
    of all variables [y] with [overlap(x, y)] different from [None]. *)
Definition neighbors (cw : Crossword) (x : Var) : list Var :=
  List.filter (has_overlap cw x) (variables cw).

(** ** The domain store [self.domains] *)

Abbreviation Domains := (gmap Var (list string)).

Definition domains_get (doms : Domains) (x : Var) : res (list string) :=
  get_or_raise (doms !! x).

(** [s.remove(w)] on a set. *)
Definition set_remove (w : string) (s : list string) : list string :=
  List.filter (fun w' => negb (String.eqb w' w)) s.

(** [CrosswordCreator.__init__]: every variable starts with a copy of the
    whole vocabulary. *)
Definition init_domains (cw : Crossword) : Domains :=
  list_to_map (map (fun v => (v, words cw)) (variables cw)).

(** [enforce_node_consistency]: drop the words of the wrong length. *)
Definition enforce_node_consistency (doms : Domains) : Domains :=
  map_imap (fun v d =>
    Some (List.filter (fun w => Nat.eqb (String.length w) (var_length v)) d)) doms.

(** The two loops of [enforce_node_consistency] as they are written.  The
    inner loop runs over a copy of the domain of [variable] and removes the
    words of the wrong length from the domain itself, one at a time. *)
Fixpoint enforce_words (variable : Var) (copy : list string) (doms : Domains)
    : res Domains :=
  match copy with
  | [] => Ok doms
  | word :: copy' =>
      if negb (Nat.eqb (String.length word) (var_length variable))
      then
        let* d := domains_get doms variable in
        enforce_words variable copy' (<[variable := set_remove word d]> doms)
      else enforce_words variable copy' doms
  end.

(** The outer loop, over the keys of [self.domains] in the order [keys] in
    which the dictionary yields them. *)
Fixpoint enforce_loop (keys : list Var) (doms : Domains) : res Domains :=
  match keys with
  | [] => Ok doms
  | variable :: keys' =>
      let* copy := domains_get doms variable in
      let* doms' := enforce_words variable copy doms in
      enforce_loop keys' doms'
  end.

(** ** [revise] *)

(** The inner loop of [revise]: it scans the whole of [domains[y]] and never
    breaks. *)
Fixpoint revise_scan (ix iy : nat) (X : string) (Ys : list string)
    (valid_option_found : bool) : res bool :=
  match Ys with
  | [] => Ok valid_option_found
  | Y :: Ys' =>
      let* cx := str_index X ix in
      let* cy := str_index Y iy in
      revise_scan ix iy X Ys'
        (if ascii_eqb cx cy && negb (String.eqb X Y) then true
         else valid_option_found)
  end.

(** The outer loop of [revise], over a copy [Xs] of [domains[x]]; the store
    is read again at every iteration, as the source does. *)
Fixpoint revise_loop (ix iy : nat) (x y : Var) (Xs : list string)
    (doms : Domains) (revised : bool) : res (bool * Domains) :=
  match Xs with
  | [] => Ok (revised, doms)
  | X :: Xs' =>
      let* dy := domains_get doms y in
      let* found := revise_scan ix iy X dy false in
      if found then revise_loop ix iy x y Xs' doms revised
      else
        let* dx := domains_get doms x in
        revise_loop ix iy x y Xs' (<[x := set_remove X dx]> doms) true
  end.

Definition revise (cw : Crossword) (x y : Var) (doms : Domains)
    : res (bool * Domains) :=
  let* ov := overlaps_get cw x y in
  match ov with
  | None => Ok (false, doms)
  | Some (ix, iy) =>
      let* dx := domains_get doms x in
      revise_loop ix iy x y dx doms false
  end.

(** ** [ac3] *)

(** The arcs [ac3] starts from when [arcs] is [None]: the keys of
    [overlaps] whose entry is not [None]. *)
Definition initial_arcs (cw : Crossword) : list Arc :=
  List.filter (fun pair => has_overlap cw (fst pair) (snd pair))
              (dict_keys (overlaps cw)).

(** [neighbors(x) - {y}].  The source iterates this fresh set in an order
    that the language leaves open; the list has its elements in the order
    of [variables].  The worklist of the specification ([requeued] below)
    speaks of the elements, each taken once, and not of their order. *)
Definition neighbors_except (cw : Crossword) (x y : Var) : list Var :=
  List.filter (fun z => negb (bool_decide (z = y))) (neighbors cw x).

(** The [while] loop of [ac3].  The list [arcs] is part of the state: the
    loop pops its head and appends at its end.  A normal return gives the
    boolean, the domain store and the list as the loop left it. *)
Fixpoint ac3_loop (cw : Crossword) (fuel : nat) (doms : Domains)
    (arcs : list Arc) : res (bool * Domains * list Arc) :=
  match fuel with
  | 0 => OutOfFuel
  | S fuel' =>
      match arcs with
      | [] => Ok (true, doms, [])
      | (x, y) :: rest =>
          let* (revised, doms') := revise cw x y doms in
          if (revised : bool) then
            let* dx := domains_get doms' x in
            if Nat.eqb (List.length dx) 0 then Ok (false, doms', rest)
            else ac3_loop cw fuel' doms'
                   (rest ++ map (fun z => (z, x)) (neighbors_except cw x y))
          else ac3_loop cw fuel' doms' rest
      end
  end.

(** The number of words in the whole store. *)
Definition domains_size (doms : Domains) : nat :=
  map_fold (fun _ d n => List.length d + n) 0 doms.

(** A number of iterations the loop never exceeds: every iteration pops an
    arc, and arcs are appended, at most one per variable, only after a
    domain lost a word. *)
Definition ac3_fuel (cw : Crossword) (doms : Domains) (arcs : list Arc) : nat :=
  S (List.length arcs + List.length (variables cw) * domains_size doms).

(** [ac3(arcs)]; [arcs = None] is the default argument. *)
Definition ac3 (cw : Crossword) (doms : Domains) (arcs : option (list Arc))
    : res (bool * Domains * list Arc) :=
  let arcs0 := match arcs with
               | None => initial_arcs cw
               | Some l => l
               end in
  ac3_loop cw (ac3_fuel cw doms arcs0) doms arcs0.

(** ** Assignments and the values [backtrack] returns *)

Abbreviation Assignment := (dict Var string).

(** What a call of [backtrack] or [solve] can evaluate to: [None], a string
    or the assignment dictionary. *)
Inductive value : Type :=
  | VNone
  | VStr (s : string)
  | VDict (a : Assignment).

(** [result != "failure"] *)
Definition is_failure (r : value) : bool :=
  match r with
  | VStr s => String.eqb s "failure"
  | _ => false
  end.

(** ** [assignment_complete] and [consistent] *)

Definition assignment_complete (cw : Crossword) (assignment : Assignment) : bool :=
  Nat.eqb (List.length assignment) (List.length (variables cw)).

(** The loop of [consistent] over the neighbours of [variable], whose word
    is [w]: [Ok false] is the [return False], [Ok true] the end of the loop. *)
Fixpoint consistent_neighbours (cw : Crossword) (assignment : Assignment)
    (variable : Var) (w : string) (ns : list Var) : res bool :=
  match ns with
  | [] => Ok true
  | neighbour :: ns' =>
      let* overlap := overlaps_get cw variable neighbour in
      match overlap, dict_get assignment neighbour with
      | Some (o0, o1), Some wn =>
          let* c := str_index w o0 in
          let* cn := str_index wn o1 in
          if ascii_eqb c cn then consistent_neighbours cw assignment variable w ns'
          else Ok false
      | _, _ => consistent_neighbours cw assignment variable w ns'
      end
  end.

Fixpoint consistent_loop (cw : Crossword) (assignment : Assignment)
    (keys : list Var) : res bool :=
  match keys with
  | [] => Ok true
  | variable :: keys' =>
      let* w := get_or_raise (dict_get assignment variable) in
      if negb (Nat.eqb (String.length w) (var_length variable)) then Ok false
      else
        let* ok := consistent_neighbours cw assignment variable w
                     (neighbors cw variable) in
        if ok then consistent_loop cw assignment keys' else Ok false
  end.

Definition consistent (cw : Crossword) (assignment : Assignment) : res bool :=
  consistent_loop cw assignment (dict_keys assignment).

(** ** Stable sorting by a numeric key ([list.sort(key=...)]) *)

Fixpoint insert_keyed {A : Type} (k : nat) (x : A) (l : list (nat * A))
    : list (nat * A) :=
  match l with
  | [] => [(k, x)]
  | (k', y) :: l' =>
      if Nat.leb k k' then (k, x) :: (k', y) :: l'
      else (k', y) :: insert_keyed k x l'
  end.

Definition sort_keyed {A : Type} (l : list (nat * A)) : list A :=
  map snd (fold_right (fun kx acc => insert_keyed (fst kx) (snd kx) acc) [] l).

(** The keys are computed before the sort, and one of them may raise. *)
Fixpoint keyed {A : Type} (key : A -> res nat) (l : list A) : res (list (nat * A)) :=
  match l with
  | [] => Ok []
  | x :: l' =>
      let* k := key x in
      let* r := keyed key l' in
      Ok ((k, x) :: r)
  end.

(** ** [order_domain_values] *)

(** The loop over [self.domains[neighbour]]; [n] is the length of
    [removed_choices] so far. *)
Fixpoint count_removed (value : string) (o0 o1 : nat) (choices : list string)
    (n : nat) : res nat :=
  match choices with
  | [] => Ok n
  | choice :: choices' =>
      if String.eqb choice value then count_removed value o0 o1 choices' (S n)
      else
        let* c := str_index value o0 in
        let* cc := str_index choice o1 in
        if negb (ascii_eqb c cc) then count_removed value o0 o1 choices' (S n)
        else count_removed value o0 o1 choices' n
  end.

Fixpoint removed_choices (cw : Crossword) (doms : Domains)
    (assignment : Assignment) (var : Var) (value : string) (ns : list Var)
    (n : nat) : res nat :=
  match ns with
  | [] => Ok n
  | neighbour :: ns' =>
      if dict_mem neighbour assignment
      then removed_choices cw doms assignment var value ns' n
      else
        let* overlap := overlaps_get cw var neighbour in
        match overlap with
        | None => Raise TypeError
        | Some (o0, o1) =>
            if Nat.ltb (String.length value) (o0 + 1)
            then removed_choices cw doms assignment var value ns' n
            else
              let* dn := domains_get doms neighbour in
              let* n' := count_removed value o0 o1 dn n in
              removed_choices cw doms assignment var value ns' n'
        end
  end.

Definition order_domain_values (cw : Crossword) (doms : Domains) (var : Var)
    (assignment : Assignment) : res (list string) :=
  let* domain := domains_get doms var in
  let* removed_choices_dict :=
    keyed (fun value =>
             removed_choices cw doms assignment var value (neighbors cw var) 0)
          domain in
  Ok (sort_keyed removed_choices_dict).

(** ** [select_unassigned_variable] *)

Definition domain_length (doms : Domains) (v : Var) : res nat :=
  let* d := domains_get doms v in Ok (List.length d).

Fixpoint tied_with (doms : Domains) (min_domain_length : nat) (l : list Var)
    : res (list Var) :=
  match l with
  | [] => Ok []
  | variable :: l' =>
      let* n := domain_length doms variable in
      let* tied := tied_with doms min_domain_length l' in
      Ok (if Nat.eqb n min_domain_length then variable :: tied else tied)
  end.

Definition select_unassigned_variable (cw : Crossword) (doms : Domains)
    (assignment : Assignment) : res (option Var) :=
  let unassigned :=
    List.filter (fun variable => negb (dict_mem variable assignment))
                (variables cw) in
  match unassigned with
  | [v] => Ok (Some v)
  | [] => Ok None
  | _ =>
      let* ks := keyed (domain_length doms) unassigned in
      match sort_keyed ks with
      | u0 :: u1 :: rest =>
          let* min_domain_length := domain_length doms u0 in
          let* n1 := domain_length doms u1 in
          if negb (Nat.eqb n1 min_domain_length) then Ok (Some u0)
          else
            let* tied := tied_with doms min_domain_length (u0 :: u1 :: rest) in
            match sort_keyed
                    (map (fun v => (List.length (neighbors cw v), v)) tied) with
            | t0 :: _ => Ok (Some t0)
            | [] => Raise IndexError
            end
      | _ => Raise IndexError
      end
  end.

(** ** [backtrack] and [solve] *)

(** The [for word in self.domains[variable]] loop; [recurse] is the
    recursive call of [backtrack].  The assignment is threaded as state. *)
Fixpoint backtrack_words (cw : Crossword)
    (recurse : Assignment -> res (value * Assignment))
    (variable : Var) (ws : list string) (assignment : Assignment)
    : res (value * Assignment) :=
  match ws with
  | [] => Ok (VStr "failure", assignment)
  | word :: ws' =>
      let a1 := dict_set assignment variable word in
      let* c := consistent cw a1 in
      if (c : bool) then
        let* (result, a2) := recurse a1 in
        if negb (is_failure result) then Ok (result, a2)
        else
          let* a3 := dict_pop a2 variable in
          backtrack_words cw recurse variable ws' a3
      else
        let* a3 := dict_pop a1 variable in
        backtrack_words cw recurse variable ws' a3
  end.

Fixpoint backtrack_fuel (cw : Crossword) (doms : Domains) (fuel : nat)
    (assignment : Assignment) : res (value * Assignment) :=
  match fuel with
  | 0 => OutOfFuel
  | S fuel' =>
      if assignment_complete cw assignment then Ok (VDict assignment, assignment)
      else
        let* variable := select_unassigned_variable cw doms assignment in
        match variable with
        | None => Raise KeyError
        | Some variable =>
            let* ws := domains_get doms variable in
            backtrack_words cw (backtrack_fuel cw doms fuel') variable ws assignment
        end
  end.

(** The recursion is at most one level deeper than there are variables. *)
Definition backtrack (cw : Crossword) (doms : Domains) (assignment : Assignment)
    : res (value * Assignment) :=
  backtrack_fuel cw doms (S (List.length (variables cw))) assignment.

(** [solve], from the store [doms]; the result of [ac3] is dropped. *)
Definition solve (cw : Crossword) (doms : Domains) : res value :=
  let doms1 := enforce_node_consistency doms in
  let* r := ac3 cw doms1 None in
  let* (result, _) := backtrack cw (snd (fst r)) [] in
  Ok result.

(** The end of [main]: [None] is reported as "No solution." ([Ok None]),
    anything else is handed to [print], whose [letter_grid] calls [items] on
    it. *)
Definition report (assignment : value) : res (option Assignment) :=
  match assignment with
  | VNone => Ok None
  | VDict a => Ok (Some a)
  | VStr _ => Raise AttributeError
  end.

(** [main] after the command line is read: [cw] is the crossword built from
    the two files. *)
Definition main (cw : Crossword) : res (option Assignment) :=
  let doms := enforce_node_consistency (init_domains cw) in
  let* v0 := match variables cw with
             | v :: _ => Ok v
             | [] => Raise IndexError
             end in
  let* _ := order_domain_values cw doms v0 [] in
  let* assignment := solve cw doms in
  report assignment.

(** ** Specification-side notions

    [compatible] is the test of [revise] between a word of [x] and a word of
    [y]; a word of [x] is [supported] when some word of [y] passes it. *)

Definition compatible (ix iy : nat) (X Y : string) : bool :=
  match String.get ix X, String.get iy Y with
  | Some a, Some b => ascii_eqb a b && negb (String.eqb X Y)
  | _, _ => false
  end.

Definition supported (ix iy : nat) (dy : list string) (X : string) : bool :=
  existsb (compatible ix iy X) dy.

Definition long_enough (k : nat) (d : list string) : Prop :=
  Forall (fun w => k < String.length w) d.

(** The words of [dx] that the loop over [Xs] keeps. *)
Definition kept (ix iy : nat) (dy Xs : list string) (w : string) : bool :=
  negb (existsb (fun X => String.eqb w X && negb (supported ix iy dy X)) Xs).

(** *** The worklist of [ac3]

    [fifo_run cw doms arcs (b, doms', rest)]: the loop of [ac3], as a
    relation: started on the arcs [arcs] and the store [doms] it ends with
    the answer [b], the store [doms'] and the list [rest].  The arcs are
    appended in the order of [neighbors_except]. *)
Inductive fifo_run (cw : Crossword)
    : Domains -> list Arc -> bool * Domains * list Arc -> Prop :=
  | run_drained doms :
      fifo_run cw doms [] (true, doms, [])
  | run_unrevised doms doms' x y rest r :
      revise cw x y doms = Ok (false, doms') ->
      fifo_run cw doms' rest r ->
      fifo_run cw doms ((x, y) :: rest) r
  | run_emptied doms doms' x y rest :
      revise cw x y doms = Ok (true, doms') ->
      doms' !! x = Some [] ->
      fifo_run cw doms ((x, y) :: rest) (false, doms', rest)
  | run_requeue doms doms' x y rest dx r :
      revise cw x y doms = Ok (true, doms') ->
      doms' !! x = Some dx -> dx <> [] ->
      fifo_run cw doms' (rest ++ map (fun z => (z, x)) (neighbors_except cw x y)) r ->
      fifo_run cw doms ((x, y) :: rest) r.

(** From the words of the specification: after a revision of [(x, y)] an
    arc [(z, x)] is pushed for every neighbour [z] of [x] other than [y].
    [requeued cw x y zs]: the variables [zs] are the variables [z] of the
    crossword, other than [y], for which [overlaps[(x, z)]] is defined, each
    one once; their order is left open, as the order of the iteration of a
    set is. *)
Definition requeued (cw : Crossword) (x y : Var) (zs : list Var) : Prop :=
  (forall z, In z zs <->
     In z (variables cw) /\ z <> y /\
     exists i j, dict_get (overlaps cw) (x, z) = Some (Some (i, j))) /\
  (List.NoDup (variables cw) -> List.NoDup zs).

(** From the words of the specification: the worklist is a first-in
    first-out queue.  [worklist_run cw doms arcs (b, doms', rest)]: the arc
    at the front is popped and revised; a revision that emptied the domain
    of [x] ends the run with the answer false; after another revision the
    arcs [(z, x)], [z] a neighbour of [x] other than [y], are pushed at the
    back; the run ends with the answer true when the queue is drained. *)
Inductive worklist_run (cw : Crossword)
    : Domains -> list Arc -> bool * Domains * list Arc -> Prop :=
  | worklist_drained doms :
      worklist_run cw doms [] (true, doms, [])
  | worklist_unrevised doms doms' x y rest r :
      revise cw x y doms = Ok (false, doms') ->
      worklist_run cw doms' rest r ->
      worklist_run cw doms ((x, y) :: rest) r
  | worklist_emptied doms doms' x y rest :
      revise cw x y doms = Ok (true, doms') ->
      doms' !! x = Some [] ->
      worklist_run cw doms ((x, y) :: rest) (false, doms', rest)
  | worklist_requeue doms doms' x y rest zs dx r :
      revise cw x y doms = Ok (true, doms') ->
      doms' !! x = Some dx -> dx <> [] ->
      requeued cw x y zs ->
      worklist_run cw doms' (rest ++ map (fun z => (z, x)) zs) r ->
      worklist_run cw doms ((x, y) :: rest) r.

(** [consumed cw doms processed doms' pushed]: the arcs [processed] were
    popped one after the other, each one revised in the store that its
    predecessors left, from [doms] to [doms']; no revision emptied a domain;
    [pushed] are the arcs appended on the way, in the order in which they
    were appended. *)
Inductive consumed (cw : Crossword)
    : Domains -> list Arc -> Domains -> list Arc -> Prop :=
  | consumed_none doms :
      consumed cw doms [] doms []
  | consumed_unrevised doms doms1 doms' x y processed pushed :
      revise cw x y doms = Ok (false, doms1) ->
      consumed cw doms1 processed doms' pushed ->
      consumed cw doms ((x, y) :: processed) doms' pushed
  | consumed_revised doms doms1 doms' x y zs dx processed pushed :
      revise cw x y doms = Ok (true, doms1) ->
      doms1 !! x = Some dx -> dx <> [] ->
      requeued cw x y zs ->
      consumed cw doms1 processed doms' pushed ->
      consumed cw doms ((x, y) :: processed) doms'
               (map (fun z => (z, x)) zs ++ pushed).

(** [doms'] is [doms] with the domain of [x] replaced by a part of it that
    is at least [k] words shorter. *)
Definition shrinks_at (x : Var) (k : nat) (doms doms' : Domains) : Prop :=
  exists dx dx', doms !! x = Some dx /\ doms' = <[x := dx']> doms /\
                 incl dx' dx /\ List.length dx' + k <= List.length dx.

(** Membership in a set of variables, as a boolean. *)
Definition inb (x : Var) (l : list Var) : bool :=
  if in_dec Var_eq_dec x l then true else false.

(** *** Well-formed crosswords and node-consistent stores *)

(** Every defined overlap relates two distinct variables of the crossword,
    at indices inside their words, and is mirrored by the reverse pair. *)
Definition well_formed (cw : Crossword) : bool :=
  forallb (fun kv : Arc * option (nat * nat) =>
    match kv with
    | ((x, y), Some (i, j)) =>
        negb (bool_decide (x = y)) && inb x (variables cw) && inb y (variables cw)
        && Nat.ltb i (var_length x) && Nat.ltb j (var_length y)
        && bool_decide (dict_get (overlaps cw) (y, x) = Some (Some (j, i)))
    | (_, None) => true
    end) (overlaps cw).

(** Every variable has a domain, of words of its length. *)
Definition node_consistent (cw : Crossword) (doms : Domains) : bool :=
  forallb (fun v =>
    match doms !! v with
    | Some d => forallb (fun w => Nat.eqb (String.length w) (var_length v)) d
    | None => false
    end) (variables cw).

Definition WF (cw : Crossword) : Prop :=
  forall x y i j, dict_get (overlaps cw) (x, y) = Some (Some (i, j)) ->
    x <> y /\ In x (variables cw) /\ In y (variables cw) /\
    i < var_length x /\ j < var_length y /\
    dict_get (overlaps cw) (y, x) = Some (Some (j, i)).

Definition NC (cw : Crossword) (doms : Domains) : Prop :=
  forall v, In v (variables cw) ->
    exists d, doms !! v = Some d /\
              Forall (fun w => String.length w = var_length v) d.

Definition valid_arcs (cw : Crossword) (arcs : list Arc) : Prop :=
  Forall (fun a => has_overlap cw (fst a) (snd a) = true) arcs.

Definition arc_consistent (cw : Crossword) (doms : Domains) (x y : Var) : Prop :=
  forall i j dx dy,
    dict_get (overlaps cw) (x, y) = Some (Some (i, j)) ->
    doms !! x = Some dx -> doms !! y = Some dy ->
    forallb (supported i j dy) dx = true.

(** The invariant of the worklist: an arc that is not waiting is consistent. *)
Definition Inv (cw : Crossword) (doms : Domains) (arcs : list Arc) : Prop :=
  forall x y, has_overlap cw x y = true ->
    In (x, y) arcs \/ arc_consistent cw doms x y.

(** Every domain of [doms'] is a part of the domain of [doms]. *)
Definition domains_le (doms' doms : Domains) : Prop :=
  forall v d', doms' !! v = Some d' ->
    exists d, doms !! v = Some d /\ incl d' d.

(** [unassigned] of [select_unassigned_variable]. *)
Definition unassigned (cw : Crossword) (assignment : Assignment) : list Var :=
  List.filter (fun variable => negb (dict_mem variable assignment)) (variables cw).

(** *** Assignments *)

(** What [consistent] checks of the word [w] assigned to [v]: its length,
    and the letter it shares with every assigned neighbour. *)
Definition fits (cw : Crossword) (assignment : Assignment) (v : Var)
    (w : string) : Prop :=
  String.length w = var_length v /\
  forall n i j wn,
    In n (neighbors cw v) ->
    dict_get (overlaps cw) (v, n) = Some (Some (i, j)) ->
    dict_get assignment n = Some wn ->
    exists c, String.get i w = Some c /\ String.get j wn = Some c.

(** The assignments [backtrack] works on: no variable twice, and only
    variables of the crossword. *)
Definition proper (cw : Crossword) (a : Assignment) : Prop :=
  NoDup (dict_keys a) /\ incl (dict_keys a) (variables cw).

(** What [backtrack] called on [a] promises of the assignment [r] it
    returns. *)
Definition success (cw : Crossword) (a r : Assignment) : Prop :=
  assignment_complete cw r = true /\
  (r = a \/ consistent cw r = Ok true) /\
  (proper cw a -> proper cw r).

(** ** Example crosswords *)

(** Two separate two-letter slots and a vocabulary of one word. *)
Definition slot_a : Var := mkVar 0 0 ACROSS 2.
Definition slot_b : Var := mkVar 2 0 ACROSS 2.
Definition cw_separate : Crossword :=
  mkCrossword [slot_a; slot_b]
    [((slot_a, slot_b), None); ((slot_b, slot_a), None)]
    ["AB"].

(** One two-letter slot and no word of two letters. *)
Definition cw_no_fit : Crossword := mkCrossword [slot_a] [] ["ABC"].

(** A three-letter slot across, crossed at its two ends by two slots down. *)
Definition slot_top : Var := mkVar 0 0 ACROSS 3.
Definition slot_left : Var := mkVar 0 0 DOWN 3.
Definition slot_right : Var := mkVar 0 2 DOWN 3.
Definition cw_comb (vs : list Var) : Crossword :=
  mkCrossword vs
    [((slot_top, slot_left), Some (0, 0));
     ((slot_top, slot_right), Some (2, 0));
     ((slot_left, slot_top), Some (0, 0));
     ((slot_left, slot_right), None);
     ((slot_right, slot_top), Some (0, 2));
     ((slot_right, slot_left), None)]
    ["ABA"; "ACA"].

Definition cw_comb3 : Crossword := cw_comb [slot_top; slot_left; slot_right].

(** A two-letter slot across and a three-letter slot down sharing their
    first cell. *)
Definition slot_short : Var := mkVar 0 0 ACROSS 2.
Definition slot_long : Var := mkVar 0 0 DOWN 3.
Definition cw_corner : Crossword :=
  mkCrossword [slot_short; slot_long]
    [((slot_short, slot_long), Some (0, 0));
     ((slot_long, slot_short), Some (0, 0))]
    ["AB"; "CD"; "CEX"; "CFX"; "AGX"].

(** The scenario of the specification: X across at (0,0), Y down at (0,2),
    the third letter of X being the first of Y. *)
Definition var_x : Var := mkVar 0 0 ACROSS 3.
Definition var_y : Var := mkVar 0 2 DOWN 3.
Definition cw_cat : Crossword :=
  mkCrossword [var_x; var_y]
    [((var_x, var_y), Some (2, 0)); ((var_y, var_x), Some (0, 2))]
    ["CAT"; "DOG"; "TAN"].

(** A store for [cw_cat] in which no pair of words fits. *)
Definition doms_stuck : Domains :=
  list_to_map [(var_x, ["DOG"; "TAN"]); (var_y, ["CAT"; "DOG"])].

(** The store [solve] starts the search of [cw_cat] from. *)
Definition doms_cat : Domains := enforce_node_consistency (init_domains cw_cat).

(** A store for [cw_comb] with the same single word on both sides of an
    arc. *)
Definition store_same : Domains :=
  list_to_map [(slot_top, ["ABA"]); (slot_left, ["ABA"])].

(** A store for [cw_comb] in which the revision of the arc from [slot_top]
    to [slot_left] removes a word and leaves one. *)
Definition doms_push : Domains :=
  list_to_map [(slot_top, ["ABA"; "BCB"]); (slot_left, ["ACA"]);
               (slot_right, ["ADA"])].

(** The orders in which the three variables of [cw_comb] can come. *)
Definition orders_comb : list (list Var) :=
  [[slot_top; slot_left; slot_right]; [slot_top; slot_right; slot_left];
   [slot_left; slot_top; slot_right]; [slot_left; slot_right; slot_top];
   [slot_right; slot_top; slot_left]; [slot_right; slot_left; slot_top]].


(** *** Solutions *)

(** [sigma] picks for every variable a word of its domain, and the words of
    the two ends of every arc pass the test of [revise]: they differ and
    their letters agree at the overlap. *)
Definition arc_solution (cw : Crossword) (doms : Domains) (sigma : Var -> string)
    : Prop :=
  (forall v, In v (variables cw) ->
     exists d, doms !! v = Some d /\ In (sigma v) d) /\
  (forall x y i j, dict_get (overlaps cw) (x, y) = Some (Some (i, j)) ->
     compatible i j (sigma x) (sigma y) = true).

(** The solution of [cw_cat]: CAT across, TAN down. *)
Definition sigma_cat (v : Var) : string :=
  if bool_decide (v = var_x) then "CAT" else "TAN".

(** *** Sorting *)

(** The keyed list that [sort_keyed] projects. *)
Definition sorted_pairs {A : Type} (l : list (nat * A)) : list (nat * A) :=
  fold_right (fun kx acc => insert_keyed (fst kx) (snd kx) acc) [] l.

(** Keys in non-decreasing order. *)
Definition ascending {A : Type} (l : list (nat * A)) : Prop :=
  StronglySorted (fun a b => fst a <= fst b) l.

(** *** Solutions of the search *)

(** [sigma] picks for every variable a word of its domain, of the length of
    the variable, and the words of two overlapping variables have the same
    letter at the overlap: what [consistent] asks of a complete
    assignment. *)
Definition search_solution (cw : Crossword) (doms : Domains)
    (sigma : Var -> string) : Prop :=
  (forall v, In v (variables cw) ->
     (exists d, doms !! v = Some d /\ In (sigma v) d) /\
     String.length (sigma v) = var_length v) /\
  (forall x y i j,
     In x (variables cw) -> In y (variables cw) ->
     dict_get (overlaps cw) (x, y) = Some (Some (i, j)) ->
     exists c, String.get i (sigma x) = Some c /\ String.get j (sigma y) = Some c).

(** The assignment binds variables of the crossword only, each to the word
    [sigma] picks for it. *)
Definition agrees (cw : Crossword) (a : Assignment) (sigma : Var -> string)
    : Prop :=
  forall v w, dict_get a v = Some w -> In v (variables cw) /\ w = sigma v.

(** Every word of the assignment has the length of its variable. *)
Definition well_sized (a : Assignment) : Prop :=
  forall v w, dict_get a v = Some w -> String.length w = var_length v.

(** [r] is [a] followed by bindings of words taken from the domains. *)
Definition extends (doms : Domains) (a r : Assignment) : Prop :=
  exists more, r = a ++ more /\
    forall v w, In (v, w) more -> exists d, doms !! v = Some d /\ In w d.

(** ** [letter_grid] *)

(** The two-dimensional array of [letter_grid]: rows of cells, a cell being
    [None] or a letter. *)
Abbreviation Grid := (list (list (option ascii))).

(** [letters[i][j] = c]: [IndexError] when the row or the column is out of
    range. *)
Definition grid_set (letters : Grid) (i j : nat) (c : ascii) : res Grid :=
  match letters !! i with
  | None => Raise IndexError
  | Some row =>
      if Nat.ltb j (List.length row)
      then Ok (<[i := <[j := Some c]> row]> letters)
      else Raise IndexError
  end.

(** The cell of the [k]-th letter of the word of [variable]. *)
Definition cell_i (variable : Var) (k : nat) : nat :=
  var_i variable + match var_direction variable with DOWN => k | ACROSS => 0 end.

Definition cell_j (variable : Var) (k : nat) : nat :=
  var_j variable + match var_direction variable with ACROSS => k | DOWN => 0 end.

(** The loop [for k in range(len(word))], from index [k] on; [cs] are the
    letters [word[k:]]. *)
Fixpoint letter_grid_word (variable : Var) (cs : list ascii) (k : nat)
    (letters : Grid) : res Grid :=
  match cs with
  | [] => Ok letters
  | c :: cs' =>
      let* letters' := grid_set letters (cell_i variable k) (cell_j variable k) c in
      letter_grid_word variable cs' (S k) letters'
  end.

(** The loop over [assignment.items()]. *)
Fixpoint letter_grid_loop (items : list (Var * string)) (letters : Grid)
    : res Grid :=
  match items with
  | [] => Ok letters
  | (variable, word) :: items' =>
      let* letters' :=
        letter_grid_word variable (list_ascii_of_string word) 0 letters in
      letter_grid_loop items' letters'
  end.

(** [letter_grid(assignment)] for a crossword of the given [height] and
    [width], the two fields of [self.crossword] that it reads. *)
Definition letter_grid (height width : nat) (assignment : Assignment)
    : res Grid :=
  letter_grid_loop assignment (repeat (repeat None width) height).

(** The content of a cell of the grid, if the grid has this cell. *)
Definition cell (letters : Grid) (i j : nat) : option (option ascii) :=
  match letters !! i with
  | Some row => row !! j
  | None => None
  end.

(** The writes [letters[i][j] = c] that [letter_grid] performs, in order. *)
Fixpoint writes_word (variable : Var) (cs : list ascii) (k : nat)
    : list (nat * nat * ascii) :=
  match cs with
  | [] => []
  | c :: cs' => (cell_i variable k, cell_j variable k, c) :: writes_word variable cs' (S k)
  end.

Definition writes (assignment : Assignment) : list (nat * nat * ascii) :=
  flat_map (fun vw => writes_word (fst vw) (list_ascii_of_string (snd vw)) 0)
           assignment.

Fixpoint apply_writes (ws : list (nat * nat * ascii)) (letters : Grid)
    : res Grid :=
  match ws with
  | [] => Ok letters
  | (i, j, c) :: ws' =>
      let* letters' := grid_set letters i j c in apply_writes ws' letters'
  end.

(** A grid of [h] rows of [w] cells. *)
Definition shaped (h w : nat) (letters : Grid) : Prop :=
  List.length letters = h /\ Forall (fun row => List.length row = w) letters.

(** * Properties *)

(** ** Outcomes *)

Lemma bind_Ok {A B} (m : res A) (f : A -> res B) (b : B) :
  bind m f = Ok b <-> exists a, m = Ok a /\ f a = Ok b.
Proof.
  destruct m; simpl; split.
  - eauto.
  - intros (a' & Ha & Hf). congruence.
  - discriminate.
  - intros (a' & Ha & _). discriminate.
  - discriminate.
  - intros (a' & Ha & _). discriminate.
Qed.

(** [bind_inv H as a Ha]: from [H : bind m f = Ok b], the value [a] of [m]
    with [Ha : m = Ok a], and [H : f a = Ok b]. *)
Tactic Notation "bind_inv" hyp(H) "as" simple_intropattern(a) simple_intropattern(Ha) :=
  apply bind_Ok in H as (a & Ha & H).

(** ** [revise] on words that are long enough *)

Lemma string_get_lt (s : string) (k : nat) :
  k < String.length s -> exists c, String.get k s = Some c.
Proof.
  revert k. induction s as [|a s IH]; intros k Hk; simpl in *.
  - lia.
  - destruct k as [|k]; [eauto|]. apply IH. lia.
Qed.

Lemma str_index_lt (s : string) (k : nat) :
  k < String.length s -> exists c, String.get k s = Some c /\ str_index s k = Ok c.
Proof.
  intros Hk. destruct (string_get_lt s k Hk) as [c Hc].
  exists c. split; [exact Hc|]. unfold str_index. now rewrite Hc.
Qed.

Lemma revise_scan_ok ix iy X Ys b :
  ix < String.length X -> long_enough iy Ys ->
  revise_scan ix iy X Ys b = Ok (b || supported ix iy Ys X).
Proof.
  intros HX HYs. revert b.
  induction HYs as [|Y Ys HY HYs IH]; intros b; simpl.
  - now rewrite orb_false_r.
  - destruct (str_index_lt X ix HX) as (cx & Hgx & ->).
    destruct (str_index_lt Y iy HY) as (cy & Hgy & ->). simpl.
    rewrite IH. f_equal. unfold supported, compatible at 2. simpl.
    rewrite Hgx, Hgy.
    destruct (ascii_eqb cx cy && negb (X =? Y)%string); simpl.
    + now rewrite orb_true_r.
    + reflexivity.
Qed.

Lemma filter_filter_and {A} (f g : A -> bool) (l : list A) :
  List.filter f (List.filter g l) = List.filter (fun a => g a && f a) l.
Proof.
  induction l as [|a l IH]; simpl; [reflexivity|].
  destruct (g a); simpl; [destruct (f a)|]; now rewrite IH.
Qed.

Lemma revise_loop_ok ix iy (x y : Var) (dy : list string) Xs :
  x <> y -> long_enough ix Xs -> long_enough iy dy ->
  forall (doms : Domains) dx revised,
    doms !! x = Some dx -> doms !! y = Some dy ->
    revise_loop ix iy x y Xs doms revised =
      Ok (revised || existsb (fun X => negb (supported ix iy dy X)) Xs,
          <[x := List.filter (kept ix iy dy Xs) dx]> doms).
Proof.
  intros Hxy HXs Hdy.
  induction HXs as [|X Xs HX HXs IH]; intros doms dx revised Hx Hy; simpl.
  - rewrite orb_false_r. unfold kept. simpl. rewrite filter_true.
    now rewrite insert_id.
  - unfold domains_get at 1. rewrite Hy. simpl.
    rewrite (revise_scan_ok ix iy X dy false HX Hdy). simpl.
    destruct (supported ix iy dy X) eqn:Hs; simpl.
    + rewrite (IH doms dx revised Hx Hy). f_equal. f_equal. f_equal.
      apply filter_ext. intros w. unfold kept. simpl.
      now rewrite Hs, andb_false_r.
    + unfold domains_get. rewrite Hx. simpl.
      rewrite (IH (<[x := set_remove X dx]> doms) (set_remove X dx) true).
      * rewrite insert_insert_eq, orb_true_r. f_equal. f_equal. f_equal.
        unfold set_remove. rewrite filter_filter_and.
        apply filter_ext. intros w. unfold kept. simpl.
        rewrite Hs, andb_true_r. now rewrite negb_orb.
      * apply lookup_insert_eq.
      * rewrite lookup_insert_ne; auto.
Qed.

Lemma kept_self ix iy dy dx w :
  In w dx -> kept ix iy dy dx w = supported ix iy dy w.
Proof.
  intros Hw. unfold kept.
  destruct (supported ix iy dy w) eqn:Hs.
  - apply negb_true_iff. apply not_true_is_false. intros He.
    apply existsb_exists in He as (X & _ & HX).
    apply andb_true_iff in HX as [Heq Hn].
    apply String.eqb_eq in Heq. subst X. rewrite Hs in Hn. discriminate.
  - apply negb_false_iff. apply existsb_exists. exists w. split; [exact Hw|].
    rewrite String.eqb_refl, Hs. reflexivity.
Qed.

Lemma revise_Some cw (x y : Var) (doms : Domains) ix iy dx dy :
  dict_get (overlaps cw) (x, y) = Some (Some (ix, iy)) ->
  x <> y -> doms !! x = Some dx -> doms !! y = Some dy ->
  long_enough ix dx -> long_enough iy dy ->
  revise cw x y doms =
    Ok (negb (forallb (supported ix iy dy) dx),
        <[x := List.filter (supported ix iy dy) dx]> doms).
Proof.
  intros Hov Hxy Hx Hy Hlx Hly. unfold revise, overlaps_get.
  rewrite Hov. simpl. unfold domains_get. rewrite Hx. simpl.
  rewrite (revise_loop_ok ix iy x y dy dx Hxy Hlx Hly doms dx false Hx Hy).
  simpl. f_equal. f_equal.
  - clear. induction dx as [|X dx IH]; simpl; [reflexivity|].
    rewrite IH. now destruct (supported ix iy dy X).
  - f_equal. apply filter_ext_in. intros w Hw. now apply kept_self.
Qed.

Lemma revise_None cw (x y : Var) (doms : Domains) :
  dict_get (overlaps cw) (x, y) = Some None ->
  revise cw x y doms = Ok (false, doms).
Proof. intros Hov. unfold revise, overlaps_get. now rewrite Hov. Qed.

Lemma compatible_spec ix iy X Y :
  ix < String.length X -> iy < String.length Y ->
  compatible ix iy X Y = true <-> X <> Y /\ String.get ix X = String.get iy Y.
Proof.
  intros HX HY. unfold compatible.
  destruct (string_get_lt X ix HX) as [a ->].
  destruct (string_get_lt Y iy HY) as [b ->].
  rewrite andb_true_iff, negb_true_iff. unfold ascii_eqb.
  rewrite Ascii.eqb_eq, String.eqb_neq. split.
  - intros [-> Hn]. auto.
  - intros [Hn Heq]. split; congruence.
Qed.

Lemma forallb_false_ex {A} (f : A -> bool) (l : list A) :
  forallb f l = false -> exists a, In a l /\ f a = false.
Proof.
  induction l as [|a l IH]; simpl; [discriminate|].
  destruct (f a) eqn:Hf; simpl.
  - intros H. destruct (IH H) as (b & Hb & Hfb). eauto.
  - intros _. eauto.
Qed.


(** ** Functions without a loop on fuel never run out of it *)

Lemma bind_not_out {A B} (m : res A) (f : A -> res B) :
  m <> OutOfFuel -> (forall a, m = Ok a -> f a <> OutOfFuel) ->
  bind m f <> OutOfFuel.
Proof. destruct m; simpl; intros Hm Hf; [now apply Hf | discriminate | contradiction]. Qed.

Lemma get_or_raise_not_out {A} (o : option A) : get_or_raise o <> OutOfFuel.
Proof. now destruct o. Qed.

Lemma str_index_not_out s k : str_index s k <> OutOfFuel.
Proof. unfold str_index. now destruct (String.get k s). Qed.

Lemma revise_scan_not_out ix iy X Ys b : revise_scan ix iy X Ys b <> OutOfFuel.
Proof.
  revert b. induction Ys as [|Y Ys IH]; intros b; simpl; [discriminate|].
  apply bind_not_out; [apply str_index_not_out|]. intros cx _.
  apply bind_not_out; [apply str_index_not_out|]. intros cy _. apply IH.
Qed.

Lemma revise_loop_not_out ix iy x y Xs (doms : Domains) b :
  revise_loop ix iy x y Xs doms b <> OutOfFuel.
Proof.
  revert doms b. induction Xs as [|X Xs IH]; intros doms b; simpl; [discriminate|].
  apply bind_not_out; [apply get_or_raise_not_out|]. intros dy _.
  apply bind_not_out; [apply revise_scan_not_out|]. intros [] _; [apply IH|].
  apply bind_not_out; [apply get_or_raise_not_out|]. intros dx _. apply IH.
Qed.

Lemma revise_not_out cw x y (doms : Domains) : revise cw x y doms <> OutOfFuel.
Proof.
  unfold revise. apply bind_not_out; [apply get_or_raise_not_out|].
  intros [[ix iy]|] _; [|discriminate].
  apply bind_not_out; [apply get_or_raise_not_out|]. intros dx _.
  apply revise_loop_not_out.
Qed.

(** ** A revision shrinks the domain of [x] and nothing else *)

Lemma domains_get_Ok (doms : Domains) x d :
  domains_get doms x = Ok d <-> doms !! x = Some d.
Proof.
  unfold domains_get, get_or_raise. destruct (doms !! x); split; congruence.
Qed.

Lemma set_remove_incl w d : incl (set_remove w d) d.
Proof. intros a Ha. apply filter_In in Ha. tauto. Qed.

Lemma filter_length_le' {A} (f : A -> bool) l :
  List.length (List.filter f l) <= List.length l.
Proof. induction l as [|a l IH]; simpl; [lia|]. destruct (f a); simpl; lia. Qed.

Lemma filter_length_lt {A} (f : A -> bool) l a :
  In a l -> f a = false -> List.length (List.filter f l) < List.length l.
Proof.
  induction l as [|b l IH]; simpl; [tauto|]. intros [->|Hin] Hf.
  - rewrite Hf. pose proof (filter_length_le' f l). lia.
  - specialize (IH Hin Hf). destruct (f b); simpl; lia.
Qed.

Lemma set_remove_length_le w d : List.length (set_remove w d) <= List.length d.
Proof. apply filter_length_le'. Qed.

Lemma set_remove_length_lt w d :
  In w d -> List.length (set_remove w d) < List.length d.
Proof.
  intros Hin. apply (filter_length_lt _ d w Hin).
  now rewrite String.eqb_refl.
Qed.

Lemma shrinks_at_trans x k1 k2 (d0 d1 d2 : Domains) :
  shrinks_at x k1 d0 d1 -> shrinks_at x k2 d1 d2 -> shrinks_at x (k1 + k2) d0 d2.
Proof.
  intros (a & a' & Ha & -> & Hi & Hl) (b & b' & Hb & -> & Hi' & Hl').
  rewrite lookup_insert_eq in Hb. injection Hb as <-.
  exists a, b'. rewrite insert_insert_eq. repeat split; auto.
  - intros w Hw. auto.
  - lia.
Qed.

Lemma shrinks_at_weaken x k k' (d0 d1 : Domains) :
  k' <= k -> shrinks_at x k d0 d1 -> shrinks_at x k' d0 d1.
Proof.
  intros Hk (a & a' & Ha & -> & Hi & Hl). exists a, a'. repeat split; auto. lia.
Qed.

Lemma revise_loop_shrinks ix iy x y Xs :
  forall (doms doms' : Domains) revised r,
    revise_loop ix iy x y Xs doms revised = Ok (r, doms') ->
    (doms' = doms /\ r = revised) \/ (shrinks_at x 0 doms doms' /\ r = true).
Proof.
  induction Xs as [|X Xs IH]; intros doms doms' revised r H; simpl in H.
  - injection H as <- <-. now left.
  - bind_inv H as dy _.
    bind_inv H as found _.
    destruct found; [now apply IH in H|].
    bind_inv H as dx Hdx. apply domains_get_Ok in Hdx.
    right.
    assert (Hs : shrinks_at x 0 doms (<[x := set_remove X dx]> doms)).
    { exists dx, (set_remove X dx). repeat split; auto using set_remove_incl.
      pose proof (set_remove_length_le X dx). lia. }
    apply IH in H as [[-> ->]|[H ->]]; [now split|].
    split; [|reflexivity]. exact (shrinks_at_trans x 0 0 _ _ _ Hs H).
Qed.

Lemma revise_loop_strict ix iy x y Xs :
  forall (doms doms' : Domains) dx r,
    doms !! x = Some dx -> incl Xs dx ->
    revise_loop ix iy x y Xs doms false = Ok (r, doms') ->
    (doms' = doms /\ r = false) \/ (shrinks_at x 1 doms doms' /\ r = true).
Proof.
  induction Xs as [|X Xs IH]; intros doms doms' dx r Hx Hincl H; simpl in H.
  - injection H as <- <-. now left.
  - bind_inv H as dy _.
    bind_inv H as found _.
    assert (Hincl' : incl Xs dx) by (intros w Hw; apply Hincl; now right).
    destruct found; [now apply (IH _ _ dx) in H|].
    bind_inv H as dx0 Hdx. apply domains_get_Ok in Hdx.
    assert (dx0 = dx) by congruence. subst dx0.
    right.
    assert (Hs : shrinks_at x 1 doms (<[x := set_remove X dx]> doms)).
    { exists dx, (set_remove X dx). repeat split; auto using set_remove_incl.
      assert (HX : In X dx) by (apply Hincl; now left).
      pose proof (set_remove_length_lt X dx HX). lia. }
    apply revise_loop_shrinks in H as [[-> ->]|[H ->]]; [now split|].
    split; [|reflexivity]. exact (shrinks_at_trans x 1 0 _ _ _ Hs H).
Qed.

Lemma revise_shrinks cw x y (doms doms' : Domains) r :
  revise cw x y doms = Ok (r, doms') ->
  (doms' = doms /\ r = false) \/ (shrinks_at x 1 doms doms' /\ r = true).
Proof.
  unfold revise. intros H.
  bind_inv H as ov _.
  destruct ov as [[ix iy]|]; [|injection H as <- <-; now left].
  bind_inv H as dx Hdx. apply domains_get_Ok in Hdx.
  apply (revise_loop_strict _ _ _ _ _ _ _ dx) in H; auto. apply incl_refl.
Qed.

(** ** The loop of [ac3] ends *)

Lemma domains_size_delete (doms : Domains) x dx :
  doms !! x = Some dx ->
  domains_size doms = List.length dx + domains_size (delete x doms).
Proof.
  intros Hx. unfold domains_size.
  apply (map_fold_delete_L (fun _ (d : list string) n => List.length d + n)); [|exact Hx].
  intros. lia.
Qed.

Lemma domains_size_insert (doms : Domains) x dx dx' :
  doms !! x = Some dx ->
  domains_size (<[x := dx']> doms) + List.length dx =
  domains_size doms + List.length dx'.
Proof.
  intros Hx. rewrite (domains_size_delete doms x dx Hx).
  rewrite <- (insert_delete_eq doms x dx').
  unfold domains_size at 1.
  rewrite (map_fold_insert_L (fun _ (d : list string) n => List.length d + n)).
  - fold (domains_size (delete x doms)). lia.
  - intros. lia.
  - apply lookup_delete_eq.
Qed.

Lemma shrinks_at_size x k (doms doms' : Domains) :
  shrinks_at x k doms doms' -> domains_size doms' + k <= domains_size doms.
Proof.
  intros (dx & dx' & Hx & -> & _ & Hl).
  pose proof (domains_size_insert doms x dx dx' Hx). lia.
Qed.

Lemma neighbors_except_length cw x y :
  List.length (neighbors_except cw x y) <= List.length (variables cw).
Proof.
  unfold neighbors_except, neighbors.
  etransitivity; apply filter_length_le'.
Qed.

Lemma ac3_loop_fuel_enough cw fuel :
  forall (doms : Domains) arcs,
    List.length arcs + List.length (variables cw) * domains_size doms < fuel ->
    ac3_loop cw fuel doms arcs <> OutOfFuel.
Proof.
  induction fuel as [|fuel IH]; intros doms arcs Hfuel; [lia|].
  simpl. destruct arcs as [|[x y] rest]; [discriminate|].
  apply bind_not_out; [apply revise_not_out|].
  intros [revised doms'] Hrev. simpl in Hfuel.
  apply revise_shrinks in Hrev as [[-> ->]|[Hs ->]].
  - apply IH. lia.
  - apply bind_not_out; [apply get_or_raise_not_out|]. intros dx _.
    destruct (Nat.eqb (List.length dx) 0); [discriminate|].
    apply IH. apply shrinks_at_size in Hs.
    rewrite length_app, length_map.
    pose proof (neighbors_except_length cw x y). nia.
Qed.

Lemma ac3_not_out cw (doms : Domains) arcs : ac3 cw doms arcs <> OutOfFuel.
Proof. unfold ac3, ac3_fuel. apply ac3_loop_fuel_enough. lia. Qed.

Lemma ac3_loop_more_fuel cw fuel :
  forall (doms : Domains) arcs fuel',
    ac3_loop cw fuel doms arcs <> OutOfFuel -> fuel <= fuel' ->
    ac3_loop cw fuel' doms arcs = ac3_loop cw fuel doms arcs.
Proof.
  induction fuel as [|fuel IH]; intros doms arcs fuel' Hr Hle; [now elim Hr|].
  destruct fuel' as [|fuel']; [lia|]. simpl in *.
  destruct arcs as [|[x y] rest]; [reflexivity|].
  destruct (revise cw x y doms) as [[revised doms']| |]; simpl in *; try reflexivity.
  destruct revised.
  - destruct (domains_get doms' x) as [dx| |]; simpl in *; try reflexivity.
    destruct (Nat.eqb (List.length dx) 0); [reflexivity|]. apply IH; [exact Hr|lia].
  - apply IH; [exact Hr|lia].
Qed.

(** ** [ac3] and the worklist runs of the specification *)

Lemma ac3_loop_run cw fuel :
  forall (doms : Domains) arcs r,
    ac3_loop cw fuel doms arcs = Ok r -> fifo_run cw doms arcs r.
Proof.
  induction fuel as [|fuel IH]; intros doms arcs r H; [discriminate|].
  simpl in H. destruct arcs as [|[x y] rest].
  - injection H as <-. constructor.
  - bind_inv H as [revised doms'] Hrev. destruct revised.
    + bind_inv H as dx Hdx. apply domains_get_Ok in Hdx.
      destruct (Nat.eqb (List.length dx) 0) eqn:Hlen.
      * injection H as <-. apply Nat.eqb_eq in Hlen.
        destruct dx; [|discriminate]. now apply run_emptied.
      * apply Nat.eqb_neq in Hlen. eapply run_requeue; eauto.
        intros ->. now apply Hlen.
    + eapply run_unrevised; eauto.
Qed.

Lemma ac3_run_loop cw (doms : Domains) arcs r :
  fifo_run cw doms arcs r -> exists fuel, ac3_loop cw fuel doms arcs = Ok r.
Proof.
  induction 1 as [doms|doms doms' x y rest r Hrev _ [fuel IH]
                 |doms doms' x y rest Hrev Hx
                 |doms doms' x y rest dx r Hrev Hx Hne _ [fuel IH]].
  - now exists 1.
  - exists (S fuel). simpl. now rewrite Hrev.
  - exists 1. simpl. rewrite Hrev. simpl. unfold domains_get. now rewrite Hx.
  - exists (S fuel). simpl. rewrite Hrev. simpl. unfold domains_get.
    rewrite Hx. simpl. destruct dx; [contradiction|]. exact IH.
Qed.

Lemma ac3_Some_run cw (doms : Domains) arcs r :
  ac3 cw doms (Some arcs) = Ok r <-> fifo_run cw doms arcs r.
Proof.
  split; [apply ac3_loop_run|]. intros Hrun.
  destruct (ac3_run_loop _ _ _ _ Hrun) as [fuel Hfuel].
  pose proof (ac3_not_out cw doms (Some arcs)) as Hout. unfold ac3 in *.
  set (f0 := ac3_fuel cw doms arcs) in *.
  destruct (Nat.le_ge_cases fuel f0) as [Hle|Hle].
  - rewrite (ac3_loop_more_fuel cw fuel doms arcs f0); [exact Hfuel| |exact Hle].
    now rewrite Hfuel.
  - rewrite <- Hfuel. symmetry. now apply ac3_loop_more_fuel.
Qed.


(** ** Well-formed crosswords *)

Lemma dict_get_In {K V} `{EqDecision K} (d : dict K V) k v :
  dict_get d k = Some v -> In (k, v) d.
Proof.
  induction d as [|[k' v'] d IH]; simpl; [discriminate|].
  destruct (decide (k' = k)) as [->|]; [intros [= ->]; now left|].
  intros H'. right. now apply IH.
Qed.

Lemma dict_get_keys {K V} `{EqDecision K} (d : dict K V) k v :
  dict_get d k = Some v -> In k (dict_keys d).
Proof.
  intros Hg. apply dict_get_In in Hg. unfold dict_keys.
  apply in_map_iff. now exists (k, v).
Qed.

Lemma inb_In x l : inb x l = true -> In x l.
Proof. unfold inb. now destruct (in_dec Var_eq_dec x l). Qed.

Lemma well_formed_WF cw : well_formed cw = true -> WF cw.
Proof.
  intros Hwf x y i j Hov. unfold well_formed in Hwf.
  rewrite forallb_forall in Hwf. apply dict_get_In in Hov.
  specialize (Hwf _ Hov). simpl in Hwf.
  repeat (apply andb_true_iff in Hwf as [Hwf ?]).
  apply negb_true_iff, bool_decide_eq_false in Hwf.
  repeat split; auto using inb_In.
  - now apply Nat.ltb_lt.
  - now apply Nat.ltb_lt.
  - now apply bool_decide_eq_true in H.
Qed.

Lemma node_consistent_NC cw (doms : Domains) :
  node_consistent cw doms = true -> NC cw doms.
Proof.
  intros Hnc v Hv. unfold node_consistent in Hnc.
  rewrite forallb_forall in Hnc. specialize (Hnc v Hv).
  destruct (doms !! v) as [d|]; [|discriminate]. exists d. split; [reflexivity|].
  apply Forall_forall. intros w Hw. rewrite forallb_forall in Hnc.
  apply Nat.eqb_eq, Hnc. now apply list_elem_of_In.
Qed.

Lemma has_overlap_spec cw x y :
  has_overlap cw x y = true <->
  exists i j, dict_get (overlaps cw) (x, y) = Some (Some (i, j)).
Proof.
  unfold has_overlap. destruct (dict_get (overlaps cw) (x, y)) as [[[i j]|]|]; split;
    try discriminate; eauto; intros (i' & j' & [=]).
Qed.

Lemma NC_shrinks cw x k (doms doms' : Domains) :
  shrinks_at x k doms doms' -> NC cw doms -> NC cw doms'.
Proof.
  intros (dx & dx' & Hx & -> & Hincl & _) Hnc v Hv.
  destruct (Hnc v Hv) as (d & Hd & Hall).
  destruct (decide (x = v)) as [->|Hne].
  - exists dx'. rewrite lookup_insert_eq. split; [reflexivity|].
    assert (d = dx) by congruence. subst d.
    rewrite Forall_forall in *. intros w Hw. apply Hall.
    apply list_elem_of_In, Hincl, list_elem_of_In, Hw.
  - exists d. rewrite lookup_insert_ne; auto.
Qed.

Lemma domains_le_refl (doms : Domains) : domains_le doms doms.
Proof. intros v d Hd. exists d. split; [exact Hd|apply incl_refl]. Qed.

Lemma domains_le_trans (d2 d1 d0 : Domains) :
  domains_le d2 d1 -> domains_le d1 d0 -> domains_le d2 d0.
Proof.
  intros H21 H10 v a Ha. destruct (H21 v a Ha) as (b & Hb & Hab).
  destruct (H10 v b Hb) as (c & Hc & Hbc). exists c. split; [exact Hc|].
  eapply incl_tran; eauto.
Qed.

Lemma shrinks_at_le x k (doms doms' : Domains) :
  shrinks_at x k doms doms' -> domains_le doms' doms.
Proof.
  intros (dx & dx' & Hx & -> & Hincl & _) v d' Hd'.
  destruct (decide (x = v)) as [->|Hne].
  - rewrite lookup_insert_eq in Hd'. injection Hd' as <-. eauto.
  - rewrite lookup_insert_ne in Hd' by auto. exists d'. split; [exact Hd'|apply incl_refl].
Qed.

Lemma revise_le cw x y (doms doms' : Domains) r :
  revise cw x y doms = Ok (r, doms') -> domains_le doms' doms.
Proof.
  intros H. apply revise_shrinks in H as [[-> _]|[H _]].
  - apply domains_le_refl.
  - eapply shrinks_at_le; eauto.
Qed.

Lemma ac3_run_le cw (doms : Domains) arcs r :
  fifo_run cw doms arcs r -> domains_le (snd (fst r)) doms.
Proof.
  induction 1 as [doms|doms doms' x y rest r Hrev _ IH
                 |doms doms' x y rest Hrev Hx
                 |doms doms' x y rest dx r Hrev Hx Hne _ IH]; simpl.
  - apply domains_le_refl.
  - eapply domains_le_trans; [exact IH|]. eapply revise_le; eauto.
  - eapply revise_le; eauto.
  - eapply domains_le_trans; [exact IH|]. eapply revise_le; eauto.
Qed.

Lemma NC_long cw (doms : Domains) x k d :
  NC cw doms -> In x (variables cw) -> k < var_length x ->
  doms !! x = Some d -> long_enough k d.
Proof.
  intros Hnc Hx Hk Hd. destruct (Hnc x Hx) as (d0 & Hd0 & Hall).
  assert (d0 = d) by congruence. subst d0.
  unfold long_enough. eapply Forall_impl; [exact Hall|].
  simpl. intros w Hw. lia.
Qed.

(** ** The invariant of the worklist, on a well-formed crossword *)

Section ArcConsistency.
Variable cw : Crossword.
Hypothesis Hwf : WF cw.

(** The closed form of [revise]. *)
Lemma revise_wf (doms : Domains) x y i j :
  NC cw doms ->
  dict_get (overlaps cw) (x, y) = Some (Some (i, j)) ->
  exists dx dy, doms !! x = Some dx /\ doms !! y = Some dy /\
    revise cw x y doms =
      Ok (negb (forallb (supported i j dy) dx),
          <[x := List.filter (supported i j dy) dx]> doms).
Proof.
  intros Hnc Hov.
  destruct (Hwf x y i j Hov) as (Hxy & Hx & Hy & Hi & Hj & _).
  destruct (Hnc x Hx) as (dx & Hdx & _).
  destruct (Hnc y Hy) as (dy & Hdy & _).
  exists dx, dy. repeat split; auto.
  apply revise_Some; auto.
  - now apply (NC_long cw doms x i dx).
  - now apply (NC_long cw doms y j dy).
Qed.

Lemma compatible_sym i j X Y : compatible i j X Y = compatible j i Y X.
Proof.
  unfold compatible, ascii_eqb.
  destruct (String.get i X), (String.get j Y); try reflexivity.
  now rewrite Ascii.eqb_sym, String.eqb_sym.
Qed.

Lemma forallb_filter_true {A} (f : A -> bool) l :
  forallb f l = true -> List.filter f l = l.
Proof. apply forallb_filter_id. Qed.

Lemma forallb_incl {A} (f : A -> bool) l l' :
  incl l' l -> forallb f l = true -> forallb f l' = true.
Proof.
  intros Hincl Hl. rewrite forallb_forall in *. auto.
Qed.

Lemma filter_incl' {A} (f : A -> bool) l : incl (List.filter f l) l.
Proof. intros a Ha. apply filter_In in Ha. tauto. Qed.

(** One iteration of the worklist loop keeps the invariant, whether or not
    the domain was revised. *)
Lemma Inv_step (doms : Domains) x y i j dx dy rest :
  dict_get (overlaps cw) (x, y) = Some (Some (i, j)) ->
  doms !! x = Some dx -> doms !! y = Some dy ->
  Inv cw doms ((x, y) :: rest) ->
  Inv cw (<[x := List.filter (supported i j dy) dx]> doms)
      (if negb (forallb (supported i j dy) dx)
       then rest ++ map (fun z => (z, x)) (neighbors_except cw x y)
       else rest).
Proof.
  intros Hov Hdx Hdy Hinv a b Hab.
  destruct (Hwf x y i j Hov) as (Hxy & Hx & Hy & Hi & Hj & Hsym).
  set (dx' := List.filter (supported i j dy) dx).
  assert (Hxy_cons : arc_consistent cw (<[x := dx']> doms) x y).
  { intros i' j' dx0 dy0 Hov' Hx0 Hy0.
    rewrite Hov in Hov'. injection Hov' as <- <-.
    rewrite lookup_insert_eq in Hx0. injection Hx0 as <-.
    rewrite lookup_insert_ne in Hy0 by auto.
    assert (dy0 = dy) by congruence. subst dy0.
    apply forallb_filter. }
  assert (Hkeep : forall a' b', b' <> x -> arc_consistent cw doms a' b' ->
                    arc_consistent cw (<[x := dx']> doms) a' b').
  { intros a' b' Hb Hc i' j' da db Hov' Ha' Hb'.
    rewrite lookup_insert_ne in Hb' by auto.
    destruct (decide (x = a')) as [<-|Hne].
    - rewrite lookup_insert_eq in Ha'. injection Ha' as <-.
      apply (forallb_incl _ dx); [apply filter_incl'|]. eapply Hc; eauto.
    - rewrite lookup_insert_ne in Ha' by auto. eapply Hc; eauto. }
  destruct (forallb (supported i j dy) dx) eqn:Hall; simpl.
  - (* nothing removed: the store is unchanged *)
    assert (Hsame : <[x := dx']> doms = doms).
    { unfold dx'. rewrite forallb_filter_true by exact Hall. now apply insert_id. }
    destruct (Hinv a b Hab) as [[Heq|Hin]|Hc].
    + injection Heq as <- <-. now right.
    + now left.
    + right. now rewrite Hsame.
  - destruct (Hinv a b Hab) as [[Heq|Hin]|Hc].
    + injection Heq as <- <-. now right.
    + left. apply in_or_app. now left.
    + destruct (decide (b = x)) as [->|Hbx]; [|right; now apply Hkeep].
      apply has_overlap_spec in Hab as (i' & j' & Hov').
      destruct (Hwf a x i' j' Hov') as (Hax & Ha & _ & _ & _ & Hsym').
      destruct (decide (a = y)) as [->|Hay].
      * right. intros i2 j2 dy0 dx0 Hov2 Hy0 Hx0.
        rewrite Hsym in Hov2. injection Hov2 as <- <-.
        rewrite lookup_insert_eq in Hx0. injection Hx0 as <-.
        rewrite lookup_insert_ne in Hy0 by auto.
        assert (dy0 = dy) by congruence. subst dy0.
        specialize (Hc j i dy dx Hsym Hdy Hdx).
        rewrite forallb_forall in *. intros Y HY.
        specialize (Hc Y HY). unfold supported in Hc.
        apply existsb_exists in Hc as (X & HX & Hcomp).
        apply existsb_exists. exists X. split; [|exact Hcomp].
        apply filter_In. split; [exact HX|].
        apply existsb_exists. exists Y. split; [exact HY|].
        now rewrite compatible_sym.
      * left. apply in_or_app. right. apply in_map_iff. exists a. split; [reflexivity|].
        unfold neighbors_except, neighbors. apply filter_In. split.
        -- apply filter_In. split; [exact Ha|]. apply has_overlap_spec. eauto.
        -- apply negb_true_iff, bool_decide_eq_false. exact Hay.
Qed.

Lemma valid_arcs_pushed x y rest :
  valid_arcs cw rest ->
  valid_arcs cw (rest ++ map (fun z => (z, x)) (neighbors_except cw x y)).
Proof.
  intros Hrest. apply Forall_app. split; [exact Hrest|].
  apply Forall_forall. intros [z x'] Hin. apply list_elem_of_In in Hin.
  apply in_map_iff in Hin as (z' & [= -> ->] & Hz). simpl.
  unfold neighbors_except, neighbors in Hz.
  apply filter_In in Hz as [Hz _]. apply filter_In in Hz as [_ Hz].
  apply has_overlap_spec in Hz as (i & j & Hov).
  apply has_overlap_spec. destruct (Hwf _ _ _ _ Hov) as (_ & _ & _ & _ & _ & Hsym). eauto.
Qed.

Lemma ac3_loop_no_raise fuel :
  forall (doms : Domains) arcs e,
    NC cw doms -> valid_arcs cw arcs ->
    ac3_loop cw fuel doms arcs <> Raise e.
Proof.
  induction fuel as [|fuel IH]; intros doms arcs e Hnc Hval; [discriminate|].
  simpl. destruct arcs as [|[x y] rest]; [discriminate|].
  apply Forall_cons in Hval as [Hxy Hrest]. simpl in Hxy.
  apply has_overlap_spec in Hxy as (i & j & Hov).
  destruct (revise_wf doms x y i j Hnc Hov) as (dx & dy & Hdx & Hdy & Hrev).
  rewrite Hrev. simpl.
  assert (Hnc' : NC cw (<[x := List.filter (supported i j dy) dx]> doms)).
  { eapply (NC_shrinks cw x 0); [|exact Hnc].
    exists dx, (List.filter (supported i j dy) dx). repeat split; auto.
    - apply filter_incl'.
    - pose proof (filter_length_le' (supported i j dy) dx). lia. }
  destruct (negb (forallb (supported i j dy) dx)).
  - unfold domains_get. rewrite lookup_insert_eq. simpl.
    destruct (Nat.eqb _ 0); [discriminate|].
    apply IH; [exact Hnc'|]. now apply valid_arcs_pushed.
  - now apply IH.
Qed.

Lemma ac3_run_inv (doms : Domains) arcs r :
  fifo_run cw doms arcs r ->
  NC cw doms -> valid_arcs cw arcs -> Inv cw doms arcs ->
  fst (fst r) = true ->
  snd r = [] /\ NC cw (snd (fst r)) /\ Inv cw (snd (fst r)) [].
Proof.
  induction 1 as [doms|doms doms' x y rest r Hrev _ IH
                 |doms doms' x y rest Hrev Hx
                 |doms doms' x y rest dx r Hrev Hx Hne _ IH];
    intros Hnc Hval Hinv Htrue; simpl in *.
  - auto.
  - apply Forall_cons in Hval as [Hxy Hrest]. simpl in Hxy.
    apply has_overlap_spec in Hxy as (i & j & Hov).
    destruct (revise_wf doms x y i j Hnc Hov) as (dx & dy & Hdx & Hdy & Hrev').
    rewrite Hrev' in Hrev. injection Hrev as Hb <-.
    pose proof (Inv_step doms x y i j dx dy rest Hov Hdx Hdy Hinv) as Hstep.
    rewrite Hb in Hstep.
    apply IH; auto.
    eapply (NC_shrinks cw x 0); [|exact Hnc].
    exists dx, (List.filter (supported i j dy) dx). repeat split; auto.
    + apply filter_incl'.
    + pose proof (filter_length_le' (supported i j dy) dx). lia.
  - discriminate.
  - apply Forall_cons in Hval as [Hxy Hrest]. simpl in Hxy.
    apply has_overlap_spec in Hxy as (i & j & Hov).
    destruct (revise_wf doms x y i j Hnc Hov) as (dx0 & dy & Hdx & Hdy & Hrev').
    rewrite Hrev' in Hrev. injection Hrev as Hb <-.
    pose proof (Inv_step doms x y i j dx0 dy rest Hov Hdx Hdy Hinv) as Hstep.
    rewrite Hb in Hstep.
    apply IH; auto.
    + eapply (NC_shrinks cw x 0); [|exact Hnc].
      exists dx0, (List.filter (supported i j dy) dx0). repeat split; auto.
      * apply filter_incl'.
      * pose proof (filter_length_le' (supported i j dy) dx0). lia.
    + now apply valid_arcs_pushed.
Qed.

(** On an arc-consistent store every revision is void. *)
Lemma ac3_run_fixpoint (doms : Domains) arcs :
  NC cw doms -> valid_arcs cw arcs -> Inv cw doms [] ->
  fifo_run cw doms arcs (true, doms, []).
Proof.
  intros Hnc Hval Hinv. induction arcs as [|[x y] rest IH]; [constructor|].
  apply Forall_cons in Hval as [Hxy Hrest]. simpl in Hxy.
  destruct (Hinv x y Hxy) as [[]|Hc].
  apply has_overlap_spec in Hxy as (i & j & Hov).
  destruct (revise_wf doms x y i j Hnc Hov) as (dx & dy & Hdx & Hdy & Hrev).
  specialize (Hc i j dx dy Hov Hdx Hdy).
  rewrite Hc, (forallb_filter_true _ _ Hc), (insert_id _ _ _ Hdx) in Hrev. simpl in Hrev.
  eapply run_unrevised; [exact Hrev|]. now apply IH.
Qed.

End ArcConsistency.

Lemma initial_arcs_spec cw x y :
  In (x, y) (initial_arcs cw) <-> has_overlap cw x y = true.
Proof.
  unfold initial_arcs. rewrite filter_In. simpl. split; [tauto|].
  intros H. split; [|exact H].
  apply has_overlap_spec in H as (i & j & H). eapply dict_get_keys; eauto.
Qed.

Lemma initial_arcs_valid cw : valid_arcs cw (initial_arcs cw).
Proof.
  apply Forall_forall. intros [x y] Hin. apply list_elem_of_In in Hin.
  now apply initial_arcs_spec.
Qed.

Lemma Inv_initial cw (doms : Domains) : Inv cw doms (initial_arcs cw).
Proof. intros x y Hxy. left. now apply initial_arcs_spec. Qed.


(** ** The search *)

Lemma dict_mem_app {K V} `{EqDecision K} (d : dict K V) k k' v :
  dict_mem k' (d ++ [(k, v)]) = dict_mem k' d || bool_decide (k = k').
Proof.
  unfold dict_mem. induction d as [|[k0 v0] d IH]; simpl.
  - destruct (decide (k = k')); [now rewrite bool_decide_eq_true_2|now rewrite bool_decide_eq_false_2].
  - destruct (decide (k0 = k')); [reflexivity|exact IH].
Qed.

Lemma dict_set_fresh {K V} `{EqDecision K} (d : dict K V) k v :
  dict_mem k d = false -> dict_set d k v = d ++ [(k, v)].
Proof.
  unfold dict_mem. induction d as [|[k0 v0] d IH]; simpl; [reflexivity|].
  destruct (decide (k0 = k)); [discriminate|]. intros Hd. now rewrite IH.
Qed.

Lemma dict_remove_fresh {K V} `{EqDecision K} (d : dict K V) k v :
  dict_mem k d = false -> dict_remove (d ++ [(k, v)]) k = d.
Proof.
  unfold dict_mem. induction d as [|[k0 v0] d IH]; simpl.
  - now rewrite decide_True.
  - destruct (decide (k0 = k)); [discriminate|]. intros Hd. now rewrite IH.
Qed.

Lemma dict_pop_set {K V} `{EqDecision K} (d : dict K V) k v :
  dict_mem k d = false -> dict_pop (dict_set d k v) k = Ok d.
Proof.
  intros Hd. rewrite (dict_set_fresh d k v Hd). unfold dict_pop.
  rewrite dict_mem_app, bool_decide_eq_true_2, orb_true_r by reflexivity.
  now rewrite dict_remove_fresh.
Qed.

Lemma insert_keyed_In {A} k (a : A) l x :
  In x (map snd (insert_keyed k a l)) <-> x = a \/ In x (map snd l).
Proof.
  induction l as [|[k' y] l IH]; simpl.
  - intuition.
  - destruct (Nat.leb k k'); simpl; [intuition|]. rewrite IH. intuition.
Qed.

Lemma sort_keyed_In {A} (l : list (nat * A)) x :
  In x (sort_keyed l) <-> In x (map snd l).
Proof.
  unfold sort_keyed. induction l as [|[k a] l IH]; simpl; [tauto|].
  rewrite insert_keyed_In, IH. intuition.
Qed.

Lemma keyed_snd {A} (key : A -> res nat) l r :
  keyed key l = Ok r -> map snd r = l.
Proof.
  revert r. induction l as [|a l IH]; intros r H; simpl in H.
  - now injection H as <-.
  - bind_inv H as k _. bind_inv H as r' Hr'.
    injection H as <-. simpl. now rewrite (IH r').
Qed.

Lemma tied_with_incl (doms : Domains) m l t :
  tied_with doms m l = Ok t -> incl t l.
Proof.
  revert t. induction l as [|v l IH]; intros t H; simpl in H.
  - injection H as <-. apply incl_refl.
  - bind_inv H as n _. bind_inv H as t' Ht'.
    injection H as <-. specialize (IH t' Ht').
    destruct (Nat.eqb n m); intros w Hw; simpl in *; intuition.
Qed.

(** The variable selected is one of the unassigned variables. *)
Lemma select_unassigned cw (doms : Domains) assignment v :
  select_unassigned_variable cw doms assignment = Ok (Some v) ->
  In v (unassigned cw assignment).
Proof.
  unfold select_unassigned_variable. fold (unassigned cw assignment).
  destruct (unassigned cw assignment) as [|v0 [|v1 l]] eqn:Hun.
  - discriminate.
  - intros [= ->]. now left.
  - intros H. bind_inv H as ks Hks.
    apply keyed_snd in Hks.
    assert (Hsorted : forall u, In u (sort_keyed ks) -> In u (v0 :: v1 :: l)).
    { intros u Hu. apply (proj1 (sort_keyed_In ks u)) in Hu. now rewrite Hks in Hu. }
    destruct (sort_keyed ks) as [|u0 [|u1 rest]]; try discriminate.
    bind_inv H as m _. bind_inv H as n1 _.
    destruct (negb (Nat.eqb n1 m)).
    + injection H as <-. apply Hsorted. now left.
    + bind_inv H as tied Htied.
      apply tied_with_incl in Htied.
      destruct (sort_keyed _) as [|t0 ts] eqn:Hts; [discriminate|].
      injection H as <-. apply Hsorted, Htied.
      assert (Ht0 : In t0 (sort_keyed
                (map (fun v => (List.length (neighbors cw v), v)) tied)))
        by (rewrite Hts; now left).
      apply (proj1 (sort_keyed_In _ t0)) in Ht0. rewrite map_map in Ht0. simpl in Ht0.
      now rewrite map_id in Ht0.
Qed.

Lemma unassigned_spec cw assignment v :
  In v (unassigned cw assignment) <->
  In v (variables cw) /\ dict_mem v assignment = false.
Proof. unfold unassigned. rewrite filter_In, negb_true_iff. tauto. Qed.

(** The loop over the words leaves the assignment as it found it when it
    ends in failure, provided the recursive call does. *)
Lemma backtrack_words_restores cw recurse variable ws :
  (forall a r a', recurse a = Ok (r, a') -> is_failure r = true -> a' = a) ->
  forall assignment r a',
    dict_mem variable assignment = false ->
    backtrack_words cw recurse variable ws assignment = Ok (r, a') ->
    is_failure r = true -> a' = assignment.
Proof.
  intros Hrec. induction ws as [|word ws IH]; intros a r a' Hfresh H Hfail; simpl in H.
  - now injection H as <- <-.
  - bind_inv H as c _. destruct c.
    + bind_inv H as [result a2] Hcall.
      destruct (is_failure result) eqn:Hres; simpl in H.
      * apply Hrec in Hcall; [|exact Hres]. subst a2.
        rewrite dict_pop_set in H by exact Hfresh. simpl in H. now apply IH in H.
      * injection H as <- <-. congruence.
    + rewrite dict_pop_set in H by exact Hfresh. simpl in H. now apply IH in H.
Qed.

Lemma backtrack_fuel_restores cw (doms : Domains) fuel :
  forall assignment r a',
    backtrack_fuel cw doms fuel assignment = Ok (r, a') ->
    is_failure r = true -> a' = assignment.
Proof.
  induction fuel as [|fuel IH]; intros a r a' H Hfail; [discriminate|].
  simpl in H. destruct (assignment_complete cw a).
  - injection H as <- <-. discriminate.
  - bind_inv H as ov Hsel. destruct ov as [v|]; [|discriminate].
    bind_inv H as ws _.
    apply select_unassigned, unassigned_spec in Hsel as [_ Hfresh].
    eapply backtrack_words_restores; eauto.
Qed.

Lemma keyed_not_out {A} (key : A -> res nat) l :
  (forall a, key a <> OutOfFuel) -> keyed key l <> OutOfFuel.
Proof.
  intros Hkey. induction l as [|a l IH]; simpl; [discriminate|].
  apply bind_not_out; [apply Hkey|]. intros k _.
  apply bind_not_out; [exact IH|]. discriminate.
Qed.

Lemma domain_length_not_out (doms : Domains) v : domain_length doms v <> OutOfFuel.
Proof.
  unfold domain_length. apply bind_not_out; [apply get_or_raise_not_out|]. discriminate.
Qed.

Lemma tied_with_not_out (doms : Domains) m l : tied_with doms m l <> OutOfFuel.
Proof.
  induction l as [|v l IH]; simpl; [discriminate|].
  apply bind_not_out; [apply domain_length_not_out|]. intros n _.
  apply bind_not_out; [exact IH|]. discriminate.
Qed.

Lemma select_not_out cw (doms : Domains) a :
  select_unassigned_variable cw doms a <> OutOfFuel.
Proof.
  unfold select_unassigned_variable.
  destruct (List.filter _ _) as [|v0 [|v1 l]]; try discriminate.
  apply bind_not_out; [apply keyed_not_out, domain_length_not_out|]. intros ks _.
  destruct (sort_keyed ks) as [|u0 [|u1 rest]]; try discriminate.
  apply bind_not_out; [apply domain_length_not_out|]. intros m _.
  apply bind_not_out; [apply domain_length_not_out|]. intros n1 _.
  destruct (negb _); [discriminate|].
  apply bind_not_out; [apply tied_with_not_out|]. intros tied _.
  destruct (sort_keyed _); discriminate.
Qed.

Lemma consistent_neighbours_not_out cw a v w ns :
  consistent_neighbours cw a v w ns <> OutOfFuel.
Proof.
  induction ns as [|n ns IH]; simpl; [discriminate|].
  apply bind_not_out; [apply get_or_raise_not_out|]. intros ov _.
  destruct ov as [[o0 o1]|]; [|exact IH].
  destruct (dict_get a n); [|exact IH].
  apply bind_not_out; [apply str_index_not_out|]. intros c _.
  apply bind_not_out; [apply str_index_not_out|]. intros cn _.
  destruct (ascii_eqb c cn); [exact IH|discriminate].
Qed.

Lemma consistent_not_out cw a : consistent cw a <> OutOfFuel.
Proof.
  unfold consistent. induction (dict_keys a) as [|v keys IH]; simpl; [discriminate|].
  apply bind_not_out; [apply get_or_raise_not_out|]. intros w _.
  destruct (negb _); [discriminate|].
  apply bind_not_out; [apply consistent_neighbours_not_out|].
  intros [] _; [exact IH|discriminate].
Qed.

Lemma unassigned_after_set cw a v w :
  In v (unassigned cw a) ->
  List.length (unassigned cw (dict_set a v w)) < List.length (unassigned cw a).
Proof.
  intros Hv. apply unassigned_spec in Hv as [Hv Hfresh].
  rewrite (dict_set_fresh a v w Hfresh). unfold unassigned.
  induction (variables cw) as [|u l IH]; simpl in *; [tauto|].
  rewrite dict_mem_app.
  assert (Hle : List.length (List.filter
                  (fun variable => negb (dict_mem variable (a ++ [(v, w)]))) l)
                <= List.length (List.filter
                  (fun variable => negb (dict_mem variable a)) l)).
  { clear. induction l as [|u l IH]; simpl; [lia|].
    rewrite dict_mem_app. destruct (dict_mem u a); simpl; [exact IH|].
    destruct (bool_decide (v = u)); simpl; lia. }
  destruct Hv as [->|Hv].
  - rewrite Hfresh, bool_decide_eq_true_2 by reflexivity. simpl. lia.
  - specialize (IH Hv). destruct (dict_mem u a); simpl; [exact IH|].
    destruct (bool_decide (v = u)); simpl; lia.
Qed.

Lemma backtrack_words_not_out cw recurse variable ws n :
  (forall a r a', recurse a = Ok (r, a') -> is_failure r = true -> a' = a) ->
  (forall a, List.length (unassigned cw a) < n -> recurse a <> OutOfFuel) ->
  forall assignment,
    In variable (unassigned cw assignment) ->
    List.length (unassigned cw assignment) <= n ->
    backtrack_words cw recurse variable ws assignment <> OutOfFuel.
Proof.
  intros Hres Hrec. induction ws as [|word ws IH]; intros a Hv Hn; simpl; [discriminate|].
  pose proof (proj2 (proj1 (unassigned_spec cw a variable) Hv)) as Hfresh.
  apply bind_not_out; [apply consistent_not_out|]. intros c _. destruct c.
  - apply bind_not_out.
    + apply Hrec. pose proof (unassigned_after_set cw a variable word Hv). lia.
    + intros [result a2] Hcall. destruct (is_failure result) eqn:Hf; simpl; [|discriminate].
      apply Hres in Hcall; [|exact Hf]. subst a2.
      rewrite dict_pop_set by exact Hfresh. simpl. now apply IH.
  - rewrite dict_pop_set by exact Hfresh. simpl. now apply IH.
Qed.

Lemma backtrack_fuel_enough cw (doms : Domains) fuel :
  forall assignment,
    List.length (unassigned cw assignment) < fuel ->
    backtrack_fuel cw doms fuel assignment <> OutOfFuel.
Proof.
  induction fuel as [|fuel IH]; intros a Hfuel; [lia|].
  simpl. destruct (assignment_complete cw a); [discriminate|].
  apply bind_not_out; [apply select_not_out|]. intros [v|] Hsel; [|discriminate].
  apply bind_not_out; [apply get_or_raise_not_out|]. intros ws _.
  apply select_unassigned in Hsel.
  apply (backtrack_words_not_out cw _ v ws fuel); auto.
  - apply backtrack_fuel_restores.
  - lia.
Qed.

Lemma backtrack_not_out cw (doms : Domains) assignment :
  backtrack cw doms assignment <> OutOfFuel.
Proof.
  unfold backtrack. apply backtrack_fuel_enough.
  pose proof (filter_length_le'
    (fun variable => negb (dict_mem variable assignment)) (variables cw)).
  unfold unassigned. lia.
Qed.


(** *** What a successful search returns *)

Lemma str_index_Ok s k c : str_index s k = Ok c <-> String.get k s = Some c.
Proof. unfold str_index. destruct (String.get k s); split; congruence. Qed.

Lemma consistent_neighbours_true cw a v w ns :
  Forall (fun n => has_overlap cw v n = true) ns ->
  consistent_neighbours cw a v w ns = Ok true <->
  (forall n i j wn,
     In n ns -> dict_get (overlaps cw) (v, n) = Some (Some (i, j)) ->
     dict_get a n = Some wn ->
     exists c, String.get i w = Some c /\ String.get j wn = Some c).
Proof.
  induction 1 as [|n ns Hn Hns IH]; simpl.
  - split; [intros _ n i j wn []|reflexivity].
  - apply has_overlap_spec in Hn as (i & j & Hov).
    unfold overlaps_get. rewrite Hov. simpl.
    destruct (dict_get a n) as [wn|] eqn:Han.
    + split.
      * intros H. bind_inv H as c Hc. bind_inv H as cn Hcn.
        apply str_index_Ok in Hc, Hcn.
        destruct (ascii_eqb c cn) eqn:Heq; [|discriminate].
        apply Ascii.eqb_eq in Heq. subst cn.
        intros n' i' j' wn' [<-|Hin] Hov' Ha'.
        -- rewrite Hov in Hov'. injection Hov' as <- <-.
           rewrite Han in Ha'. injection Ha' as <-. eauto.
        -- apply (proj1 IH H n' i' j' wn' Hin Hov' Ha').
      * intros H. destruct (H n i j wn (or_introl eq_refl) Hov Han) as (c & Hc & Hcn).
        apply str_index_Ok in Hc, Hcn. rewrite Hc, Hcn. simpl.
        unfold ascii_eqb. rewrite Ascii.eqb_refl. apply IH.
        intros n' i' j' wn' Hin. apply H. now right.
    + rewrite IH. split.
      * intros H n' i' j' wn' [<-|Hin] Hov' Ha'; [congruence|]. eapply H; eauto.
      * intros H n' i' j' wn' Hin. apply H. now right.
Qed.

Lemma neighbors_overlap cw v :
  Forall (fun n => has_overlap cw v n = true) (neighbors cw v).
Proof.
  apply Forall_forall. intros n Hn. apply list_elem_of_In in Hn.
  unfold neighbors in Hn. apply filter_In in Hn. tauto.
Qed.

Lemma consistent_loop_true cw a keys :
  consistent_loop cw a keys = Ok true <->
  (forall v, In v keys -> exists w, dict_get a v = Some w /\ fits cw a v w).
Proof.
  induction keys as [|v keys IH]; simpl.
  - split; [intros _ v []|reflexivity].
  - destruct (dict_get a v) as [w|] eqn:Hav; simpl.
    + destruct (Nat.eqb (String.length w) (var_length v)) eqn:Hlen; simpl.
      * apply Nat.eqb_eq in Hlen.
        pose proof (consistent_neighbours_true cw a v w _ (neighbors_overlap cw v)) as Hn.
        destruct (consistent_neighbours cw a v w (neighbors cw v)) as [[]| |] eqn:Hcn; simpl.
        -- rewrite IH. split.
           ++ intros H v' [<-|Hin]; [|now apply H].
              exists w. split; [exact Hav|]. split; [exact Hlen|]. now apply Hn.
           ++ intros H v' Hin. apply H. now right.
        -- split; [discriminate|]. intros H.
           destruct (H v (or_introl eq_refl)) as (w' & Hw' & _ & Hfit).
           rewrite Hav in Hw'. injection Hw' as <-.
           apply Hn in Hfit. discriminate.
        -- split; [discriminate|]. intros H.
           destruct (H v (or_introl eq_refl)) as (w' & Hw' & _ & Hfit).
           rewrite Hav in Hw'. injection Hw' as <-.
           apply Hn in Hfit. discriminate.
        -- split; [discriminate|]. intros H.
           destruct (H v (or_introl eq_refl)) as (w' & Hw' & _ & Hfit).
           rewrite Hav in Hw'. injection Hw' as <-.
           apply Hn in Hfit. discriminate.
      * apply Nat.eqb_neq in Hlen. split; [discriminate|]. intros H.
        destruct (H v (or_introl eq_refl)) as (w' & Hw' & Hl & _).
        rewrite Hav in Hw'. injection Hw' as <-. contradiction.
    + split; [discriminate|]. intros H.
      destruct (H v (or_introl eq_refl)) as (w' & Hw' & _). congruence.
Qed.

(** [consistent] answers true exactly when every assigned word has the
    length of its variable and shares its letter with every assigned
    neighbour; the words of two variables are never compared. *)
Lemma consistent_true cw a :
  consistent cw a = Ok true <->
  (forall v, In v (dict_keys a) -> exists w, dict_get a v = Some w /\ fits cw a v w).
Proof. apply consistent_loop_true. Qed.

Lemma dict_keys_app {K V} (d : dict K V) k v :
  dict_keys (d ++ [(k, v)]) = dict_keys d ++ [k].
Proof. unfold dict_keys. now rewrite map_app. Qed.

Lemma dict_mem_keys {K V} `{EqDecision K} (d : dict K V) k :
  dict_mem k d = true <-> In k (dict_keys d).
Proof.
  unfold dict_mem, dict_keys. induction d as [|[k' v'] d IH]; simpl.
  - split; [discriminate|tauto].
  - destruct (decide (k' = k)) as [->|Hne]; [tauto|].
    rewrite IH. split; [tauto|]. intros [|]; [contradiction|assumption].
Qed.

Lemma proper_set cw a v w :
  proper cw a -> In v (unassigned cw a) -> proper cw (dict_set a v w).
Proof.
  intros [Hnd Hincl] Hv. apply unassigned_spec in Hv as [Hv Hfresh].
  rewrite (dict_set_fresh a v w Hfresh). unfold proper. rewrite dict_keys_app. split.
  - apply NoDup_app. split; [exact Hnd|]. split.
    + intros x Hx Hx'. apply list_elem_of_singleton in Hx'. subst x.
      apply list_elem_of_In, dict_mem_keys in Hx. congruence.
    + apply NoDup_singleton.
  - intros x Hx. apply in_app_or in Hx as [Hx|[<-|[]]]; auto.
Qed.

Lemma backtrack_words_success cw recurse variable ws :
  (forall a r s, recurse a = Ok (r, s) -> is_failure r = true -> s = a) ->
  (forall a r s, recurse a = Ok (r, s) -> is_failure r = false ->
                 r = VDict s /\ success cw a s) ->
  forall a r s,
    In variable (unassigned cw a) ->
    backtrack_words cw recurse variable ws a = Ok (r, s) ->
    is_failure r = false ->
    r = VDict s /\ success cw a s.
Proof.
  intros Hfail Hrec. induction ws as [|word ws IH]; intros a r s Hv H Hr; simpl in H.
  - injection H as <- <-. discriminate.
  - pose proof (proj2 (proj1 (unassigned_spec cw a variable) Hv)) as Hfresh.
    bind_inv H as c Hc. destruct c.
    + bind_inv H as [result a2] Hcall.
      destruct (is_failure result) eqn:Hres; simpl in H.
      * apply Hfail in Hcall; [|exact Hres]. subst a2.
        rewrite dict_pop_set in H by exact Hfresh. simpl in H. now apply IH in H.
      * injection H as <- <-.
        destruct (Hrec _ _ _ Hcall Hres) as (-> & Hcomp & Hcons & Hprop).
        split; [reflexivity|]. split; [exact Hcomp|]. split.
        -- right. destruct Hcons as [->|Hcons]; assumption.
        -- intros Ha. apply Hprop. now apply proper_set.
    + rewrite dict_pop_set in H by exact Hfresh. simpl in H. now apply IH in H.
Qed.

Lemma backtrack_fuel_success cw (doms : Domains) fuel :
  forall a r s,
    backtrack_fuel cw doms fuel a = Ok (r, s) -> is_failure r = false ->
    r = VDict s /\ success cw a s.
Proof.
  induction fuel as [|fuel IH]; intros a r s H Hr; [discriminate|].
  simpl in H. destruct (assignment_complete cw a) eqn:Hcomp.
  - injection H as <- <-. split; [reflexivity|]. split; [exact Hcomp|]. split; auto.
  - bind_inv H as ov Hsel. destruct ov as [v|]; [|discriminate].
    bind_inv H as ws _. apply select_unassigned in Hsel.
    eapply backtrack_words_success; eauto using backtrack_fuel_restores.
Qed.

Lemma is_failure_false r : r <> VStr "failure" -> is_failure r = false.
Proof.
  destruct r as [|s|a]; simpl; try reflexivity.
  intros Hne. apply String.eqb_neq. congruence.
Qed.

Lemma complete_all_assigned cw a :
  NoDup (variables cw) -> proper cw a -> assignment_complete cw a = true ->
  forall x, In x (variables cw) -> In x (dict_keys a).
Proof.
  intros Hnd [Hka Hincl] Hcomp. apply Nat.eqb_eq in Hcomp.
  apply NoDup_length_incl; [|unfold dict_keys; rewrite length_map; lia|exact Hincl].
  now apply NoDup_ListNoDup.
Qed.

(** What [solve] does guarantee of a result other than "failure": it is an
    assignment of a word to every variable, of the length of the variable,
    agreeing with the words of its neighbours at the overlaps. *)
Lemma solve_result cw (doms : Domains) r :
  NoDup (variables cw) ->
  solve cw doms = Ok r -> r <> VStr "failure" ->
  exists a, r = VDict a /\
    forall x, In x (variables cw) ->
      exists w, dict_get a x = Some w /\ fits cw a x w.
Proof.
  intros Hnd H Hr. unfold solve in H.
  bind_inv H as r0 _. bind_inv H as [res s] Hb.
  injection H as <-. apply is_failure_false in Hr.
  unfold backtrack in Hb.
  destruct (backtrack_fuel_success _ _ _ _ _ _ Hb Hr) as (-> & Hcomp & Hcons & Hprop).
  exists s. split; [reflexivity|].
  assert (Hs : proper cw s).
  { apply Hprop. split; [constructor|intros x []]. }
  assert (Hc : consistent cw s = Ok true) by (destruct Hcons as [->|Hc]; [reflexivity|exact Hc]).
  intros x Hx. apply (proj1 (consistent_true cw s) Hc).
  now apply (complete_all_assigned cw s Hnd Hs Hcomp).
Qed.


(** *** Node consistency *)

Lemma init_domains_lookup cw v :
  In v (variables cw) -> init_domains cw !! v = Some (words cw).
Proof.
  unfold init_domains. induction (variables cw) as [|u l IH]; simpl; [tauto|].
  intros Hv. destruct (decide (u = v)) as [->|Hne].
  - apply lookup_insert_eq.
  - rewrite lookup_insert_ne by exact Hne. destruct Hv; [contradiction|auto].
Qed.

Lemma enforce_node_consistency_NC cw (doms : Domains) :
  (forall v, In v (variables cw) -> is_Some (doms !! v)) ->
  NC cw (enforce_node_consistency doms).
Proof.
  intros Hdom v Hv. destruct (Hdom v Hv) as [d Hd].
  exists (List.filter (fun w => Nat.eqb (String.length w) (var_length v)) d).
  split.
  - unfold enforce_node_consistency. rewrite map_lookup_imap, Hd. reflexivity.
  - apply Forall_forall. intros w Hw. apply list_elem_of_In in Hw.
    apply filter_In in Hw as [_ Hw]. now apply Nat.eqb_eq.
Qed.

(** The store [solve] hands to [ac3] is node consistent. *)
Lemma solve_store_NC cw :
  NC cw (enforce_node_consistency (init_domains cw)).
Proof.
  apply enforce_node_consistency_NC. intros v Hv.
  rewrite (init_domains_lookup cw v Hv). eauto.
Qed.

(** ** The specification, statement by statement *)

Lemma ac3_None cw (doms : Domains) :
  ac3 cw doms None = ac3 cw doms (Some (initial_arcs cw)).
Proof. reflexivity. Qed.

Lemma neighbors_except_requeued cw x y :
  requeued cw x y (neighbors_except cw x y).
Proof.
  unfold requeued, neighbors_except, neighbors. split.
  - intros z. rewrite !filter_In, negb_true_iff, bool_decide_eq_false.
    rewrite has_overlap_spec. tauto.
  - intros Hnd. now do 2 apply List.NoDup_filter.
Qed.

Lemma fifo_run_worklist cw (doms : Domains) arcs r :
  fifo_run cw doms arcs r -> worklist_run cw doms arcs r.
Proof.
  induction 1 as [doms|doms doms' x y rest r Hrev _ IH
                 |doms doms' x y rest Hrev Hx
                 |doms doms' x y rest dx r Hrev Hx Hne _ IH].
  - constructor.
  - eapply worklist_unrevised; eauto.
  - now apply worklist_emptied.
  - eapply worklist_requeue; eauto. apply neighbors_except_requeued.
Qed.

Lemma revise_keeps_nonempty cw x y (doms doms' : Domains) b dx :
  revise cw x y doms = Ok (b, doms') ->
  doms' !! x = Some dx -> dx <> [] ->
  forall v d, doms !! v = Some d -> d <> [] ->
    exists d', doms' !! v = Some d' /\ d' <> [].
Proof.
  intros Hrev Hx Hne v d Hv Hd.
  apply revise_shrinks in Hrev as [[-> _]|[(d0 & d1 & _ & -> & _) _]]; [eauto|].
  destruct (decide (v = x)) as [->|Hvx]; [eauto|].
  exists d. now rewrite lookup_insert_ne.
Qed.

Lemma fifo_run_true cw (doms : Domains) arcs r :
  fifo_run cw doms arcs r -> fst (fst r) = true ->
  snd r = [] /\
  forall v d, doms !! v = Some d -> d <> [] ->
    exists d', snd (fst r) !! v = Some d' /\ d' <> [].
Proof.
  induction 1 as [doms|doms doms' x y rest r Hrev _ IH
                 |doms doms' x y rest Hrev Hx
                 |doms doms' x y rest dx r Hrev Hx Hne _ IH];
    intros Hb; simpl in *; try discriminate.
  - split; [reflexivity|]. eauto.
  - destruct (IH Hb) as [Hrest Hkeep]. split; [exact Hrest|].
    intros v d Hv Hd.
    apply revise_shrinks in Hrev as [[-> _]|[_ [=]]]. eauto.
  - destruct (IH Hb) as [Hrest Hkeep]. split; [exact Hrest|].
    intros v d Hv Hd.
    destruct (revise_keeps_nonempty _ _ _ _ _ _ _ Hrev Hx Hne v d Hv Hd)
      as (d1 & Hd1 & Hne1). eauto.
Qed.

Lemma fifo_run_consumed cw (doms : Domains) arcs r :
  fifo_run cw doms arcs r ->
  exists processed pushed,
    arcs ++ pushed = processed ++ snd r /\
    (arcs <> [] -> processed <> []) /\
    if fst (fst r)
    then consumed cw doms processed (snd (fst r)) pushed
    else exists p x y doms1,
           processed = p ++ [(x, y)] /\ consumed cw doms p doms1 pushed /\
           revise cw x y doms1 = Ok (true, snd (fst r)) /\
           snd (fst r) !! x = Some [].
Proof.
  induction 1 as [doms|doms doms' x y rest r Hrev _ (p & q & IH & _ & Hc)
                 |doms doms' x y rest Hrev Hx
                 |doms doms' x y rest dx r Hrev Hx Hne _ (p & q & IH & _ & Hc)];
    simpl.
  - exists [], []. split; [reflexivity|]. split; [intros H; now elim H|].
    constructor.
  - exists ((x, y) :: p), q. split; [simpl; now rewrite IH|].
    split; [discriminate|]. destruct (fst (fst r)).
    + eapply consumed_unrevised; eauto.
    + destruct Hc as (p0 & x0 & y0 & doms1 & -> & Hc & Hlast & Hempty).
      exists ((x, y) :: p0), x0, y0, doms1. split; [reflexivity|].
      split; [eapply consumed_unrevised; eauto|]. auto.
  - exists [(x, y)], []. split; [now rewrite app_nil_r|].
    split; [discriminate|]. exists [], x, y, doms. split; [reflexivity|].
    split; [constructor|]. auto.
  - exists ((x, y) :: p), (map (fun z => (z, x)) (neighbors_except cw x y) ++ q).
    split; [simpl; rewrite <- IH; now rewrite app_assoc|].
    split; [discriminate|]. destruct (fst (fst r)).
    + eapply consumed_revised; eauto. apply neighbors_except_requeued.
    + destruct Hc as (p0 & x0 & y0 & doms1 & -> & Hc & Hlast & Hempty).
      exists ((x, y) :: p0), x0, y0, doms1. split; [reflexivity|].
      split; [|auto]. eapply consumed_revised; eauto.
      apply neighbors_except_requeued.
Qed.

Lemma ac3_run_false cw (doms : Domains) arcs r :
  fifo_run cw doms arcs r -> fst (fst r) = false ->
  exists x, snd (fst r) !! x = Some [].
Proof.
  induction 1; simpl; intros Hb; try discriminate; eauto.
Qed.

(** C1 (defect of the code): [solve] returns a complete assignment that uses
    the word "AB" for two distinct slots, and on another crossword the word
    "ABA" for three slots, two of which cross the third; the claim that no
    word is used twice fails on the code. *)
Theorem solve_reuses_word :
  solve cw_separate (init_domains cw_separate)
  = Ok (VDict [(slot_a, "AB"); (slot_b, "AB")])
  /\ slot_a <> slot_b
  /\ solve cw_comb3 (init_domains cw_comb3)
     = Ok (VDict [(slot_left, "ABA"); (slot_right, "ABA"); (slot_top, "ABA")]).
Proof.
  split; [vm_compute; reflexivity|].
  split; [discriminate|vm_compute; reflexivity].
Qed.

(** C2 (defect of the code): [consistent] returns true on an assignment that
    maps two distinct variables to the same word, whether the two do not
    overlap or do; in the second case [revise] does refuse the word "ABA" as
    a partner of itself and removes it. *)
Theorem consistent_accepts_repeated_word :
  consistent cw_separate [(slot_a, "AB"); (slot_b, "AB")] = Ok true
  /\ slot_a <> slot_b
  /\ consistent cw_comb3 [(slot_top, "ABA"); (slot_left, "ABA")] = Ok true
  /\ slot_top <> slot_left
  /\ revise cw_comb3 slot_top slot_left store_same
     = Ok (true, <[slot_top := []]> store_same).
Proof.
  split; [vm_compute; reflexivity|].
  split; [discriminate|].
  split; [vm_compute; reflexivity|].
  split; [discriminate|vm_compute; reflexivity].
Qed.

(** C3 (defect of the code): when no assignment exists [solve] returns the
    string "failure", not a tagged value, and [main], which tests the
    result against [None], takes the string for an assignment. *)
Theorem failure_is_a_sentinel_string :
  solve cw_no_fit (init_domains cw_no_fit) = Ok (VStr "failure")
  /\ report (VStr "failure") <> Ok None
  /\ main cw_no_fit = Raise AttributeError.
Proof.
  split; [vm_compute; reflexivity|].
  split; [discriminate|vm_compute; reflexivity].
Qed.

(** C4 (defect of the code): at the root of the search, among three
    unassigned variables with domains of the same size,
    [select_unassigned_variable] returns a variable with one neighbour
    although another has two, whatever the order in which the variables
    are enumerated. *)
Theorem select_takes_lowest_degree :
  Forall (fun vs =>
    let cw := cw_comb vs in
    let doms := enforce_node_consistency (init_domains cw) in
    ac3 cw doms None = Ok (true, doms, []) /\
    exists v, select_unassigned_variable cw doms [] = Ok (Some v)
      /\ domain_length doms v = Ok 2 /\ domain_length doms slot_top = Ok 2
      /\ List.length (neighbors cw v) = 1
      /\ List.length (neighbors cw slot_top) = 2) orders_comb.
Proof.
  unfold orders_comb.
  repeat (apply Forall_cons; split;
          [split; [vm_compute; reflexivity|];
           first [exists slot_left; vm_compute; repeat split; reflexivity
                 |exists slot_right; vm_compute; repeat split; reflexivity]|]).
  apply Forall_nil. exact I.
Qed.

(** C5 (defect of the code): [backtrack] tries the words in the iteration
    order of the domain, not in the order of [order_domain_values]: here the
    least constraining word is "CD", and the search settles on "AB". *)
Theorem backtrack_ignores_value_order :
  let doms := enforce_node_consistency (init_domains cw_corner) in
  doms !! slot_short = Some ["AB"; "CD"]
  /\ ac3 cw_corner doms None = Ok (true, doms, [])
  /\ select_unassigned_variable cw_corner doms [] = Ok (Some slot_short)
  /\ order_domain_values cw_corner doms slot_short [] = Ok ["CD"; "AB"]
  /\ solve cw_corner (init_domains cw_corner)
     = Ok (VDict [(slot_short, "AB"); (slot_long, "AGX")]).
Proof. repeat split; vm_compute; reflexivity. Qed.

(** C6: [revise x y] on a pair whose overlap is [None] returns false and
    leaves the store as it is; on a pair overlapping at [(ix, iy)] it keeps
    in the domain of [x] exactly the words [X] for which some [Y] of the
    domain of [y] differs from [X] and has [X[ix] = Y[iy]], leaves the other
    domains alone, and returns true exactly when a word was removed. *)
Theorem revise_contract (cw : Crossword) (x y : Var) (doms : Domains)
    (ov : option (nat * nat)) :
  dict_get (overlaps cw) (x, y) = Some ov ->
  match ov with
  | None => revise cw x y doms = Ok (false, doms)
  | Some (ix, iy) =>
      forall dx dy,
        x <> y -> doms !! x = Some dx -> doms !! y = Some dy ->
        long_enough ix dx -> long_enough iy dy ->
        exists revised doms' dx',
          revise cw x y doms = Ok (revised, doms') /\
          doms' !! x = Some dx' /\
          (forall X, In X dx' <->
             In X dx /\ exists Y, In Y dy /\ X <> Y /\
                                  String.get ix X = String.get iy Y) /\
          (forall z, z <> x -> doms' !! z = doms !! z) /\
          (revised = true <-> exists X, In X dx /\ ~ In X dx')
  end.
Proof.
  intros Hov. destruct ov as [[ix iy]|]; [|now apply revise_None].
  intros dx dy Hxy Hdx Hdy Hlx Hly.
  exists (negb (forallb (supported ix iy dy) dx)),
         (<[x := List.filter (supported ix iy dy) dx]> doms),
         (List.filter (supported ix iy dy) dx).
  assert (Hsupp : forall X, In X dx ->
            supported ix iy dy X = true <->
            exists Y, In Y dy /\ X <> Y /\ String.get ix X = String.get iy Y).
  { intros X HX. unfold supported. rewrite existsb_exists.
    assert (HlX : ix < String.length X).
    { unfold long_enough in Hlx. rewrite Forall_forall in Hlx.
      apply Hlx, list_elem_of_In, HX. }
    split; intros (Y & HY & H); exists Y; (split; [exact HY|]);
      (assert (HlY : iy < String.length Y);
       [unfold long_enough in Hly; rewrite Forall_forall in Hly;
        apply Hly, list_elem_of_In, HY|]);
      now apply (compatible_spec ix iy X Y HlX HlY). }
  split; [now apply revise_Some|].
  split; [apply lookup_insert_eq|].
  split; [|split].
  - intros X. rewrite filter_In. split.
    + intros [HX Hs]. split; [exact HX|]. now apply Hsupp.
    + intros [HX Hs]. split; [exact HX|]. now apply Hsupp.
  - intros z Hz. now rewrite lookup_insert_ne by auto.
  - rewrite negb_true_iff. split.
    + intros Hall.
      destruct (forallb_false_ex (supported ix iy dy) dx Hall) as (X & HX & Hs).
      exists X. split; [exact HX|]. rewrite filter_In. intros [_ Hs']. congruence.
    + intros (X & HX & Hnot). apply not_true_iff_false. intros Hall.
      rewrite forallb_forall in Hall. apply Hnot, filter_In. auto.
Qed.

Lemma revise_contract_witness :
  exists revised doms' dx',
    revise cw_cat var_x var_y doms_cat = Ok (revised, doms') /\
    doms' !! var_x = Some dx' /\
    (forall X, In X dx' <->
       In X ["CAT"; "DOG"; "TAN"] /\
       exists Y, In Y ["CAT"; "DOG"; "TAN"] /\ X <> Y /\
                 String.get 2 X = String.get 0 Y) /\
    (forall z, z <> var_x -> doms' !! z = doms_cat !! z) /\
    (revised = true <-> exists X, In X ["CAT"; "DOG"; "TAN"] /\ ~ In X dx').
Proof.
  apply (revise_contract cw_cat var_x var_y doms_cat (Some (2, 0))).
  - reflexivity.
  - discriminate.
  - vm_compute. reflexivity.
  - vm_compute. reflexivity.
  - repeat constructor.
  - repeat constructor.
Defined.

(** C7: [ac3] without arcs starts from every pair with a defined overlap.
    Every run of [ac3] is a run of the first-in first-out worklist of the
    specification: it pops [(x, y)] at the front and revises; it answers
    false at once when the revision emptied the domain of [x]; after another
    revision it appends at the back the arc [(z, x)] of every variable [z]
    with a defined overlap with [x], [y] apart, each once and in no stated
    order; it answers true when the worklist is drained.  The answer true
    comes with an empty worklist and with no domain emptied, the answer false
    with an empty domain; the loop always ends, and on a well-formed
    crossword with a node-consistent store it ends with an answer. *)
Theorem ac3_fifo (cw : Crossword) (doms : Domains) :
  (forall x y, In (x, y) (initial_arcs cw) <->
     exists i j, dict_get (overlaps cw) (x, y) = Some (Some (i, j))) /\
  ac3 cw doms None = ac3 cw doms (Some (initial_arcs cw)) /\
  (forall arcs r, ac3 cw doms (Some arcs) = Ok r -> worklist_run cw doms arcs r) /\
  (forall arcs doms' rest,
     ac3 cw doms (Some arcs) = Ok (true, doms', rest) ->
     rest = [] /\
     forall v d, doms !! v = Some d -> d <> [] ->
       exists d', doms' !! v = Some d' /\ d' <> []) /\
  (forall arcs doms' rest,
     ac3 cw doms (Some arcs) = Ok (false, doms', rest) ->
     exists x, doms' !! x = Some []) /\
  (forall arcs, ac3 cw doms arcs <> OutOfFuel) /\
  (well_formed cw = true -> node_consistent cw doms = true ->
   exists r, ac3 cw doms None = Ok r).
Proof.
  split; [|split; [|split; [|split; [|split; [|split]]]]].
  - intros x y. rewrite initial_arcs_spec. apply has_overlap_spec.
  - apply ac3_None.
  - intros arcs r H. apply ac3_Some_run in H. now apply fifo_run_worklist.
  - intros arcs doms' rest H. apply ac3_Some_run in H.
    now apply fifo_run_true in H.
  - intros arcs doms' rest H. apply ac3_Some_run in H.
    now apply ac3_run_false in H.
  - intros arcs. apply ac3_not_out.
  - intros Hwf Hnc. apply well_formed_WF in Hwf. apply node_consistent_NC in Hnc.
    destruct (ac3 cw doms None) as [r|e|] eqn:Hrun; [eauto| |].
    + exfalso. unfold ac3 in Hrun.
      exact (ac3_loop_no_raise cw Hwf _ doms _ e Hnc (initial_arcs_valid cw) Hrun).
    + exfalso. exact (ac3_not_out cw doms None Hrun).
Qed.

(** C8: when a call of [backtrack] returns "failure", the assignment it
    leaves, [a'], is the assignment it was given: every binding inserted
    during the call, at any depth, has been removed. *)
Theorem backtrack_failure_restores (cw : Crossword) (doms : Domains)
    (assignment a' : Assignment) :
  backtrack cw doms assignment = Ok (VStr "failure", a') ->
  a' = assignment.
Proof.
  unfold backtrack. intros H. now apply backtrack_fuel_restores in H.
Qed.

Lemma backtrack_failure_restores_witness :
  backtrack cw_cat doms_stuck [] = Ok (VStr "failure", []) /\
  ([] : Assignment) = [].
Proof.
  assert (H : backtrack cw_cat doms_stuck [] = Ok (VStr "failure", []))
    by (vm_compute; reflexivity).
  split; [exact H|].
  exact (backtrack_failure_restores cw_cat doms_stuck [] [] H).
Defined.

(** C9: the domains after [ac3] are parts of the domains before; and on a
    well-formed crossword with a node-consistent store [ac3] returns, and a
    second run on the store left by a successful run changes nothing. *)
Theorem ac3_monotone_idempotent (cw : Crossword) (doms : Domains) :
  (forall arcs b doms' rest,
     ac3 cw doms arcs = Ok (b, doms', rest) ->
     forall v d', doms' !! v = Some d' ->
       exists d, doms !! v = Some d /\ forall w, In w d' -> In w d) /\
  (well_formed cw = true -> node_consistent cw doms = true ->
   exists b doms' rest,
     ac3 cw doms None = Ok (b, doms', rest) /\
     (b = true -> ac3 cw doms' None = Ok (true, doms', []))).
Proof.
  split.
  - intros arcs b doms' rest H v d' Hd'.
    assert (Hrun : fifo_run cw doms
                     (match arcs with None => initial_arcs cw | Some l => l end)
                     (b, doms', rest)).
    { destruct arcs; apply ac3_Some_run; exact H. }
    apply ac3_run_le in Hrun. exact (Hrun v d' Hd').
  - intros Hwf Hnc. apply well_formed_WF in Hwf. apply node_consistent_NC in Hnc.
    destruct (ac3 cw doms None) as [[[b doms'] rest]|e|] eqn:Hrun.
    + exists b, doms', rest. split; [reflexivity|]. intros ->.
      rewrite ac3_None in Hrun. apply ac3_Some_run in Hrun.
      destruct (ac3_run_inv cw Hwf doms _ _ Hrun Hnc (initial_arcs_valid cw)
                  (Inv_initial cw doms) eq_refl) as (_ & Hnc' & Hinv').
      rewrite ac3_None. apply ac3_Some_run.
      apply ac3_run_fixpoint; auto using initial_arcs_valid.
    + exfalso. unfold ac3 in Hrun.
      exact (ac3_loop_no_raise cw Hwf _ doms _ e Hnc (initial_arcs_valid cw) Hrun).
    + exfalso. exact (ac3_not_out cw doms None Hrun).
Qed.

Lemma ac3_monotone_idempotent_witness :
  exists doms',
    ac3 cw_cat doms_cat None = Ok (true, doms', []) /\
    ac3 cw_cat doms' None = Ok (true, doms', []).
Proof.
  destruct (proj2 (ac3_monotone_idempotent cw_cat doms_cat) eq_refl eq_refl)
    as (b & doms' & rest & Hrun & Hfix).
  assert (Hc : exists d, ac3 cw_cat doms_cat None = Ok (true, d, []))
    by (vm_compute; eexists; reflexivity).
  destruct Hc as [d Hd]. rewrite Hd in Hrun. injection Hrun as <- <- <-.
  exists d. split; [exact Hd|]. now apply Hfix.
Defined.

(** C10: [ac3] called with a list of arcs works on that very list.  What
    the list holds on return, [arcs'], is the supplied list, extended at its
    back by the arcs [pushed] and with the arcs [processed] popped from its
    front.  The arcs [processed] are the arcs that were revised, one after
    the other in this order, and [pushed] are exactly the arcs generated by
    these revisions, in the order of their generation; when the answer is
    false, the last arc popped is the one whose revision emptied a domain.
    The list is empty whenever [ac3] returns true, every supplied and every
    generated arc having been processed, so that a non-empty list does not
    come back as it was supplied. *)
Theorem ac3_consumes_supplied_arcs (cw : Crossword) (doms doms' : Domains)
    (arcs arcs' : list Arc) (b : bool) :
  ac3 cw doms (Some arcs) = Ok (b, doms', arcs') ->
  (b = true -> arcs' = []) /\
  (b = true -> arcs <> [] -> arcs' <> arcs) /\
  exists processed pushed,
    arcs ++ pushed = processed ++ arcs' /\
    (arcs <> [] -> processed <> []) /\
    if b
    then consumed cw doms processed doms' pushed
    else exists p x y doms1,
           processed = p ++ [(x, y)] /\ consumed cw doms p doms1 pushed /\
           revise cw x y doms1 = Ok (true, doms') /\ doms' !! x = Some [].
Proof.
  intros H. apply ac3_Some_run in H.
  assert (Hempty : b = true -> arcs' = []).
  { intros ->. now apply fifo_run_true in H as [H _]. }
  split; [exact Hempty|]. split.
  - intros Hb Hne Heq. apply Hne. rewrite <- Heq. now apply Hempty.
  - exact (fifo_run_consumed _ _ _ _ H).
Qed.

Lemma ac3_consumes_supplied_arcs_witness :
  exists doms',
    ac3 cw_comb3 doms_push (Some [(slot_top, slot_left)]) = Ok (true, doms', []) /\
    exists processed pushed,
      [(slot_top, slot_left)] ++ pushed = processed ++ [] /\
      consumed cw_comb3 doms_push processed doms' pushed.
Proof.
  assert (H : exists doms',
            ac3 cw_comb3 doms_push (Some [(slot_top, slot_left)])
            = Ok (true, doms', []))
    by (vm_compute; eexists; reflexivity).
  destruct H as [doms' H]. exists doms'. split; [exact H|].
  destruct (ac3_consumes_supplied_arcs _ _ _ _ _ _ H)
    as (_ & _ & processed & pushed & Heq & _ & Hc).
  exists processed, pushed. split; [exact Heq|exact Hc].
Defined.

(** * Further properties of the code *)

(** ** Node consistency *)

Lemma enforce_node_consistency_lookup (doms : Domains) v :
  enforce_node_consistency doms !! v =
  List.filter (fun w => Nat.eqb (String.length w) (var_length v)) <$> doms !! v.
Proof.
  unfold enforce_node_consistency. rewrite map_lookup_imap.
  now destruct (doms !! v).
Qed.

Lemma filter_idem {A} (f : A -> bool) (l : list A) :
  List.filter f (List.filter f l) = List.filter f l.
Proof.
  rewrite filter_filter_and. apply filter_ext. intros a. now destruct (f a).
Qed.

Lemma enforce_words_Ok (v : Var) (copy : list string) :
  forall (doms : Domains) d, doms !! v = Some d ->
    enforce_words v copy doms =
    Ok (<[v := List.filter (fun w => negb (existsb (fun c =>
                 String.eqb w c
                 && negb (Nat.eqb (String.length c) (var_length v))) copy)) d]>
          doms).
Proof.
  induction copy as [|word copy IH]; intros doms d Hd; simpl.
  - f_equal. symmetry. apply insert_id. rewrite Hd. f_equal. clear Hd.
    induction d as [|w d IHd]; simpl; [reflexivity|]. now f_equal.
  - destruct (Nat.eqb (String.length word) (var_length v)) eqn:Hfit; simpl.
    + rewrite (IH doms d Hd). do 2 f_equal. apply filter_ext. intros w.
      now rewrite andb_false_r.
    + unfold domains_get. rewrite Hd. simpl.
      rewrite (IH _ (set_remove word d)) by apply lookup_insert_eq.
      rewrite insert_insert_eq. do 2 f_equal.
      unfold set_remove. rewrite filter_filter_and. apply filter_ext.
      intros w. now rewrite andb_true_r, negb_orb.
Qed.

Lemma enforce_words_copy (v : Var) (doms : Domains) d :
  doms !! v = Some d ->
  enforce_words v d doms =
  Ok (<[v := List.filter (fun w => Nat.eqb (String.length w) (var_length v)) d]>
        doms).
Proof.
  intros Hd. rewrite (enforce_words_Ok v d doms d Hd). do 2 f_equal.
  apply filter_ext_in. intros w Hw.
  destruct (Nat.eqb (String.length w) (var_length v)) eqn:Hfit.
  - apply negb_true_iff. apply not_true_is_false. intros Hex.
    apply existsb_exists in Hex as (c & _ & Hc).
    apply andb_true_iff in Hc as [Heq Hc]. apply String.eqb_eq in Heq.
    subst c. now rewrite Hfit in Hc.
  - apply negb_false_iff. apply existsb_exists. exists w. split; [exact Hw|].
    now rewrite String.eqb_refl, Hfit.
Qed.

Lemma enforce_loop_Ok (keys : list Var) :
  forall doms : Domains,
    (forall v, In v keys -> exists d, doms !! v = Some d) ->
    exists doms', enforce_loop keys doms = Ok doms' /\
      forall v, doms' !! v =
        if inb v keys
        then List.filter (fun w => Nat.eqb (String.length w) (var_length v))
             <$> doms !! v
        else doms !! v.
Proof.
  induction keys as [|u keys IH]; intros doms Hkeys; simpl.
  - exists doms. split; [reflexivity|]. intros v. unfold inb.
    now destruct (in_dec Var_eq_dec v []).
  - destruct (Hkeys u (or_introl eq_refl)) as [d Hd].
    unfold domains_get at 1. rewrite Hd. simpl.
    rewrite (enforce_words_copy u doms d Hd). simpl.
    set (doms1 := <[u := List.filter _ d]> doms).
    destruct (IH doms1) as (doms' & Hrun & Hlook).
    { intros v Hv. destruct (decide (v = u)) as [->|Hne].
      - eexists. apply lookup_insert_eq.
      - destruct (Hkeys v (or_intror Hv)) as [dv Hdv]. exists dv.
        unfold doms1. now rewrite lookup_insert_ne. }
    exists doms'. split; [exact Hrun|]. intros v. rewrite Hlook.
    assert (Hinb : forall l, inb v l = true <-> In v l).
    { intros l. unfold inb.
      destruct (in_dec Var_eq_dec v l); split; auto; discriminate. }
    destruct (decide (v = u)) as [->|Hne].
    + replace (inb u (u :: keys)) with true by (symmetry; apply Hinb; now left).
      unfold doms1. rewrite lookup_insert_eq, Hd.
      destruct (inb u keys); cbn; now rewrite ?filter_idem.
    + unfold doms1. rewrite lookup_insert_ne by auto.
      destruct (inb v keys) eqn:Hk, (inb v (u :: keys)) eqn:Hk'; try reflexivity.
      * apply Hinb in Hk. assert (Hin : In v (u :: keys)) by now right.
        apply Hinb in Hin. congruence.
      * apply Hinb in Hk'. destruct Hk' as [->|Hin]; [now elim Hne|].
        apply Hinb in Hin. congruence.
Qed.

(** X1: the two loops of [enforce_node_consistency], which run over a copy
    of each domain and remove from the domain itself, end normally in
    whatever order the dictionary yields its keys, and leave under each key
    exactly the words whose length is the length of the variable, in their
    order: the store [enforce_node_consistency doms]. *)
Theorem node_consistency_keeps_fitting_words (doms : Domains)
    (keys : list Var) :
  (forall v, In v keys <-> exists d, doms !! v = Some d) ->
  enforce_loop keys doms = Ok (enforce_node_consistency doms) /\
  forall v d, doms !! v = Some d ->
    exists d', enforce_node_consistency doms !! v = Some d' /\
      (forall w, In w d' <-> In w d /\ String.length w = var_length v) /\
      sublist d' d.
Proof.
  intros Hkeys. split.
  - destruct (enforce_loop_Ok keys doms) as (doms' & Hrun & Hlook).
    { intros v Hv. now apply Hkeys. }
    rewrite Hrun. f_equal. apply map_eq. intros v.
    rewrite Hlook, enforce_node_consistency_lookup. unfold inb.
    destruct (in_dec Var_eq_dec v keys) as [Hin|Hout]; [reflexivity|].
    destruct (doms !! v) as [d|] eqn:Hd; [|reflexivity].
    elim Hout. apply Hkeys. eauto.
  - intros v d Hd. rewrite enforce_node_consistency_lookup, Hd. simpl.
    eexists. split; [reflexivity|]. split.
    + intros w. rewrite filter_In, Nat.eqb_eq. reflexivity.
    + clear Hd. induction d as [|w d IH]; simpl; [constructor|].
      destruct (Nat.eqb _ _); now constructor.
Qed.

Lemma init_domains_lookup_None cw v :
  ~ In v (variables cw) -> init_domains cw !! v = None.
Proof.
  unfold init_domains. induction (variables cw) as [|u l IH]; simpl; [reflexivity|].
  intros Hv. rewrite lookup_insert_ne by (intros ->; apply Hv; now left).
  apply IH. intros Hin. apply Hv. now right.
Qed.

Lemma node_consistency_keeps_fitting_words_witness :
  enforce_loop (variables cw_corner) (init_domains cw_corner)
  = Ok (enforce_node_consistency (init_domains cw_corner)).
Proof.
  apply (node_consistency_keeps_fitting_words (init_domains cw_corner)
           (variables cw_corner)).
  intros v. split.
  - intros Hv. exists (words cw_corner). now apply init_domains_lookup.
  - intros [d Hd]. destruct (in_dec Var_eq_dec v (variables cw_corner)) as [Hin|Hout];
      [exact Hin|]. now rewrite init_domains_lookup_None in Hd.
Defined.

(** X2: running [enforce_node_consistency] a second time changes nothing. *)
Theorem node_consistency_idempotent (doms : Domains) :
  enforce_node_consistency (enforce_node_consistency doms)
  = enforce_node_consistency doms.
Proof.
  apply map_eq. intros v. rewrite !enforce_node_consistency_lookup.
  destruct (doms !! v) as [d|]; simpl; [|reflexivity].
  now rewrite filter_idem.
Qed.

(** ** [revise] *)

(** X4: a revision never adds a word and touches the domain of [x] only:
    when it answers false the store is unchanged, when it answers true the
    domain of [x] has become a strictly smaller part of what it was. *)
Theorem revise_only_shrinks (cw : Crossword) (x y : Var) (doms doms' : Domains)
    (revised : bool) :
  revise cw x y doms = Ok (revised, doms') ->
  (revised = false /\ doms' = doms) \/
  (revised = true /\
   exists dx dx', doms !! x = Some dx /\ doms' = <[x := dx']> doms /\
                  incl dx' dx /\ List.length dx' < List.length dx).
Proof.
  intros H. apply revise_shrinks in H as [[-> ->]|[(dx & dx' & Hx & -> & Hi & Hl) ->]].
  - now left.
  - right. split; [reflexivity|]. exists dx, dx'. repeat split; auto. lia.
Qed.

Lemma revise_only_shrinks_witness :
  exists dx dx',
    doms_cat !! var_x = Some dx /\
    <[var_x := ["CAT"]]> doms_cat = <[var_x := dx']> doms_cat /\
    incl dx' dx /\ List.length dx' < List.length dx.
Proof.
  assert (H : revise cw_cat var_x var_y doms_cat
              = Ok (true, <[var_x := ["CAT"]]> doms_cat))
    by (vm_compute; reflexivity).
  destruct (revise_only_shrinks cw_cat var_x var_y _ _ _ H) as [[Hf _]|[_ Hs]];
    [discriminate|exact Hs].
Defined.

(** X5: revising the same arc a second time, with nothing changed in
    between, removes nothing and answers false. *)
Theorem revise_twice (cw : Crossword) (x y : Var) (doms doms' : Domains)
    (ix iy : nat) (dx dy : list string) (revised : bool) :
  dict_get (overlaps cw) (x, y) = Some (Some (ix, iy)) ->
  x <> y -> doms !! x = Some dx -> doms !! y = Some dy ->
  long_enough ix dx -> long_enough iy dy ->
  revise cw x y doms = Ok (revised, doms') ->
  revise cw x y doms' = Ok (false, doms').
Proof.
  intros Hov Hxy Hdx Hdy Hlx Hly H.
  rewrite (revise_Some cw x y doms ix iy dx dy Hov Hxy Hdx Hdy Hlx Hly) in H.
  injection H as _ <-.
  set (dx' := List.filter (supported ix iy dy) dx).
  assert (Hlx' : long_enough ix dx').
  { unfold long_enough in *. rewrite Forall_forall in *. intros w Hw.
    apply Hlx. apply list_elem_of_In. apply list_elem_of_In in Hw.
    apply filter_In in Hw. tauto. }
  rewrite (revise_Some cw x y (<[x := dx']> doms) ix iy dx' dy Hov Hxy);
    [|apply lookup_insert_eq|now rewrite lookup_insert_ne|exact Hlx'|exact Hly].
  assert (Hall : forallb (supported ix iy dy) dx' = true) by apply forallb_filter.
  rewrite Hall, (forallb_filter_true _ _ Hall), insert_insert_eq. reflexivity.
Qed.

Lemma revise_twice_witness :
  revise cw_cat var_x var_y (<[var_x := ["CAT"]]> doms_cat)
  = Ok (false, <[var_x := ["CAT"]]> doms_cat).
Proof.
  apply (revise_twice cw_cat var_x var_y doms_cat _ 2 0
           ["CAT"; "DOG"; "TAN"] ["CAT"; "DOG"; "TAN"] true).
  - reflexivity.
  - discriminate.
  - vm_compute. reflexivity.
  - vm_compute. reflexivity.
  - repeat constructor.
  - repeat constructor.
  - vm_compute. reflexivity.
Defined.

Lemma revise_loop_empty_partner ix iy (x y : Var) Xs :
  x <> y ->
  forall (doms : Domains) dcur revised,
    doms !! x = Some dcur -> doms !! y = Some [] ->
    revise_loop ix iy x y Xs doms revised =
      Ok (revised || match Xs with [] => false | _ => true end,
          <[x := List.filter (fun w => negb (existsb (String.eqb w) Xs)) dcur]> doms).
Proof.
  intros Hxy. induction Xs as [|X Xs IH]; intros doms dcur revised Hx Hy; simpl.
  - rewrite orb_false_r, filter_true. now rewrite insert_id.
  - unfold domains_get. rewrite Hy. simpl. rewrite Hx. simpl.
    rewrite (IH _ (set_remove X dcur) true);
      [|apply lookup_insert_eq|now rewrite lookup_insert_ne].
    rewrite insert_insert_eq, orb_true_r. simpl. f_equal. f_equal. f_equal.
    unfold set_remove. rewrite filter_filter_and. apply filter_ext.
    intros w. now rewrite negb_orb.
Qed.

(** X6: against an empty domain of [y] no letter is ever read: the revision
    removes every word of the domain of [x], whatever their lengths, and
    answers true unless that domain was empty already. *)
Theorem revise_against_empty_domain (cw : Crossword) (x y : Var)
    (doms : Domains) (ix iy : nat) (dx : list string) :
  dict_get (overlaps cw) (x, y) = Some (Some (ix, iy)) ->
  x <> y -> doms !! x = Some dx -> doms !! y = Some [] ->
  revise cw x y doms =
    Ok (match dx with [] => false | _ => true end, <[x := []]> doms).
Proof.
  intros Hov Hxy Hdx Hdy. unfold revise, overlaps_get. rewrite Hov. simpl.
  unfold domains_get. rewrite Hdx. simpl.
  rewrite (revise_loop_empty_partner ix iy x y dx Hxy doms dx false Hdx Hdy).
  simpl. f_equal. f_equal. f_equal.
  assert (H : forall l, incl l dx ->
            List.filter (fun w => negb (existsb (String.eqb w) dx)) l = []).
  { induction l as [|w l IH]; intros Hl; simpl; [reflexivity|].
    assert (Hw : existsb (String.eqb w) dx = true).
    { apply existsb_exists. exists w. split; [apply Hl; now left|apply String.eqb_refl]. }
    rewrite Hw. simpl. apply IH. intros a Ha. apply Hl. now right. }
  apply H, incl_refl.
Qed.

Lemma revise_against_empty_domain_witness :
  revise cw_cat var_x var_y (<[var_y := []]> (<[var_x := ["A"; "CAT"]]> doms_cat))
  = Ok (true, <[var_x := []]> (<[var_y := []]> (<[var_x := ["A"; "CAT"]]> doms_cat))).
Proof.
  apply (revise_against_empty_domain cw_cat var_x var_y _ 2 0 ["A"; "CAT"]).
  - reflexivity.
  - discriminate.
  - vm_compute. reflexivity.
  - vm_compute. reflexivity.
Defined.

(** X7: a word too short for the overlap index is not skipped: as soon as
    both domains hold a word, and the first word of [x] or, that one being
    long enough, the first word of [y] does not reach its index, the
    revision raises [IndexError]. *)
Theorem revise_index_error (cw : Crossword) (x y : Var) (doms : Domains)
    (ix iy : nat) (X Y : string) (dx dy : list string) :
  dict_get (overlaps cw) (x, y) = Some (Some (ix, iy)) ->
  doms !! x = Some (X :: dx) -> doms !! y = Some (Y :: dy) ->
  String.length X <= ix \/ String.length Y <= iy ->
  revise cw x y doms = Raise IndexError.
Proof.
  intros Hov Hdx Hdy Hshort. unfold revise, overlaps_get. rewrite Hov. simpl.
  unfold domains_get. rewrite Hdx. simpl.
  unfold domains_get. rewrite Hdy. simpl.
  assert (Hget : forall s k, String.length s <= k -> String.get k s = None).
  { induction s as [|a s IH]; intros k Hk; simpl in *; [now destruct k|].
    destruct k as [|k]; [lia|]. apply IH. lia. }
  unfold str_index at 1. destruct (String.get ix X) as [cx|] eqn:HX; simpl; [|reflexivity].
  destruct Hshort as [HsX|HsY]; [now rewrite (Hget X ix HsX) in HX|].
  unfold str_index at 1. now rewrite (Hget Y iy HsY).
Qed.

Lemma revise_index_error_witness :
  revise cw_cat var_x var_y (init_domains (mkCrossword [var_x; var_y] [] ["A"]))
  = Raise IndexError.
Proof.
  apply (revise_index_error cw_cat var_x var_y _ 2 0 "A" "A" [] []).
  - reflexivity.
  - vm_compute. reflexivity.
  - vm_compute. reflexivity.
  - left. simpl. lia.
Defined.

(** ** [ac3] *)

Lemma ac3_wf_Ok cw (doms : Domains) :
  WF cw -> NC cw doms -> exists r, ac3 cw doms None = Ok r.
Proof.
  intros Hwf Hnc. destruct (ac3 cw doms None) as [r|e|] eqn:Hrun; [eauto| |].
  - exfalso. unfold ac3 in Hrun.
    exact (ac3_loop_no_raise cw Hwf _ doms _ e Hnc (initial_arcs_valid cw) Hrun).
  - exfalso. exact (ac3_not_out cw doms None Hrun).
Qed.

(** X8: on a well-formed crossword and a node-consistent store, a run of
    [ac3] that answers true leaves the store arc consistent: every word left
    in the domain of [x] has, for every arc from [x] to [y], a different word
    in the domain of [y] with the same letter at the overlap. *)
Theorem ac3_true_arc_consistent (cw : Crossword) (doms doms' : Domains)
    (rest : list Arc) :
  well_formed cw = true -> node_consistent cw doms = true ->
  ac3 cw doms None = Ok (true, doms', rest) ->
  forall x y i j dx dy,
    dict_get (overlaps cw) (x, y) = Some (Some (i, j)) ->
    doms' !! x = Some dx -> doms' !! y = Some dy ->
    forall X, In X dx ->
      exists Y, In Y dy /\ X <> Y /\ String.get i X = String.get j Y.
Proof.
  intros Hwf Hnc Hrun x y i j dx dy Hov Hdx Hdy X HX.
  apply well_formed_WF in Hwf. apply node_consistent_NC in Hnc.
  rewrite ac3_None in Hrun. apply ac3_Some_run in Hrun.
  destruct (ac3_run_inv cw Hwf doms _ _ Hrun Hnc (initial_arcs_valid cw)
              (Inv_initial cw doms) eq_refl) as (_ & Hnc' & Hinv). simpl in *.
  destruct (Hinv x y) as [[]|Hc]; [apply has_overlap_spec; eauto|].
  specialize (Hc i j dx dy Hov Hdx Hdy). rewrite forallb_forall in Hc.
  specialize (Hc X HX). unfold supported in Hc.
  apply existsb_exists in Hc as (Y & HY & Hcomp).
  destruct (Hwf x y i j Hov) as (_ & Hx & Hy & Hi & Hj & _).
  pose proof (NC_long cw doms' x i dx Hnc' Hx Hi Hdx) as Hlx.
  pose proof (NC_long cw doms' y j dy Hnc' Hy Hj Hdy) as Hly.
  unfold long_enough in *. rewrite Forall_forall in Hlx, Hly.
  exists Y. split; [exact HY|].
  apply (compatible_spec i j X Y); auto.
  - apply Hlx, list_elem_of_In, HX.
  - apply Hly, list_elem_of_In, HY.
Qed.

Lemma ac3_true_arc_consistent_witness :
  exists Y, In Y ["TAN"] /\ "CAT" <> Y /\ String.get 2 "CAT" = String.get 0 Y.
Proof.
  apply (ac3_true_arc_consistent cw_cat doms_cat
           (list_to_map [(var_x, ["CAT"]); (var_y, ["TAN"])]) []
           eq_refl eq_refl) with (x := var_x) (y := var_y) (dx := ["CAT"]).
  - vm_compute. reflexivity.
  - reflexivity.
  - vm_compute. reflexivity.
  - vm_compute. reflexivity.
  - now left.
Defined.

Section Solutions.
Variable cw : Crossword.
Hypothesis Hwf : WF cw.
Variable sigma : Var -> string.

Lemma arc_solution_revise (doms : Domains) x y i j dx dy :
  dict_get (overlaps cw) (x, y) = Some (Some (i, j)) ->
  doms !! x = Some dx -> doms !! y = Some dy ->
  arc_solution cw doms sigma ->
  arc_solution cw (<[x := List.filter (supported i j dy) dx]> doms) sigma /\
  List.filter (supported i j dy) dx <> [].
Proof.
  intros Hov Hdx Hdy [Hin Hcomp].
  destruct (Hwf x y i j Hov) as (Hxy & Hx & Hy & _).
  assert (Hsx : In (sigma x) (List.filter (supported i j dy) dx)).
  { apply filter_In. destruct (Hin x Hx) as (d & Hd & Hs).
    assert (d = dx) by congruence. subst d. split; [exact Hs|].
    apply existsb_exists. exists (sigma y). split; [|now apply Hcomp].
    destruct (Hin y Hy) as (d & Hd' & Hs'). congruence. }
  split; [|intros Hnil; now rewrite Hnil in Hsx].
  split; [|exact Hcomp]. intros v Hv.
  destruct (decide (x = v)) as [<-|Hne].
  - rewrite lookup_insert_eq. eauto.
  - rewrite lookup_insert_ne by exact Hne. auto.
Qed.

Lemma fifo_run_solution (doms : Domains) arcs r :
  fifo_run cw doms arcs r ->
  NC cw doms -> valid_arcs cw arcs -> arc_solution cw doms sigma ->
  fst (fst r) = true /\ arc_solution cw (snd (fst r)) sigma.
Proof.
  induction 1 as [doms|doms doms' x y rest r Hrev _ IH
                 |doms doms' x y rest Hrev Hx
                 |doms doms' x y rest dx r Hrev Hx Hne _ IH];
    intros Hnc Hval Hsol; simpl in *.
  - auto.
  - apply Forall_cons in Hval as [Hxy Hrest]. simpl in Hxy.
    apply has_overlap_spec in Hxy as (i & j & Hov).
    destruct (revise_wf cw Hwf doms x y i j Hnc Hov) as (dx & dy & Hdx & Hdy & Hrev').
    rewrite Hrev' in Hrev. injection Hrev as _ <-.
    destruct (arc_solution_revise doms x y i j dx dy Hov Hdx Hdy Hsol) as [Hsol' _].
    apply IH; auto.
    eapply (NC_shrinks cw x 0); [|exact Hnc].
    exists dx, (List.filter (supported i j dy) dx). repeat split; auto.
    + apply filter_incl'.
    + pose proof (filter_length_le' (supported i j dy) dx). lia.
  - exfalso. apply Forall_cons in Hval as [Hxy Hrest]. simpl in Hxy.
    apply has_overlap_spec in Hxy as (i & j & Hov).
    destruct (revise_wf cw Hwf doms x y i j Hnc Hov) as (dx & dy & Hdx & Hdy & Hrev').
    rewrite Hrev' in Hrev. injection Hrev as _ <-.
    destruct (arc_solution_revise doms x y i j dx dy Hov Hdx Hdy Hsol) as [_ Hnil].
    rewrite lookup_insert_eq in Hx. injection Hx as Hx. contradiction.
  - apply Forall_cons in Hval as [Hxy Hrest]. simpl in Hxy.
    apply has_overlap_spec in Hxy as (i & j & Hov).
    destruct (revise_wf cw Hwf doms x y i j Hnc Hov) as (dx0 & dy & Hdx & Hdy & Hrev').
    rewrite Hrev' in Hrev. injection Hrev as _ <-.
    destruct (arc_solution_revise doms x y i j dx0 dy Hov Hdx Hdy Hsol) as [Hsol' _].
    apply IH; auto.
    + eapply (NC_shrinks cw x 0); [|exact Hnc].
      exists dx0, (List.filter (supported i j dy) dx0). repeat split; auto.
      * apply filter_incl'.
      * pose proof (filter_length_le' (supported i j dy) dx0). lia.
    + now apply valid_arcs_pushed.
Qed.

Lemma ac3_solution (doms : Domains) :
  NC cw doms -> arc_solution cw doms sigma ->
  exists doms', ac3 cw doms None = Ok (true, doms', []) /\
                NC cw doms' /\ arc_solution cw doms' sigma.
Proof.
  intros Hnc Hsol. destruct (ac3_wf_Ok cw doms Hwf Hnc) as [[[b doms'] rest] Hrun].
  pose proof Hrun as Hrun'. rewrite ac3_None in Hrun'. apply ac3_Some_run in Hrun'.
  destruct (fifo_run_solution doms _ _ Hrun' Hnc (initial_arcs_valid cw) Hsol)
    as [Hb Hsol']. simpl in *. subst b.
  destruct (ac3_run_inv cw Hwf doms _ _ Hrun' Hnc (initial_arcs_valid cw)
              (Inv_initial cw doms) eq_refl) as (Hrest & Hnc' & _). simpl in *.
  subst rest. eauto.
Qed.

End Solutions.

(** X9: [ac3] never removes a word of a solution.  On a well-formed
    crossword and a node-consistent store, if some choice of one word per
    domain passes the test of [revise] on every arc, then [ac3] answers
    true, with an empty worklist, and every chosen word is still in its
    domain. *)
Theorem ac3_keeps_solutions (cw : Crossword) (doms : Domains)
    (sigma : Var -> string) :
  well_formed cw = true -> node_consistent cw doms = true ->
  arc_solution cw doms sigma ->
  exists doms', ac3 cw doms None = Ok (true, doms', []) /\
                arc_solution cw doms' sigma.
Proof.
  intros Hwf Hnc Hsol. apply well_formed_WF in Hwf. apply node_consistent_NC in Hnc.
  destruct (ac3_solution cw Hwf sigma doms Hnc Hsol) as (doms' & Hrun & _ & Hsol').
  eauto.
Qed.

Lemma sigma_cat_solution : arc_solution cw_cat doms_cat sigma_cat.
Proof.
  split.
  - intros v [<-|[<-|[]]].
    + exists ["CAT"; "DOG"; "TAN"]. split; [vm_compute; reflexivity|now left].
    + exists ["CAT"; "DOG"; "TAN"]. split; [vm_compute; reflexivity|]. right. right. now left.
  - intros x y i j H. simpl in H.
    repeat (destruct (decide _) as [Heq|_] in H;
            [injection Heq as <- <-; injection H as <- <-; vm_compute; reflexivity|]).
    discriminate.
Qed.

Lemma ac3_keeps_solutions_witness :
  exists doms', ac3 cw_cat doms_cat None = Ok (true, doms', []) /\
                arc_solution cw_cat doms' sigma_cat.
Proof.
  exact (ac3_keeps_solutions cw_cat doms_cat sigma_cat eq_refl eq_refl
           sigma_cat_solution).
Defined.

Lemma fifo_run_false cw (doms : Domains) arcs r :
  fifo_run cw doms arcs r -> fst (fst r) = false ->
  exists x dx, doms !! x = Some dx /\ dx <> [] /\ snd (fst r) !! x = Some [].
Proof.
  induction 1 as [doms|doms doms' x y rest r Hrev _ IH
                 |doms doms' x y rest Hrev Hx
                 |doms doms' x y rest dx r Hrev Hx Hne _ IH];
    intros Hb; simpl in *; try discriminate.
  - destruct (IH Hb) as (z & dz & Hz & Hnz & Hz').
    destruct (revise_le _ _ _ _ _ _ Hrev z dz Hz) as (d & Hd & Hincl).
    exists z, d. repeat split; auto. intros ->. destruct dz; [contradiction|].
    apply (Hincl s). now left.
  - apply revise_shrinks in Hrev as [[_ [=]]|[(dx & dx' & Hdx & -> & _ & Hlen) _]].
    exists x, dx. repeat split; auto. intros ->. simpl in Hlen. lia.
  - destruct (IH Hb) as (z & dz & Hz & Hnz & Hz').
    destruct (revise_le _ _ _ _ _ _ Hrev z dz Hz) as (d & Hd & Hincl).
    exists z, d. repeat split; auto. intros ->. destruct dz; [contradiction|].
    apply (Hincl s). now left.
Qed.

(** X10: [ac3] answers false only for a domain that it emptied itself: some
    variable had words at the start and has none at the end.  A domain that
    is empty from the start is never the reason of a false answer. *)
Theorem ac3_false_emptied_a_domain (cw : Crossword) (doms doms' : Domains)
    (arcs : option (list Arc)) (rest : list Arc) :
  ac3 cw doms arcs = Ok (false, doms', rest) ->
  exists x dx, doms !! x = Some dx /\ dx <> [] /\ doms' !! x = Some [].
Proof.
  intros H.
  assert (Hrun : fifo_run cw doms
                   (match arcs with None => initial_arcs cw | Some l => l end)
                   (false, doms', rest)).
  { destruct arcs; apply ac3_Some_run; exact H. }
  now apply fifo_run_false in Hrun.
Qed.

Lemma ac3_false_emptied_a_domain_witness :
  exists x dx, doms_stuck !! x = Some dx /\ dx <> [] /\
               (<[var_x := []]> doms_stuck) !! x = Some [].
Proof.
  apply (ac3_false_emptied_a_domain cw_cat doms_stuck _ None [(var_y, var_x)]).
  vm_compute. reflexivity.
Defined.

(** ** Sorting and the two heuristics *)

Lemma sort_keyed_pairs {A} (l : list (nat * A)) :
  sort_keyed l = map snd (sorted_pairs l).
Proof. reflexivity. Qed.

Lemma insert_keyed_perm {A} k (x : A) l :
  Permutation (insert_keyed k x l) ((k, x) :: l).
Proof.
  induction l as [|[k' y] l IH]; simpl; [reflexivity|].
  destruct (Nat.leb k k'); [reflexivity|].
  rewrite IH. apply perm_swap.
Qed.

Lemma sorted_pairs_perm {A} (l : list (nat * A)) :
  Permutation (sorted_pairs l) l.
Proof.
  induction l as [|[k x] l IH]; simpl; [reflexivity|].
  rewrite insert_keyed_perm. now constructor.
Qed.

Lemma insert_keyed_ascending {A} k (x : A) l :
  ascending l -> ascending (insert_keyed k x l).
Proof.
  unfold ascending. induction 1 as [|[k' y] l Hl IH Hall]; simpl.
  - constructor; constructor.
  - destruct (Nat.leb k k') eqn:Hle.
    + apply Nat.leb_le in Hle. constructor; [now constructor|].
      constructor; [exact Hle|]. eapply Forall_impl; [exact Hall|].
      simpl. intros b Hb. lia.
    + apply Nat.leb_gt in Hle. constructor; [exact IH|].
      rewrite (insert_keyed_perm k x l). constructor; [simpl; lia|exact Hall].
Qed.

Lemma sorted_pairs_ascending {A} (l : list (nat * A)) : ascending (sorted_pairs l).
Proof.
  induction l as [|[k x] l IH]; simpl; [constructor|].
  now apply insert_keyed_ascending.
Qed.

(** A list whose keys are in order already is left as it is: the sort is
    stable. *)
Lemma sorted_pairs_id {A} (l : list (nat * A)) :
  ascending l -> sorted_pairs l = l.
Proof.
  unfold ascending. induction 1 as [|[k x] l Hl IH Hall]; simpl; [reflexivity|].
  rewrite IH. destruct l as [|[k' y] l]; simpl; [reflexivity|].
  apply Forall_cons in Hall as [Hk _]. simpl in Hk.
  apply Nat.leb_le in Hk. now rewrite Hk.
Qed.

Lemma keyed_In {A} (key : A -> res nat) l r k x :
  keyed key l = Ok r -> In (k, x) r -> key x = Ok k /\ In x l.
Proof.
  revert r. induction l as [|a l IH]; intros r H Hin; simpl in H.
  - injection H as <-. destruct Hin.
  - bind_inv H as k0 Hk0. bind_inv H as r' Hr'. injection H as <-.
    destruct Hin as [[= -> ->]|Hin]; [split; [exact Hk0|now left]|].
    destruct (IH r' Hr' Hin). split; [assumption|now right].
Qed.

Lemma ascending_head {A} (p : nat * A) l q :
  ascending (p :: l) -> In q (p :: l) -> fst p <= fst q.
Proof.
  intros Hs [<-|Hin]; [lia|]. apply StronglySorted_inv in Hs as [_ Hall].
  rewrite Forall_forall in Hall. apply Hall, list_elem_of_In, Hin.
Qed.

Lemma map_snd_cons_inv {A} (l : list (nat * A)) x xs :
  map snd l = x :: xs -> exists k l', l = (k, x) :: l' /\ map snd l' = xs.
Proof.
  destruct l as [|[k y] l']; simpl; [discriminate|]. intros [= -> <-]. eauto.
Qed.

Lemma tied_with_In (doms : Domains) m l t v :
  tied_with doms m l = Ok t ->
  In v t <-> In v l /\ domain_length doms v = Ok m.
Proof.
  revert t. induction l as [|u l IH]; intros t H; simpl in H.
  - injection H as <-. simpl. tauto.
  - bind_inv H as n Hn. bind_inv H as t' Ht'. injection H as <-.
    specialize (IH t' Ht'). destruct (Nat.eqb n m) eqn:Heq; simpl.
    + apply Nat.eqb_eq in Heq. subst n. rewrite IH. split.
      * intros [<-|[? ?]]; auto.
      * intros [[<-|?] ?]; auto.
    + apply Nat.eqb_neq in Heq. rewrite IH. split.
      * intros [? ?]; auto.
      * intros [[<-|?] Hv]; [congruence|auto].
Qed.

Lemma domain_length_Ok (doms : Domains) v n :
  domain_length doms v = Ok n <-> exists d, doms !! v = Some d /\ List.length d = n.
Proof.
  unfold domain_length, domains_get. destruct (doms !! v) as [d|]; simpl; split.
  - intros [= <-]. eauto.
  - intros (d' & [= <-] & <-). reflexivity.
  - discriminate.
  - intros (d' & [=] & _).
Qed.

(** What the variable selected among two or more owes to the two sorts:
    its domain is a smallest one, and among the unassigned variables whose
    domain is as small it has the fewest neighbours. *)
Lemma select_among_many cw (doms : Domains) a v :
  select_unassigned_variable cw doms a = Ok (Some v) ->
  forall u, In u (unassigned cw a) ->
    forall nv nu, domain_length doms v = Ok nv -> domain_length doms u = Ok nu ->
      nv <= nu /\
      (nu = nv -> List.length (neighbors cw v) <= List.length (neighbors cw u)).
Proof.
  unfold select_unassigned_variable. fold (unassigned cw a).
  destruct (unassigned cw a) as [|v0 [|v1 l]] eqn:Hun.
  - discriminate.
  - intros [= ->] u [<-|[]] nv nu Hv Hu.
    assert (nv = nu) by congruence. subst. split; [lia|reflexivity].
  - intros H u Hu nv nu Hnv Hnu. bind_inv H as ks Hks.
    pose proof (sorted_pairs_ascending ks) as Hasc.
    pose proof (sorted_pairs_perm ks) as Hperm.
    rewrite sort_keyed_pairs in H.
    destruct (map snd (sorted_pairs ks)) as [|u0 [|u1 rest]] eqn:Hmap; try discriminate.
    apply map_snd_cons_inv in Hmap as (k0 & sp & Hsp & Hmap).
    apply map_snd_cons_inv in Hmap as (k1 & sp' & -> & Hmap).
    assert (Hkey : forall k x, In (k, x) (sorted_pairs ks) ->
                     domain_length doms x = Ok k).
    { intros k x Hin. eapply keyed_In; [exact Hks|].
      eapply Permutation_in; [exact Hperm|exact Hin]. }
    assert (Hu' : exists ku, In (ku, u) (sorted_pairs ks)).
    { apply keyed_snd in Hks. rewrite <- Hks in Hu.
      apply in_map_iff in Hu as ([ku u'] & Hs & Hin). simpl in Hs. subst u'.
      exists ku. eapply Permutation_in; [symmetry; exact Hperm|exact Hin]. }
    destruct Hu' as (ku & Hku).
    assert (ku = nu) by (apply Hkey in Hku; congruence). subst ku.
    rewrite Hsp in Hasc, Hkey, Hku.
    pose proof (ascending_head _ _ _ Hasc Hku) as Hmin. simpl in Hmin.
    assert (H0 : domain_length doms u0 = Ok k0) by (apply Hkey; now left).
    assert (H1 : domain_length doms u1 = Ok k1) by (apply Hkey; right; now left).
    rewrite H0 in H. cbn [bind] in H. rewrite H1 in H. cbn [bind] in H.
    destruct (Nat.eqb k1 k0) eqn:Heq; cbn [negb] in H.
    + apply Nat.eqb_eq in Heq. subst k1. bind_inv H as tied Htied.
      rewrite sort_keyed_pairs in H.
      set (dk := map (fun v => (List.length (neighbors cw v), v)) tied) in *.
      pose proof (sorted_pairs_ascending dk) as Hasc2.
      pose proof (sorted_pairs_perm dk) as Hperm2.
      destruct (map snd (sorted_pairs dk)) as [|t0 ts] eqn:Hmap2; [discriminate|].
      injection H as <-.
      apply map_snd_cons_inv in Hmap2 as (kt & sp2 & Hsp2 & _).
      assert (Hdk : forall k x, In (k, x) dk ->
                      k = List.length (neighbors cw x) /\ In x tied).
      { intros k x Hin. unfold dk in Hin. apply in_map_iff in Hin as (x' & [= <- <-] & Hx).
        auto. }
      assert (Ht0 : In (kt, t0) dk).
      { eapply Permutation_in; [exact Hperm2|]. rewrite Hsp2. now left. }
      destruct (Hdk _ _ Ht0) as [-> Ht0'].
      apply (tied_with_In doms k0 _ tied t0 Htied) in Ht0' as [_ Ht0'].
      assert (nv = k0) by congruence. subst nv. split; [exact Hmin|].
      intros ->. 
      assert (Hut : In u tied).
      { apply (tied_with_In doms k0 _ tied u Htied). split; [|exact Hnu].
        apply (in_map snd) in Hku. simpl in Hku. now rewrite Hmap in Hku. }
      assert (Hud : In (List.length (neighbors cw u), u) (sorted_pairs dk)).
      { eapply Permutation_in; [symmetry; exact Hperm2|].
        unfold dk. apply in_map_iff. exists u. auto. }
      rewrite Hsp2 in Hasc2, Hud.
      exact (ascending_head _ _ _ Hasc2 Hud).
    + apply Nat.eqb_neq in Heq. injection H as <-.
      assert (nv = k0) by congruence. subst nv. split; [exact Hmin|].
      intros ->. destruct Hku as [[= <-]|Hku]; [reflexivity|].
      apply StronglySorted_inv in Hasc as [Hasc _].
      pose proof (ascending_head _ _ _ Hasc Hku) as Hge. simpl in Hge.
      exfalso. apply Heq.
      assert (k0 <= k1).
      { pose proof (sorted_pairs_ascending ks) as Hs. rewrite Hsp in Hs.
        apply (ascending_head _ _ (k1, u1) Hs). right. now left. }
      lia.
Qed.

(** X11: [select_unassigned_variable] returns [None] exactly when no
    variable of the crossword is unassigned, and a variable it returns is a
    variable of the crossword that the assignment does not hold. *)
Theorem select_returns_unassigned (cw : Crossword) (doms : Domains)
    (assignment : Assignment) :
  (select_unassigned_variable cw doms assignment = Ok None <->
   forall v, In v (variables cw) -> dict_mem v assignment = true) /\
  (forall v, select_unassigned_variable cw doms assignment = Ok (Some v) ->
     In v (variables cw) /\ dict_mem v assignment = false).
Proof.
  split.
  - assert (Hnil : unassigned cw assignment = [] <->
              forall v, In v (variables cw) -> dict_mem v assignment = true).
    { split.
      - intros Hun v Hv. destruct (dict_mem v assignment) eqn:Hm; [reflexivity|].
        assert (Hin : In v (unassigned cw assignment)) by now apply unassigned_spec.
        rewrite Hun in Hin. destruct Hin.
      - intros Hall. destruct (unassigned cw assignment) as [|u l] eqn:Hun; [reflexivity|].
        assert (Hin : In u (unassigned cw assignment)) by (rewrite Hun; now left).
        apply unassigned_spec in Hin as [Hu Hm]. rewrite (Hall u Hu) in Hm. discriminate. }
    rewrite <- Hnil. unfold select_unassigned_variable. fold (unassigned cw assignment).
    destruct (unassigned cw assignment) as [|v0 [|v1 l]].
    + tauto.
    + split; discriminate.
    + split; [|discriminate]. intros H. exfalso. bind_inv H as ks Hks.
      destruct (sort_keyed ks) as [|u0 [|u1 rest]]; try discriminate.
      bind_inv H as m Hm. bind_inv H as n1 Hn1.
      destruct (negb _); [discriminate|]. bind_inv H as tied Htied.
      destruct (sort_keyed _); discriminate.
  - intros v H. now apply select_unassigned, unassigned_spec in H.
Qed.

(** X12: the variable selected has a smallest domain among the unassigned
    variables (minimum remaining values). *)
Theorem select_minimum_remaining_values (cw : Crossword) (doms : Domains)
    (assignment : Assignment) (v u : Var) (dv du : list string) :
  select_unassigned_variable cw doms assignment = Ok (Some v) ->
  In u (variables cw) -> dict_mem u assignment = false ->
  doms !! v = Some dv -> doms !! u = Some du ->
  List.length dv <= List.length du.
Proof.
  intros Hsel Hu Hm Hdv Hdu.
  apply (select_among_many cw doms assignment v Hsel u).
  - now apply unassigned_spec.
  - apply domain_length_Ok. eauto.
  - apply domain_length_Ok. eauto.
Qed.

Lemma select_minimum_remaining_values_witness :
  List.length ["AB"; "CD"] <= List.length ["CEX"; "CFX"; "AGX"].
Proof.
  apply (select_minimum_remaining_values cw_corner
           (enforce_node_consistency (init_domains cw_corner)) []
           slot_short slot_long).
  - vm_compute. reflexivity.
  - right. now left.
  - reflexivity.
  - vm_compute. reflexivity.
  - vm_compute. reflexivity.
Defined.

(** X13: among the unassigned variables whose domain is as small as the
    domain of the variable selected, the one selected has the fewest
    neighbours: the ascending sort by degree is followed by the choice of
    its first element. *)
Theorem select_breaks_ties_by_fewest_neighbours (cw : Crossword)
    (doms : Domains) (assignment : Assignment) (v u : Var)
    (dv du : list string) :
  select_unassigned_variable cw doms assignment = Ok (Some v) ->
  In u (variables cw) -> dict_mem u assignment = false ->
  doms !! v = Some dv -> doms !! u = Some du ->
  List.length du = List.length dv ->
  List.length (neighbors cw v) <= List.length (neighbors cw u).
Proof.
  intros Hsel Hu Hm Hdv Hdu Hlen.
  apply (select_among_many cw doms assignment v Hsel u) with
    (nv := List.length dv) (nu := List.length du).
  - now apply unassigned_spec.
  - apply domain_length_Ok. eauto.
  - apply domain_length_Ok. eauto.
  - exact Hlen.
Qed.

Lemma select_breaks_ties_by_fewest_neighbours_witness :
  List.length (neighbors cw_comb3 slot_left)
  <= List.length (neighbors cw_comb3 slot_top).
Proof.
  apply (select_breaks_ties_by_fewest_neighbours cw_comb3
           (enforce_node_consistency (init_domains cw_comb3)) []
           slot_left slot_top ["ABA"; "ACA"] ["ABA"; "ACA"]).
  - vm_compute. reflexivity.
  - now left.
  - reflexivity.
  - vm_compute. reflexivity.
  - vm_compute. reflexivity.
  - reflexivity.
Defined.

(** *** [order_domain_values] *)


(** X14: [order_domain_values] returns the words of the domain of [var],
    each as often as the domain holds it: it neither drops nor invents a
    candidate. *)
Theorem order_domain_values_permutes (cw : Crossword) (doms : Domains)
    (var : Var) (assignment : Assignment) (l : list string) :
  order_domain_values cw doms var assignment = Ok l ->
  exists domain, doms !! var = Some domain /\ Permutation l domain.
Proof.
  unfold order_domain_values. intros H. bind_inv H as domain Hd.
  apply domains_get_Ok in Hd. bind_inv H as ks Hks. injection H as <-.
  exists domain. split; [exact Hd|].
  rewrite sort_keyed_pairs. apply keyed_snd in Hks. rewrite <- Hks.
  apply Permutation_map, sorted_pairs_perm.
Qed.

Lemma order_domain_values_permutes_witness :
  exists domain,
    enforce_node_consistency (init_domains cw_corner) !! slot_short = Some domain /\
    Permutation ["CD"; "AB"] domain.
Proof.
  apply (order_domain_values_permutes cw_corner _ slot_short []).
  vm_compute. reflexivity.
Defined.



Lemma removed_choices_assigned cw (doms : Domains) a var value ns n :
  (forall x, In x ns -> dict_mem x a = true) ->
  removed_choices cw doms a var value ns n = Ok n.
Proof.
  induction ns as [|x ns IH]; intros Hall; simpl; [reflexivity|].
  rewrite (Hall x) by now left. apply IH. intros y Hy. apply Hall. now right.
Qed.

Lemma keyed_const {A} (key : A -> res nat) (l : list A) k :
  (forall x, In x l -> key x = Ok k) ->
  keyed key l = Ok (map (fun x => (k, x)) l).
Proof.
  induction l as [|x l IH]; intros Hall; simpl; [reflexivity|].
  rewrite (Hall x) by now left. simpl. rewrite IH; [reflexivity|].
  intros y Hy. apply Hall. now right.
Qed.

Lemma ascending_const {A} (l : list A) k : ascending (map (fun x => (k, x)) l).
Proof.
  induction l as [|x l IH]; simpl; constructor; [exact IH|].
  apply Forall_forall. intros b Hb. apply list_elem_of_In, in_map_iff in Hb.
  destruct Hb as (y & <- & _). simpl. lia.
Qed.

(** X16: when every neighbour of [var] is assigned already (or [var] has no
    neighbour), nothing is counted and the stable sort leaves the domain in
    its own order. *)
Theorem order_domain_values_no_open_neighbour (cw : Crossword)
    (doms : Domains) (var : Var) (assignment : Assignment)
    (domain : list string) :
  (forall x, In x (neighbors cw var) -> dict_mem x assignment = true) ->
  doms !! var = Some domain ->
  order_domain_values cw doms var assignment = Ok domain.
Proof.
  intros Hall Hd. unfold order_domain_values, domains_get. rewrite Hd. simpl.
  rewrite (keyed_const _ domain 0).
  - simpl. rewrite sort_keyed_pairs, sorted_pairs_id by apply ascending_const.
    rewrite map_map. simpl. now rewrite map_id.
  - intros w _. now apply removed_choices_assigned.
Qed.

Lemma order_domain_values_no_open_neighbour_witness :
  order_domain_values cw_corner (enforce_node_consistency (init_domains cw_corner))
    slot_long [(slot_short, "AB")] = Ok ["CEX"; "CFX"; "AGX"].
Proof.
  apply order_domain_values_no_open_neighbour.
  - intros x [<-|[]]. reflexivity.
  - vm_compute. reflexivity.
Defined.

(** ** The search, continued *)

Lemma dict_get_app_fresh {K V} `{EqDecision K} (d : dict K V) k v k' :
  dict_get (d ++ [(k, v)]) k' =
  match dict_get d k' with
  | Some w => Some w
  | None => if decide (k = k') then Some v else None
  end.
Proof.
  induction d as [|[k0 v0] d IH]; simpl; [reflexivity|].
  destruct (decide (k0 = k')); [reflexivity|exact IH].
Qed.

Lemma dict_get_mem {K V} `{EqDecision K} (d : dict K V) k :
  dict_mem k d = true <-> exists v, dict_get d k = Some v.
Proof.
  unfold dict_mem. destruct (dict_get d k); split; eauto; try discriminate.
  intros (v & [=]).
Qed.

Lemma agrees_set cw a sigma v :
  agrees cw a sigma -> In v (variables cw) ->
  agrees cw (a ++ [(v, sigma v)]) sigma.
Proof.
  intros Ha Hv u w Hu. rewrite dict_get_app_fresh in Hu.
  destruct (dict_get a u) as [w'|] eqn:Hau.
  - injection Hu as <-. now apply Ha.
  - destruct (decide (v = u)) as [<-|]; [|discriminate]. injection Hu as <-. auto.
Qed.

Lemma consistent_of_solution cw (doms : Domains) sigma a :
  search_solution cw doms sigma -> agrees cw a sigma ->
  consistent cw a = Ok true.
Proof.
  intros [Hdom Hov] Ha. apply consistent_true. intros v Hv.
  apply dict_mem_keys, dict_get_mem in Hv as (w & Hw). exists w. split; [exact Hw|].
  destruct (Ha v w Hw) as [Hvin ->]. split; [apply Hdom, Hvin|].
  intros n i j wn Hn Hovn Hwn. destruct (Ha n wn Hwn) as [Hnin ->].
  now apply (Hov v n i j).
Qed.

Section FailureIsSound.
Variable cw : Crossword.
Variable doms : Domains.
Variable sigma : Var -> string.
Hypothesis Hsol : search_solution cw doms sigma.

Lemma backtrack_words_no_failure recurse variable ws :
  (forall a r s, recurse a = Ok (r, s) -> is_failure r = true -> s = a) ->
  (forall a r s, recurse a = Ok (r, s) -> is_failure r = true ->
                 ~ agrees cw a sigma) ->
  forall a r s,
    In variable (unassigned cw a) -> agrees cw a sigma ->
    backtrack_words cw recurse variable ws a = Ok (r, s) ->
    is_failure r = true -> ~ In (sigma variable) ws.
Proof.
  intros Hres Hrec. induction ws as [|word ws IH]; intros a r s Hv Ha H Hr; simpl in H.
  - intros [].
  - destruct (proj1 (unassigned_spec cw a variable) Hv) as [Hvin Hfresh].
    rewrite (dict_set_fresh a variable word Hfresh) in H.
    assert (Hrest : forall a3, dict_pop (a ++ [(variable, word)]) variable = Ok a3 ->
                      a3 = a).
    { intros a3. rewrite <- (dict_set_fresh a variable word Hfresh), dict_pop_set
        by exact Hfresh. now intros [= <-]. }
    intros [->|Hin].
    + pose proof (consistent_of_solution cw doms sigma _ Hsol
                    (agrees_set cw a sigma variable Ha Hvin)) as Hc.
      rewrite Hc in H. simpl in H. bind_inv H as [result a2] Hcall.
      destruct (is_failure result) eqn:Hres'; simpl in H.
      * apply (Hrec _ _ _ Hcall Hres'). now apply agrees_set.
      * injection H as <- <-. congruence.
    + bind_inv H as c Hc. destruct c.
      * bind_inv H as [result a2] Hcall.
        destruct (is_failure result) eqn:Hres'; simpl in H.
        -- apply Hres in Hcall; [|exact Hres']. subst a2.
           bind_inv H as a3 Ha3. apply Hrest in Ha3. subst a3.
           exact (IH a r s Hv Ha H Hr Hin).
        -- injection H as <- <-. congruence.
      * bind_inv H as a3 Ha3. apply Hrest in Ha3. subst a3.
        exact (IH a r s Hv Ha H Hr Hin).
Qed.

Lemma backtrack_fuel_no_failure fuel :
  forall a r s,
    backtrack_fuel cw doms fuel a = Ok (r, s) -> is_failure r = true ->
    ~ agrees cw a sigma.
Proof.
  induction fuel as [|fuel IH]; intros a r s H Hr Ha; [discriminate|].
  simpl in H. destruct (assignment_complete cw a).
  - injection H as <- <-. discriminate.
  - bind_inv H as ov Hsel. destruct ov as [v|]; [|discriminate].
    bind_inv H as ws Hws. apply domains_get_Ok in Hws.
    apply select_unassigned in Hsel.
    apply (backtrack_words_no_failure _ v ws (backtrack_fuel_restores cw doms fuel)
             IH a r s Hsel Ha H Hr).
    destruct (proj1 (unassigned_spec cw a v) Hsel) as [Hvin _].
    destruct (proj1 Hsol v Hvin) as [(d & Hd & Hin) _]. congruence.
Qed.

End FailureIsSound.

Lemma keyed_Ok {A} (key : A -> res nat) (l : list A) :
  (forall x, In x l -> exists k, key x = Ok k) -> exists r, keyed key l = Ok r.
Proof.
  induction l as [|x l IH]; intros Hall; simpl; [eauto|].
  destruct (Hall x) as [k Hk]; [now left|]. rewrite Hk. simpl.
  destruct IH as [r Hr]; [intros y Hy; apply Hall; now right|].
  rewrite Hr. simpl. eauto.
Qed.

Lemma tied_with_Ok (doms : Domains) m l :
  (forall x, In x l -> exists k, domain_length doms x = Ok k) ->
  exists t, tied_with doms m l = Ok t.
Proof.
  induction l as [|x l IH]; intros Hall; simpl; [eauto|].
  destruct (Hall x) as [k Hk]; [now left|]. rewrite Hk. simpl.
  destruct IH as [t Ht]; [intros y Hy; apply Hall; now right|].
  rewrite Ht. simpl. eauto.
Qed.

Section Totality.
Variable cw : Crossword.
Variable doms : Domains.
Hypothesis Hwf : WF cw.
Hypothesis Hnc : NC cw doms.
Hypothesis Hnd : List.NoDup (variables cw).

Lemma consistent_neighbours_Ok a v w ns :
  well_sized a -> String.length w = var_length v ->
  Forall (fun n => has_overlap cw v n = true) ns ->
  exists b, consistent_neighbours cw a v w ns = Ok b.
Proof.
  intros Ha Hw. induction 1 as [|n ns Hn Hns IH]; simpl; [eauto|].
  apply has_overlap_spec in Hn as (i & j & Hov).
  unfold overlaps_get. rewrite Hov. simpl.
  destruct (dict_get a n) as [wn|] eqn:Han; [|exact IH].
  destruct (Hwf v n i j Hov) as (_ & _ & _ & Hi & Hj & _).
  destruct (str_index_lt w i) as (c & _ & ->); [lia|].
  destruct (str_index_lt wn j) as (cn & _ & ->); [rewrite (Ha n wn Han); lia|].
  simpl. destruct (ascii_eqb c cn); eauto.
Qed.

Lemma consistent_Ok a : well_sized a -> exists b, consistent cw a = Ok b.
Proof.
  intros Ha. unfold consistent.
  assert (Hkeys : forall v, In v (dict_keys a) -> exists w, dict_get a v = Some w).
  { intros v Hv. now apply dict_mem_keys, dict_get_mem in Hv. }
  induction (dict_keys a) as [|v keys IH]; simpl; [eauto|].
  destruct (Hkeys v) as [w Hw]; [now left|]. rewrite Hw. simpl.
  rewrite (Ha v w Hw), Nat.eqb_refl. simpl.
  destruct (consistent_neighbours_Ok a v w (neighbors cw v) Ha (Ha v w Hw)
              (neighbors_overlap cw v)) as [b ->]. simpl.
  destruct b; [|eauto]. apply IH. intros u Hu. apply Hkeys. now right.
Qed.

Lemma domain_length_variable v :
  In v (variables cw) -> exists k, domain_length doms v = Ok k.
Proof.
  intros Hv. destruct (Hnc v Hv) as (d & Hd & _).
  exists (List.length d). apply domain_length_Ok. eauto.
Qed.

Lemma select_Ok a :
  unassigned cw a <> [] ->
  exists v, select_unassigned_variable cw doms a = Ok (Some v).
Proof.
  intros Hne. unfold select_unassigned_variable. fold (unassigned cw a).
  assert (Hun : forall u, In u (unassigned cw a) ->
            exists k, domain_length doms u = Ok k).
  { intros u Hu. apply unassigned_spec in Hu as [Hu _]. now apply domain_length_variable. }
  destruct (unassigned cw a) as [|v0 [|v1 l]] eqn:Heq; [contradiction|eauto|].
  destruct (keyed_Ok (domain_length doms) _ Hun) as [ks Hks]. rewrite Hks. cbn [bind].
  pose proof (sorted_pairs_perm ks) as Hperm.
  pose proof (keyed_snd _ _ _ Hks) as Hsnd.
  assert (Hlen : List.length (sort_keyed ks) = S (S (List.length l))).
  { rewrite sort_keyed_pairs, length_map, (Permutation_length Hperm).
    rewrite <- (length_map snd), Hsnd. reflexivity. }
  assert (Hmem : forall u, In u (sort_keyed ks) -> exists k, domain_length doms u = Ok k).
  { intros u Hu. apply Hun. apply (proj1 (sort_keyed_In ks u)) in Hu. now rewrite Hsnd in Hu. }
  destruct (sort_keyed ks) as [|u0 [|u1 rest]]; try discriminate.
  destruct (Hmem u0) as [m Hm]; [now left|].
  destruct (Hmem u1) as [n1 Hn1]; [right; now left|].
  rewrite Hm. cbn [bind]. rewrite Hn1. cbn [bind].
  destruct (negb (Nat.eqb n1 m)); [eauto|].
  destruct (tied_with_Ok doms m (u0 :: u1 :: rest) Hmem) as [tied Htied].
  rewrite Htied. cbn [bind].
  assert (Hin : In u0 tied).
  { apply (tied_with_In doms m _ tied u0 Htied). split; [now left|exact Hm]. }
  destruct (sort_keyed _) as [|t0 ts] eqn:Hts; [|eauto].
  exfalso. apply (in_map (fun v => (List.length (neighbors cw v), v))) in Hin.
  apply (in_map snd) in Hin. apply (proj2 (sort_keyed_In _ _)) in Hin.
  rewrite Hts in Hin. destruct Hin.
Qed.

Lemma incomplete_unassigned a :
  proper cw a -> assignment_complete cw a = false -> unassigned cw a <> [].
Proof.
  intros [Hka Hincl] Hc Hun. apply Nat.eqb_neq in Hc. apply Hc.
  assert (Hall : incl (variables cw) (dict_keys a)).
  { intros v Hv. destruct (dict_mem v a) eqn:Hm; [now apply dict_mem_keys|].
    assert (Hin : In v (unassigned cw a)) by now apply unassigned_spec.
    rewrite Hun in Hin. destruct Hin. }
  apply NoDup_ListNoDup in Hka.
  pose proof (NoDup_incl_length Hnd Hall) as H1.
  pose proof (NoDup_incl_length Hka Hincl) as H2.
  unfold dict_keys in *. rewrite length_map in *. lia.
Qed.

Lemma well_sized_set a v w d :
  well_sized a -> In v (variables cw) -> doms !! v = Some d -> In w d ->
  well_sized (a ++ [(v, w)]).
Proof.
  intros Ha Hv Hd Hw u wu Hu. rewrite dict_get_app_fresh in Hu.
  destruct (dict_get a u) as [w'|] eqn:Hau.
  - injection Hu as <-. now apply Ha.
  - destruct (decide (v = u)) as [<-|]; [|discriminate]. injection Hu as <-.
    destruct (Hnc v Hv) as (d' & Hd' & Hall). assert (d' = d) by congruence. subst d'.
    rewrite Forall_forall in Hall. apply Hall, list_elem_of_In, Hw.
Qed.

Lemma backtrack_words_Ok recurse variable ws n d :
  (forall a r s, recurse a = Ok (r, s) -> is_failure r = true -> s = a) ->
  (forall a, List.length (unassigned cw a) < n -> proper cw a -> well_sized a ->
             exists r s, recurse a = Ok (r, s)) ->
  doms !! variable = Some d -> incl ws d ->
  forall a,
    In variable (unassigned cw a) -> List.length (unassigned cw a) <= n ->
    proper cw a -> well_sized a ->
    exists r s, backtrack_words cw recurse variable ws a = Ok (r, s).
Proof.
  intros Hres Hrec Hd. induction ws as [|word ws IH]; intros Hincl a Hv Hn Hp Hs; simpl; [eauto|].
  destruct (proj1 (unassigned_spec cw a variable) Hv) as [Hvin Hfresh].
  assert (Hws : incl ws d) by (intros x Hx; apply Hincl; now right).
  assert (Hs1 : well_sized (dict_set a variable word)).
  { rewrite (dict_set_fresh a variable word Hfresh).
    apply (well_sized_set a variable word d); auto. apply Hincl. now left. }
  destruct (consistent_Ok _ Hs1) as [c ->]. simpl. destruct c.
  - destruct (Hrec (dict_set a variable word)) as (result & a2 & Hcall).
    + pose proof (unassigned_after_set cw a variable word Hv). lia.
    + now apply proper_set.
    + exact Hs1.
    + rewrite Hcall. simpl. destruct (is_failure result) eqn:Hf; simpl; [|eauto].
      apply Hres in Hcall; [|exact Hf]. subst a2.
      rewrite dict_pop_set by exact Hfresh. simpl. now apply IH.
  - rewrite dict_pop_set by exact Hfresh. simpl. now apply IH.
Qed.

Lemma backtrack_fuel_Ok fuel :
  forall a,
    List.length (unassigned cw a) < fuel -> proper cw a -> well_sized a ->
    exists r s, backtrack_fuel cw doms fuel a = Ok (r, s).
Proof.
  induction fuel as [|fuel IH]; intros a Hfuel Hp Hs; [lia|].
  simpl. destruct (assignment_complete cw a) eqn:Hc; [eauto|].
  destruct (select_Ok a (incomplete_unassigned a Hp Hc)) as [v Hsel].
  rewrite Hsel. simpl. apply select_unassigned in Hsel.
  destruct (proj1 (unassigned_spec cw a v) Hsel) as [Hvin _].
  destruct (Hnc v Hvin) as (d & Hd & _). unfold domains_get. rewrite Hd. simpl.
  apply (backtrack_words_Ok _ v d fuel d); auto.
  - apply backtrack_fuel_restores.
  - apply incl_refl.
  - lia.
Qed.

End Totality.

Lemma backtrack_words_extends cw (doms : Domains) recurse variable ws d :
  (forall a r s, recurse a = Ok (r, s) -> is_failure r = true -> s = a) ->
  (forall a r s, recurse a = Ok (r, s) -> is_failure r = false -> extends doms a s) ->
  doms !! variable = Some d -> incl ws d ->
  forall a r s,
    dict_mem variable a = false ->
    backtrack_words cw recurse variable ws a = Ok (r, s) ->
    is_failure r = false -> extends doms a s.
Proof.
  intros Hres Hrec Hd. induction ws as [|word ws IH]; intros Hincl a r s Hfresh H Hr; simpl in H.
  - injection H as <- <-. discriminate.
  - assert (Hws : incl ws d) by (intros x Hx; apply Hincl; now right).
    bind_inv H as c Hc. destruct c.
    + bind_inv H as [result a2] Hcall.
      destruct (is_failure result) eqn:Hf; simpl in H.
      * apply Hres in Hcall; [|exact Hf]. subst a2.
        rewrite dict_pop_set in H by exact Hfresh. simpl in H. now apply (IH Hws a r s).
      * injection H as <- <-. apply Hrec in Hcall; [|exact Hf].
        destruct Hcall as (more & -> & Hmore).
        rewrite (dict_set_fresh a variable word Hfresh), <- app_assoc.
        eexists. split; [reflexivity|]. intros v w [[= <- <-]|Hin]; [|now apply Hmore].
        exists d. split; [exact Hd|]. apply Hincl. now left.
    + rewrite dict_pop_set in H by exact Hfresh. simpl in H. now apply (IH Hws a r s).
Qed.

Lemma backtrack_fuel_extends cw (doms : Domains) fuel :
  forall a r s,
    backtrack_fuel cw doms fuel a = Ok (r, s) -> is_failure r = false ->
    extends doms a s.
Proof.
  induction fuel as [|fuel IH]; intros a r s H Hr; [discriminate|].
  simpl in H. destruct (assignment_complete cw a).
  - injection H as <- <-. exists []. split; [now rewrite app_nil_r|intros v w []].
  - bind_inv H as ov Hsel. destruct ov as [v|]; [|discriminate].
    bind_inv H as ws Hws. apply domains_get_Ok in Hws.
    apply select_unassigned, unassigned_spec in Hsel as [_ Hfresh].
    apply (backtrack_words_extends cw doms _ v ws ws
             (backtrack_fuel_restores cw doms fuel) IH Hws (incl_refl _) a r s Hfresh H Hr).
Qed.

Lemma backtrack_value cw (doms : Domains) a r s :
  backtrack cw doms a = Ok (r, s) -> r = VStr "failure" \/ r = VDict s.
Proof.
  intros H. destruct (is_failure r) eqn:Hf.
  - left. destruct r as [|str|]; try discriminate. simpl in Hf.
    apply String.eqb_eq in Hf. now subst.
  - right. now apply (backtrack_fuel_success cw doms _ a r s H).
Qed.

(** X17: an assignment that [backtrack] returns is the dictionary it was
    given, grown at its end: the bindings it had at the call are kept in
    place, and every binding added holds a word of the domain of its
    variable. *)
Theorem backtrack_extends_assignment (cw : Crossword) (doms : Domains)
    (assignment r s : Assignment) :
  backtrack cw doms assignment = Ok (VDict r, s) ->
  r = s /\
  exists more, r = assignment ++ more /\
    forall v w, In (v, w) more -> exists d, doms !! v = Some d /\ In w d.
Proof.
  intros H. destruct (backtrack_value cw doms _ _ _ H) as [[=]|[= ->]].
  split; [reflexivity|]. now apply (backtrack_fuel_extends cw doms _ assignment _ _ H).
Qed.

Lemma backtrack_extends_assignment_witness :
  exists more, [(var_x, "CAT"); (var_y, "TAN")] = [(var_x, "CAT")] ++ more /\
    forall v w, In (v, w) more -> exists d, doms_cat !! v = Some d /\ In w d.
Proof.
  apply (backtrack_extends_assignment cw_cat doms_cat [(var_x, "CAT")]
           [(var_x, "CAT"); (var_y, "TAN")] [(var_x, "CAT"); (var_y, "TAN")]).
  vm_compute. reflexivity.
Defined.

(** X18: what [solve] returns besides "failure" is an assignment of the
    whole crossword: every variable has a word, of the length of the
    variable, taken from the vocabulary, and with the same letter as the word
    of each of its neighbours where the two overlap. *)
Theorem solve_returns_fitting_words (cw : Crossword) (r : Assignment) :
  List.NoDup (variables cw) ->
  solve cw (init_domains cw) = Ok (VDict r) ->
  forall x, In x (variables cw) ->
    exists w, dict_get r x = Some w /\ In w (words cw) /\
      String.length w = var_length x /\
      forall n i j wn,
        In n (neighbors cw x) ->
        dict_get (overlaps cw) (x, n) = Some (Some (i, j)) ->
        dict_get r n = Some wn ->
        exists c, String.get i w = Some c /\ String.get j wn = Some c.
Proof.
  intros Hnd H x Hx.
  destruct (solve_result cw _ _ (proj2 (NoDup_ListNoDup _) Hnd) H)
    as (a & [= <-] & Hall); [discriminate|].
  destruct (Hall x Hx) as (w & Hw & Hlen & Hfit). exists w.
  split; [exact Hw|]. split; [|split; assumption].
  unfold solve in H. bind_inv H as r0 Hac. bind_inv H as [res s] Hb.
  injection H as ->. destruct r0 as [[b doms'] rest]. simpl in Hb.
  destruct (backtrack_value _ _ _ _ _ Hb) as [[=]|[= <-]].
  destruct (backtrack_fuel_extends cw doms' _ [] _ _ Hb eq_refl) as (more & Hr & Hmore).
  simpl in Hr. subst more. apply dict_get_In in Hw.
  destruct (Hmore x w Hw) as (d & Hd & Hin).
  assert (Hrun : fifo_run cw (enforce_node_consistency (init_domains cw))
                   (initial_arcs cw) (b, doms', rest)).
  { apply ac3_Some_run. exact Hac. }
  apply ac3_run_le in Hrun. destruct (Hrun x d Hd) as (d0 & Hd0 & Hincl).
  rewrite enforce_node_consistency_lookup, (init_domains_lookup cw x Hx) in Hd0.
  injection Hd0 as <-. apply Hincl in Hin. apply filter_In in Hin. tauto.
Qed.

Lemma solve_returns_fitting_words_witness :
  exists w, dict_get [(var_x, "CAT"); (var_y, "TAN")] var_x = Some w /\
    In w (words cw_cat) /\ String.length w = var_length var_x /\
    forall n i j wn,
      In n (neighbors cw_cat var_x) ->
      dict_get (overlaps cw_cat) (var_x, n) = Some (Some (i, j)) ->
      dict_get [(var_x, "CAT"); (var_y, "TAN")] n = Some wn ->
      exists c, String.get i w = Some c /\ String.get j wn = Some c.
Proof.
  apply (solve_returns_fitting_words cw_cat [(var_x, "CAT"); (var_y, "TAN")]).
  - repeat constructor; simpl; intuition discriminate.
  - vm_compute. reflexivity.
  - now left.
Defined.

(** X19: [backtrack] does not answer "failure" when the assignment it is
    given can be completed: on a well-formed crossword and a node-consistent
    store, if words of the domains fill all the variables with the right
    lengths and the same letters at the overlaps, the search from the empty
    assignment returns an assignment. *)
Theorem backtrack_finds_a_solution (cw : Crossword) (doms : Domains)
    (sigma : Var -> string) :
  well_formed cw = true -> node_consistent cw doms = true ->
  List.NoDup (variables cw) ->
  search_solution cw doms sigma ->
  exists r, backtrack cw doms [] = Ok (VDict r, r) /\
            assignment_complete cw r = true /\ consistent cw r = Ok true.
Proof.
  intros Hwf Hnc Hnd Hsol.
  apply well_formed_WF in Hwf. apply node_consistent_NC in Hnc.
  assert (Hp : proper cw []) by (split; [constructor|intros x []]).
  assert (Hs : well_sized []) by (intros v w [=]).
  assert (Ha : agrees cw [] sigma) by (intros v w [=]).
  destruct (backtrack_fuel_Ok cw doms Hwf Hnc Hnd (S (List.length (variables cw))) [])
    as (r & s & H); auto.
  { pose proof (filter_length_le'
      (fun variable => negb (dict_mem variable ([] : Assignment))) (variables cw)).
    unfold unassigned. lia. }
  destruct (is_failure r) eqn:Hf.
  - exfalso. exact (backtrack_fuel_no_failure cw doms sigma Hsol _ _ _ _ H Hf Ha).
  - destruct (backtrack_fuel_success cw doms _ _ _ _ H Hf) as (-> & Hc & Hcons & _).
    exists s. split; [exact H|]. split; [exact Hc|].
    destruct Hcons as [->|Hcons]; [reflexivity|exact Hcons].
Qed.

(** X20: [solve] as a whole finds an assignment whenever the vocabulary
    allows one that [ac3] admits: if words of the vocabulary fill the
    variables of a well-formed crossword with the right lengths so that
    overlapping variables hold different words with the same letter at the
    overlap, then [solve] returns an assignment, not "failure". *)
Theorem solve_finds_a_solution (cw : Crossword) (sigma : Var -> string) :
  well_formed cw = true -> List.NoDup (variables cw) ->
  (forall v, In v (variables cw) ->
     In (sigma v) (words cw) /\ String.length (sigma v) = var_length v) ->
  (forall x y i j, dict_get (overlaps cw) (x, y) = Some (Some (i, j)) ->
     compatible i j (sigma x) (sigma y) = true) ->
  exists r, solve cw (init_domains cw) = Ok (VDict r) /\
            assignment_complete cw r = true /\ consistent cw r = Ok true.
Proof.
  intros Hwf Hnd Hwords Hcomp. pose proof (well_formed_WF cw Hwf) as HWF.
  set (doms := enforce_node_consistency (init_domains cw)).
  assert (Hin : forall v, In v (variables cw) ->
            exists d, doms !! v = Some d /\ In (sigma v) d).
  { intros v Hv. unfold doms.
    rewrite enforce_node_consistency_lookup, (init_domains_lookup cw v Hv). simpl.
    eexists. split; [reflexivity|]. apply filter_In.
    destruct (Hwords v Hv) as [Hw Hl]. split; [exact Hw|now apply Nat.eqb_eq]. }
  destruct (ac3_solution cw HWF sigma doms (solve_store_NC cw) (conj Hin Hcomp))
    as (doms' & Hrun & Hnc' & [Hin' _]).
  assert (Hsol : search_solution cw doms' sigma).
  { split.
    - intros v Hv. split; [now apply Hin'|now apply Hwords].
    - intros x y i j _ _ Hov. specialize (Hcomp x y i j Hov).
      unfold compatible in Hcomp.
      destruct (String.get i (sigma x)) as [a|]; [|discriminate].
      destruct (String.get j (sigma y)) as [b|]; [|discriminate].
      apply andb_true_iff in Hcomp as [Hab _]. apply Ascii.eqb_eq in Hab.
      subst b. eauto. }
  assert (Hp : proper cw []) by (split; [constructor|intros x []]).
  assert (Hs : well_sized []) by (intros v w [=]).
  assert (Ha : agrees cw [] sigma) by (intros v w [=]).
  destruct (backtrack_fuel_Ok cw doms' HWF Hnc' Hnd (S (List.length (variables cw))) [])
    as (r & s & H); auto.
  { pose proof (filter_length_le'
      (fun variable => negb (dict_mem variable ([] : Assignment))) (variables cw)).
    unfold unassigned. lia. }
  destruct (is_failure r) eqn:Hf.
  - exfalso. exact (backtrack_fuel_no_failure cw doms' sigma Hsol _ _ _ _ H Hf Ha).
  - destruct (backtrack_fuel_success cw doms' _ _ _ _ H Hf) as (-> & Hc & Hcons & _).
    exists s. split; [|split; [exact Hc|]].
    + unfold solve. fold doms. rewrite Hrun. cbn [bind fst snd].
      unfold backtrack. rewrite H. reflexivity.
    + destruct Hcons as [->|Hcons]; [reflexivity|exact Hcons].
Qed.

Lemma sigma_cat_search : search_solution cw_cat doms_cat sigma_cat.
Proof.
  split.
  - intros v [<-|[<-|[]]].
    + split; [|reflexivity].
      exists ["CAT"; "DOG"; "TAN"]. split; [vm_compute; reflexivity|now left].
    + split; [|reflexivity].
      exists ["CAT"; "DOG"; "TAN"]. split; [vm_compute; reflexivity|]. right. right. now left.
  - intros x y i j _ _ H. simpl in H.
    repeat (destruct (decide _) as [Heq|_] in H;
            [injection Heq as <- <-; injection H as <- <-;
             vm_compute; eexists; split; reflexivity|]).
    discriminate.
Qed.

Lemma backtrack_finds_a_solution_witness :
  exists r, backtrack cw_cat doms_cat [] = Ok (VDict r, r) /\
            assignment_complete cw_cat r = true /\ consistent cw_cat r = Ok true.
Proof.
  apply (backtrack_finds_a_solution cw_cat doms_cat sigma_cat eq_refl eq_refl).
  - repeat constructor; simpl; intuition discriminate.
  - exact sigma_cat_search.
Defined.

Lemma solve_finds_a_solution_witness :
  exists r, solve cw_cat (init_domains cw_cat) = Ok (VDict r) /\
            assignment_complete cw_cat r = true /\ consistent cw_cat r = Ok true.
Proof.
  apply (solve_finds_a_solution cw_cat sigma_cat eq_refl).
  - repeat constructor; simpl; intuition discriminate.
  - intros v [<-|[<-|[]]]; (split; [|reflexivity]); simpl.
    + now left.
    + right. right. now left.
  - exact (proj2 sigma_cat_solution).
Defined.

Lemma backtrack_words_more cw recurse recurse' variable ws :
  (forall a, recurse a <> OutOfFuel -> recurse' a = recurse a) ->
  forall a,
    backtrack_words cw recurse variable ws a <> OutOfFuel ->
    backtrack_words cw recurse' variable ws a
    = backtrack_words cw recurse variable ws a.
Proof.
  intros Hrec. induction ws as [|word ws IH]; intros a H; simpl in *; [reflexivity|].
  destruct (consistent cw (dict_set a variable word)) as [[]| |]; simpl in *;
    try reflexivity.
  - destruct (recurse (dict_set a variable word)) as [[result a2]| |] eqn:Hcall;
      simpl in *.
    + rewrite (Hrec _ ltac:(rewrite Hcall; discriminate)), Hcall. simpl.
      destruct (negb (is_failure result)); [reflexivity|].
      destruct (dict_pop a2 variable); simpl in *; try reflexivity. now apply IH.
    + rewrite (Hrec _ ltac:(rewrite Hcall; discriminate)), Hcall. reflexivity.
    + now elim H.
  - destruct (dict_pop (dict_set a variable word) variable); simpl in *;
      try reflexivity. now apply IH.
Qed.

Lemma backtrack_fuel_more cw (doms : Domains) fuel :
  forall fuel' a,
    backtrack_fuel cw doms fuel a <> OutOfFuel -> fuel <= fuel' ->
    backtrack_fuel cw doms fuel' a = backtrack_fuel cw doms fuel a.
Proof.
  induction fuel as [|fuel IH]; intros fuel' a H Hle; [now elim H|].
  destruct fuel' as [|fuel']; [lia|]. simpl in *.
  destruct (assignment_complete cw a); [reflexivity|].
  destruct (select_unassigned_variable cw doms a) as [[v|]| |]; simpl in *;
    try reflexivity.
  destruct (domains_get doms v) as [ws| |]; simpl in *; try reflexivity.
  apply backtrack_words_more; [|exact H].
  intros a' Ha'. apply IH; [exact Ha'|lia].
Qed.

(** X21: the recursion of [backtrack] ends on every input, well formed or
    not: it is never deeper than the number of variables plus one, and a
    larger bound on the depth gives the same outcome. *)
Theorem backtrack_depth_bounded (cw : Crossword) (doms : Domains)
    (assignment : Assignment) (fuel : nat) :
  List.length (variables cw) < fuel ->
  backtrack_fuel cw doms fuel assignment = backtrack cw doms assignment /\
  ((exists r, backtrack cw doms assignment = Ok r) \/
   (exists e, backtrack cw doms assignment = Raise e)).
Proof.
  intros Hfuel. pose proof (backtrack_not_out cw doms assignment) as Hout. split.
  - apply backtrack_fuel_more; [exact Hout|lia].
  - destruct (backtrack cw doms assignment); [eauto|eauto|now elim Hout].
Qed.

Lemma backtrack_depth_bounded_witness :
  backtrack_fuel cw_cat doms_cat 7 [] = backtrack cw_cat doms_cat [] /\
  ((exists r, backtrack cw_cat doms_cat [] = Ok r) \/
   (exists e, backtrack cw_cat doms_cat [] = Raise e)).
Proof.
  apply (backtrack_depth_bounded cw_cat doms_cat [] 7). simpl. lia.
Defined.

Lemma select_None cw (doms : Domains) a :
  (forall v, In v (variables cw) -> dict_mem v a = true) ->
  select_unassigned_variable cw doms a = Ok None.
Proof.
  intros Hall. unfold select_unassigned_variable. fold (unassigned cw a).
  destruct (unassigned cw a) as [|u l] eqn:Hun; [reflexivity|].
  assert (Hin : In u (unassigned cw a)) by (rewrite Hun; now left).
  apply unassigned_spec in Hin as [Hu Hm]. rewrite (Hall u Hu) in Hm. discriminate.
Qed.

(** X22: completeness is judged by the number of bindings alone.  An
    assignment that binds every variable of the crossword but has another
    number of bindings (it binds a stranger as well) is not complete, no
    variable is left to select, and [backtrack] raises [KeyError] on
    [self.domains[None]]. *)
Theorem backtrack_overfull_assignment (cw : Crossword) (doms : Domains)
    (assignment : Assignment) :
  (forall v, In v (variables cw) -> dict_mem v assignment = true) ->
  List.length assignment <> List.length (variables cw) ->
  backtrack cw doms assignment = Raise KeyError.
Proof.
  intros Hall Hlen. unfold backtrack. simpl. unfold assignment_complete.
  apply Nat.eqb_neq in Hlen. rewrite Hlen.
  now rewrite (select_None cw doms assignment Hall).
Qed.

Lemma backtrack_overfull_assignment_witness :
  backtrack cw_no_fit (init_domains cw_no_fit) [(slot_a, "AB"); (slot_b, "AB")]
  = Raise KeyError.
Proof.
  apply backtrack_overfull_assignment.
  - intros v [<-|[]]. reflexivity.
  - simpl. lia.
Defined.

Lemma solve_value cw (doms : Domains) r :
  solve cw doms = Ok r -> r = VStr "failure" \/ exists a, r = VDict a.
Proof.
  unfold solve. intros H. bind_inv H as r0 Hac. bind_inv H as [res s] Hb.
  injection H as ->. destruct (backtrack_value _ _ _ _ _ Hb) as [->| ->]; eauto.
Qed.

(** X23: [main] never reports "No solution.": [solve] returns an assignment
    or the string "failure", never [None], so that a run of [main] that ends
    normally has printed the assignment that [solve] returned. *)
Theorem main_never_reports_no_solution (cw : Crossword)
    (out : option Assignment) :
  main cw = Ok out ->
  exists a, out = Some a /\
    solve cw (enforce_node_consistency (init_domains cw)) = Ok (VDict a).
Proof.
  unfold main. intros H. bind_inv H as v0 Hv0. bind_inv H as l Hl.
  bind_inv H as r Hr. destruct (solve_value _ _ _ Hr) as [->|[a ->]]; simpl in H.
  - discriminate.
  - injection H as <-. eauto.
Qed.

Lemma main_never_reports_no_solution_witness :
  exists a, Some [(var_x, "CAT"); (var_y, "TAN")] = Some a /\
    solve cw_cat (enforce_node_consistency (init_domains cw_cat)) = Ok (VDict a).
Proof.
  apply (main_never_reports_no_solution cw_cat).
  vm_compute. reflexivity.
Defined.

(** ** [letter_grid] *)

Lemma letter_grid_word_writes v cs k g :
  letter_grid_word v cs k g = apply_writes (writes_word v cs k) g.
Proof.
  revert k g. induction cs as [|c cs IH]; intros k g; simpl; [reflexivity|].
  destruct (grid_set g (cell_i v k) (cell_j v k) c); simpl; auto.
Qed.

Lemma apply_writes_app ws1 ws2 g :
  apply_writes (ws1 ++ ws2) g =
  let* g' := apply_writes ws1 g in apply_writes ws2 g'.
Proof.
  revert g. induction ws1 as [|[[i j] c] ws1 IH]; intros g; simpl; [reflexivity|].
  destruct (grid_set g i j c); simpl; auto.
Qed.

Lemma letter_grid_loop_writes a g :
  letter_grid_loop a g = apply_writes (writes a) g.
Proof.
  revert g. induction a as [|[v w] a IH]; intros g; simpl; [reflexivity|].
  unfold writes. simpl. rewrite apply_writes_app, letter_grid_word_writes. simpl.
  destruct (apply_writes _ g); simpl; auto.
Qed.

Lemma grid_set_Ok g i j c g' :
  grid_set g i j c = Ok g' <->
  exists row, g !! i = Some row /\ j < List.length row /\
              g' = <[i := <[j := Some c]> row]> g.
Proof.
  unfold grid_set. destruct (g !! i) as [row|]; split.
  - destruct (Nat.ltb j (List.length row)) eqn:Hj; [|discriminate].
    intros [= <-]. apply Nat.ltb_lt in Hj. eauto.
  - intros (row' & [= <-] & Hj & ->). apply Nat.ltb_lt in Hj. now rewrite Hj.
  - discriminate.
  - intros (row' & [=] & _).
Qed.

Lemma grid_set_Raise g i j c e : grid_set g i j c = Raise e -> e = IndexError.
Proof.
  unfold grid_set. destruct (g !! i); [destruct (Nat.ltb _ _)|]; congruence.
Qed.

Lemma grid_set_not_out g i j c : grid_set g i j c <> OutOfFuel.
Proof.
  unfold grid_set. destruct (g !! i); [destruct (Nat.ltb _ _)|]; discriminate.
Qed.

Lemma grid_set_shaped h w g i j c g' :
  shaped h w g -> grid_set g i j c = Ok g' -> shaped h w g'.
Proof.
  intros [Hh Hw] H. apply grid_set_Ok in H as (row & Hrow & Hj & ->). split.
  - now rewrite length_insert.
  - apply Forall_insert; [exact Hw|]. cbv beta. rewrite length_insert.
    rewrite Forall_forall in Hw. apply Hw. eapply list_elem_of_lookup_2; eauto.
Qed.

Lemma shaped_in_grid h w g i j :
  shaped h w g -> (exists row, g !! i = Some row /\ j < List.length row) <->
                  i < h /\ j < w.
Proof.
  intros [Hh Hw]. rewrite Forall_forall in Hw. split.
  - intros (row & Hrow & Hj). split.
    + rewrite <- Hh. eapply lookup_lt_Some; eauto.
    + rewrite <- (Hw row); [exact Hj|]. eapply list_elem_of_lookup_2; eauto.
  - intros [Hi Hj]. rewrite <- Hh in Hi. apply lookup_lt_is_Some_2 in Hi as [row Hrow].
    exists row. split; [exact Hrow|]. rewrite (Hw row); [exact Hj|].
    eapply list_elem_of_lookup_2; eauto.
Qed.

Lemma grid_set_cell g i j c g' i' j' :
  grid_set g i j c = Ok g' ->
  cell g' i' j' = if decide (i' = i /\ j' = j) then Some (Some c) else cell g i' j'.
Proof.
  intros H. apply grid_set_Ok in H as (row & Hrow & Hj & ->). unfold cell.
  destruct (decide (i' = i)) as [->|Hi].
  - rewrite list_lookup_insert_eq by (eapply lookup_lt_Some; eauto). rewrite Hrow.
    destruct (decide (j' = j)) as [->|Hjne].
    + rewrite list_lookup_insert_eq by exact Hj. now rewrite decide_True.
    + rewrite list_lookup_insert_ne by auto. rewrite decide_False by tauto. reflexivity.
  - rewrite list_lookup_insert_ne by auto. rewrite decide_False by tauto. reflexivity.
Qed.

Lemma apply_writes_Ok h w ws :
  forall g, shaped h w g ->
    (forall i j c, In (i, j, c) ws -> i < h /\ j < w) <->
    exists g', apply_writes ws g = Ok g'.
Proof.
  induction ws as [|[[i j] c] ws IH]; intros g Hg; simpl.
  - split; [eauto|]. intros _ i j c [].
  - split.
    + intros Hall.
      destruct (proj2 (shaped_in_grid h w g i j Hg)) as (row & Hrow & Hj);
        [apply (Hall i j c); now left|].
      assert (Hset : grid_set g i j c = Ok (<[i := <[j := Some c]> row]> g)).
      { apply grid_set_Ok. eauto. }
      rewrite Hset. simpl. apply IH; [now apply (grid_set_shaped h w g i j c)|].
      intros i' j' c' Hin. apply (Hall i' j' c'). now right.
    + intros (g' & H). bind_inv H as g1 Hg1.
      intros i' j' c' [[= <- <- <-]|Hin].
      * apply grid_set_Ok in Hg1 as (row & Hrow & Hj & _).
        apply (shaped_in_grid h w g i j Hg). eauto.
      * apply (proj2 (IH g1 (grid_set_shaped h w g i j c g1 Hg Hg1))) with (c := c'); eauto.
Qed.

Lemma apply_writes_outcome ws :
  forall g, (exists g', apply_writes ws g = Ok g') \/
            apply_writes ws g = Raise IndexError.
Proof.
  induction ws as [|[[i j] c] ws IH]; intros g; simpl; [eauto|].
  destruct (grid_set g i j c) as [g1|e|] eqn:Hset; simpl.
  - apply IH.
  - right. now rewrite (grid_set_Raise _ _ _ _ _ Hset).
  - now elim (grid_set_not_out g i j c).
Qed.

Lemma apply_writes_shaped h w ws :
  forall g g', shaped h w g -> apply_writes ws g = Ok g' -> shaped h w g'.
Proof.
  induction ws as [|[[i j] c] ws IH]; intros g g' Hg H; simpl in H.
  - now injection H as <-.
  - bind_inv H as g1 Hg1. apply (IH g1); [|exact H].
    now apply (grid_set_shaped h w g i j c).
Qed.

Lemma apply_writes_cell ws :
  forall g g' i j, apply_writes ws g = Ok g' ->
    (forall c, cell g' i j = Some (Some c) ->
       cell g i j = Some (Some c) \/ In (i, j, c) ws) /\
    ((exists c, In (i, j, c) ws) -> exists c, cell g' i j = Some (Some c)) /\
    ((exists c, cell g i j = Some (Some c)) -> exists c, cell g' i j = Some (Some c)).
Proof.
  induction ws as [|[[i0 j0] c0] ws IH]; intros g g' i j H; simpl in H.
  - injection H as <-. split; [auto|]. split; [intros (c & [])|auto].
  - bind_inv H as g1 Hg1. destruct (IH g1 g' i j H) as (Ha & Hb & Hc).
    pose proof (grid_set_cell g i0 j0 c0 g1 i j Hg1) as Hcell.
    split; [|split].
    + intros c Hg'. destruct (Ha c Hg') as [H1|Hin]; [|right; now right].
      rewrite Hcell in H1. destruct (decide (i = i0 /\ j = j0)) as [[-> ->]|_].
      * injection H1 as <-. right. now left.
      * now left.
    + intros (c & [[= <- <- <-]|Hin]).
      * apply Hc. rewrite Hcell, decide_True by tauto. eauto.
      * apply Hb. eauto.
    + intros (c & Hg). apply Hc. rewrite Hcell.
      destruct (decide (i = i0 /\ j = j0)); eauto.
Qed.

Lemma writes_word_In v cs k0 i j c :
  In (i, j, c) (writes_word v cs k0) <->
  exists n, nth_error cs n = Some c /\ i = cell_i v (k0 + n) /\ j = cell_j v (k0 + n).
Proof.
  revert k0. induction cs as [|c0 cs IH]; intros k0; simpl.
  - split; [intros []|]. intros (n & Hn & _). now destruct n.
  - rewrite IH. split.
    + intros [[= <- <- <-]|(n & Hn & -> & ->)].
      * exists 0. rewrite Nat.add_0_r. auto.
      * exists (S n). rewrite Nat.add_succ_r. auto.
    + intros ([|n] & Hn & -> & ->); simpl in Hn.
      * injection Hn as <-. left. now rewrite Nat.add_0_r.
      * right. exists n. rewrite Nat.add_succ_r. auto.
Qed.

Lemma string_get_nth (s : string) (k : nat) :
  String.get k s = nth_error (list_ascii_of_string s) k.
Proof.
  revert k. induction s as [|a s IH]; intros [|k]; simpl; auto.
Qed.

(** The writes of [letter_grid]: one for each letter of each assigned
    word. *)
Lemma writes_In a i j c :
  In (i, j, c) (writes a) <->
  exists v w k, In (v, w) a /\ String.get k w = Some c /\
                i = cell_i v k /\ j = cell_j v k.
Proof.
  unfold writes. rewrite in_flat_map. split.
  - intros ([v w] & Hin & Hw). simpl in Hw. apply writes_word_In in Hw as (n & Hn & Hi & Hj).
    exists v, w, n. rewrite string_get_nth. auto.
  - intros (v & w & k & Hin & Hk & Hi & Hj). exists (v, w). split; [exact Hin|].
    simpl. apply writes_word_In. exists k. rewrite <- string_get_nth. auto.
Qed.

Lemma blank_shaped height width :
  shaped height width (repeat (repeat None width) height).
Proof.
  split; [apply repeat_length|]. apply Forall_forall. intros row Hrow.
  apply list_elem_of_In, repeat_spec in Hrow. subst row. apply repeat_length.
Qed.

Lemma blank_cell height width i j c :
  cell (repeat (repeat None width) height) i j <> Some (Some c).
Proof.
  unfold cell. destruct (_ !! i) as [row|] eqn:Hrow; [|discriminate].
  apply list_elem_of_lookup_2, list_elem_of_In, repeat_spec in Hrow. subst row.
  intros H. apply list_elem_of_lookup_2, list_elem_of_In, repeat_spec in H. discriminate.
Qed.

(** X24: [letter_grid] ends normally exactly when every letter of every
    assigned word falls inside the grid; otherwise the assignment
    [letters[i][j] = word[k]] raises [IndexError]. *)
Theorem letter_grid_in_range (height width : nat) (assignment : Assignment) :
  ((exists g, letter_grid height width assignment = Ok g) <->
   forall v w k c, In (v, w) assignment -> String.get k w = Some c ->
     cell_i v k < height /\ cell_j v k < width) /\
  ((exists g, letter_grid height width assignment = Ok g) \/
   letter_grid height width assignment = Raise IndexError).
Proof.
  unfold letter_grid. rewrite letter_grid_loop_writes. split.
  - rewrite <- (apply_writes_Ok height width (writes assignment) _
                  (blank_shaped height width)).
    split.
    + intros H v w k c Hin Hk. apply (H _ _ c). apply writes_In.
      exists v, w, k. auto.
    + intros H i j c Hin. apply writes_In in Hin as (v & w & k & Hin & Hk & -> & ->).
      eapply H; eauto.
  - apply apply_writes_outcome.
Qed.

(** X25: the grid that [letter_grid] returns has [height] rows of [width]
    cells; a cell holds a letter exactly when a letter of an assigned word
    falls on it, and the letter it holds is the letter of such a word, so
    that a cell on which all the words that cross it agree shows their
    common letter. *)
Theorem letter_grid_cells (height width : nat) (assignment : Assignment)
    (g : Grid) (i j : nat) :
  letter_grid height width assignment = Ok g ->
  let covers c := exists v w k, In (v, w) assignment /\ String.get k w = Some c /\
                                i = cell_i v k /\ j = cell_j v k in
  shaped height width g /\
  (forall c, cell g i j = Some (Some c) -> covers c) /\
  ((exists c, covers c) -> exists c, cell g i j = Some (Some c)) /\
  (forall c, covers c -> (forall c', covers c' -> c' = c) ->
             cell g i j = Some (Some c)).
Proof.
  intros H covers. unfold letter_grid in H. rewrite letter_grid_loop_writes in H.
  destruct (apply_writes_cell _ _ _ i j H) as (Ha & Hb & _).
  assert (H1 : forall c, cell g i j = Some (Some c) -> covers c).
  { intros c Hc. destruct (Ha c Hc) as [Hblank|Hin].
    - now elim (blank_cell height width i j c).
    - now apply writes_In in Hin. }
  assert (H2 : (exists c, covers c) -> exists c, cell g i j = Some (Some c)).
  { intros (c & Hc). apply Hb. exists c. now apply writes_In. }
  split; [exact (apply_writes_shaped _ _ _ _ _ (blank_shaped height width) H)|].
  split; [exact H1|]. split; [exact H2|].
  intros c Hc Huniq. destruct H2 as [c' Hc']; [eauto|].
  now rewrite (Huniq c' (H1 c' Hc')) in Hc'.
Qed.

Lemma letter_grid_cells_witness :
  cell [[Some "C"%char; Some "A"%char; Some "T"%char];
        [None; None; Some "A"%char];
        [None; None; Some "N"%char]] 0 2 = Some (Some "T"%char).
Proof.
  assert (Hrun : letter_grid 3 3 [(var_x, "CAT"); (var_y, "TAN")]
                 = Ok [[Some "C"%char; Some "A"%char; Some "T"%char];
                       [None; None; Some "A"%char];
                       [None; None; Some "N"%char]])
    by (vm_compute; reflexivity).
  pose proof (letter_grid_cells 3 3 _ _ 0 2 Hrun) as H. cbv zeta in H.
  destruct H as (_ & _ & _ & H). apply H.
  - exists var_x, "CAT", 2. repeat split. now left.
  - intros c' (v & w & k & Hin & Hk & Hi & Hj).
    destruct Hin as [[= <- <-]|[[= <- <-]|[]]].
    + destruct k as [|[|[|k]]]; try discriminate. now injection Hk as <-.
    + destruct k as [|[|[|k]]]; try discriminate. now injection Hk as <-.
Defined.

(** ** [consistent] *)

(** X26: [consistent] answers true exactly when every bound word has the
    length of its variable and, for every neighbour that is bound too, the
    letters of the two words at the overlap are the same; nothing else is
    checked, and the order of the bindings does not matter. *)
Theorem consistent_checks_lengths_and_overlaps (cw : Crossword)
    (assignment : Assignment) :
  consistent cw assignment = Ok true <->
  forall v, In v (dict_keys assignment) ->
    exists w, dict_get assignment v = Some w /\
      String.length w = var_length v /\
      forall n i j wn,
        In n (neighbors cw v) ->
        dict_get (overlaps cw) (v, n) = Some (Some (i, j)) ->
        dict_get assignment n = Some wn ->
        exists c, String.get i w = Some c /\ String.get j wn = Some c.
Proof.
  rewrite consistent_true. split; intros H v Hv.
  - destruct (H v Hv) as (w & Hw & Hlen & Hfit). eauto.
  - destruct (H v Hv) as (w & Hw & Hlen & Hfit). exists w. now repeat split.
Qed.

(** X27: a word of the wrong length does not always make [consistent]
    answer false: when the first binding has a word of the right length and
    the first of its neighbours is bound to a word too short for the
    overlap, the letter is read before the length of that word was looked
    at, and [consistent] raises [IndexError]. *)
Theorem consistent_index_error (cw : Crossword) (assignment : Assignment)
    (x y : Var) (w wy : string) (rest : Assignment) (ns : list Var)
    (i j : nat) :
  assignment = (x, w) :: rest ->
  String.length w = var_length x ->
  neighbors cw x = y :: ns ->
  dict_get (overlaps cw) (x, y) = Some (Some (i, j)) ->
  dict_get assignment y = Some wy ->
  i < String.length w -> String.length wy <= j ->
  consistent cw assignment = Raise IndexError.
Proof.
  intros -> Hw Hns Hov Hy Hi Hj. unfold consistent. simpl.
  rewrite decide_True by reflexivity. simpl. rewrite Hw, Nat.eqb_refl. simpl.
  rewrite Hns. simpl. unfold overlaps_get. rewrite Hov. simpl.
  simpl in Hy. rewrite Hy.
  destruct (str_index_lt w i Hi) as (c & _ & ->). simpl.
  assert (Hget : forall s k, String.length s <= k -> String.get k s = None).
  { induction s as [|a s IH]; intros k Hk; simpl in *; [now destruct k|].
    destruct k as [|k]; [lia|]. apply IH. lia. }
  unfold str_index. now rewrite (Hget wy j Hj).
Qed.

Lemma consistent_index_error_witness :
  consistent cw_cat [(var_x, "CAT"); (var_y, "")] = Raise IndexError.
Proof.
  apply (consistent_index_error cw_cat _ var_x var_y "CAT" "" [(var_y, "")] [] 2 0);
    try reflexivity; simpl; lia.
Defined.
